(** * Floor-plan constraint compiler: a shallow embedding of [floor.py]
    and of the constraint list of [app_floor.py]

    The development follows the source files top to bottom:
    - Python values, exceptions and the string helpers the parser relies on;
    - the backtracking regular-expression matcher behind [re.match], and the
      ten entries of the [patterns] dictionary;
    - [parse_match];
    - the optimisation model that [solve] assembles through the solver's
      Python interface (variables, expressions, constraints, objective);
    - [solve] itself, with its nested [parse_constraint], in a state and
      exception monad;
    - the self-test of [floor.py], and the handlers of [app_floor.py] that
      keep the list of constraints;
    - the properties of the parser, of the model builder, of the constraint
      compiler and of the status handling.

    Modelling conventions.
    - A Python [str] is a [string] whose characters are code points below
      256.  On that range [\d] matches exactly the ASCII digits and
      [str.lower] stays inside the range.
    - A Python [float] is the exact rational its decimal literal denotes
      ([Q]); rounding to binary64, and with it overflow to infinity, is not
      part of the model.
    - A Python [int] is a [Z].  The interpreter's configurable limit on the
      length of a decimal string given to [int] is not part of the model.
    - The list of constraints is an object that the caller and [solve]
      share.  [solve] takes the contents of the list; [solve_ref] is the
      call on the object itself, whose loop reads the object at every step.
      The two are shown to agree, and the rest of the development speaks
      of [solve]. *)

From Stdlib Require Import String Ascii List ZArith QArith Bool Lia Lqa.
From Stdlib Require Import Permutation DecimalString.
Import ListNotations.

Open Scope string_scope.
Open Scope Z_scope.

(* ------------------------------------------------------------------ *)
(** ** Python values and exceptions *)

Inductive pyval : Type :=
| PInt (n : Z)
| PFloat (q : Q)
| PStr (s : string).

Inductive exn : Type :=
| KeyError (key : string)
| ValueError (msg : string)
| IndexError (msg : string)
| UnboundLocalError (name : string)
| AttributeError (attr : string)
| Exception (msg : string).

Inductive result (A : Type) : Type :=
| Ok (a : A)
| Raise (e : exn).
Arguments Ok {A} a.
Arguments Raise {A} e.

Definition rbind {A B} (c : result A) (k : A -> result B) : result B :=
  match c with
  | Ok a => k a
  | Raise e => Raise e
  end.

Declare Scope result_scope.
Delimit Scope result_scope with result.
Notation "x <- c ;; k" := (rbind c (fun x => k))
  (at level 61, c at next level, right associativity) : result_scope.

(* ------------------------------------------------------------------ *)
(** ** Strings *)

Definition is_digit (c : ascii) : bool :=
  let n := N_of_ascii c in ((48 <=? n) && (n <=? 57))%N.

(** [str.lower] on code points below 256: A-Z, and the Latin-1 capitals
    U+00C0..U+00DE except the multiplication sign U+00D7. *)
Definition lower_char (c : ascii) : ascii :=
  let n := N_of_ascii c in
  if (((65 <=? n) && (n <=? 90))
      || ((192 <=? n) && (n <=? 222) && negb (n =? 215)))%N
  then ascii_of_N (n + 32)
  else c.

Fixpoint lower (s : string) : string :=
  match s with
  | EmptyString => EmptyString
  | String c s' => String (lower_char c) (lower s')
  end.

(** [strip_prefix l s] is the rest of [s] after the literal [l], if [s]
    starts with [l]. *)
Fixpoint strip_prefix (l s : string) : option string :=
  match l with
  | EmptyString => Some s
  | String a l' =>
      match s with
      | EmptyString => None
      | String b s' => if Ascii.eqb a b then strip_prefix l' s' else None
      end
  end.

Fixpoint all_chars (f : ascii -> bool) (s : string) : bool :=
  match s with
  | EmptyString => true
  | String c s' => f c && all_chars f s'
  end.

(** The longest prefix of characters satisfying [f], and what follows. *)
Fixpoint span (f : ascii -> bool) (s : string) : string * string :=
  match s with
  | EmptyString => (EmptyString, EmptyString)
  | String c s' =>
      if f c then let '(a, b) := span f s' in (String c a, b)
      else (EmptyString, s)
  end.

(* ------------------------------------------------------------------ *)
(** ** Regular expressions: the fragment used by [patterns]

    [re.match] anchors at the start of the text only and runs a
    backtracking search: a greedy [+] first tries one more repetition and
    gives characters back when the rest of the pattern fails, and the
    alternatives of [a|b] are tried from left to right.  The matcher below
    is written in continuation-passing style; the continuation receives the
    text consumed, the groups captured so far and the remaining input. *)

Inductive regex : Type :=
| Lit (s : string)              (* literal characters *)
| Plus (cls : ascii -> bool)    (* [\d+] and [[...]+], greedy *)
| Alt (alts : list string)      (* [a|b|c] over literals *)
| Group (r : regex)             (* [( ... )], capturing *)
| Seq (r1 r2 : regex).

Section Matcher.
Context {A : Type}.

Fixpoint plus_k (cls : ascii -> bool) (s : string)
         (k : string -> string -> option A) : option A :=
  match s with
  | EmptyString => None
  | String c s' =>
      if cls c then
        match plus_k cls s' (fun m rest => k (String c m) rest) with
        | Some r => Some r
        | None => k (String c EmptyString) s'
        end
      else None
  end.

Fixpoint alt_k (alts : list string) (s : string)
         (k : string -> string -> option A) : option A :=
  match alts with
  | [] => None
  | a :: alts' =>
      let first := match strip_prefix a s with
                   | Some rest => k a rest
                   | None => None
                   end in
      match first with
      | Some r => Some r
      | None => alt_k alts' s k
      end
  end.

Fixpoint match_k (r : regex) (s : string) (gs : list string)
         (k : string -> list string -> string -> option A) : option A :=
  match r with
  | Lit l =>
      match strip_prefix l s with
      | Some rest => k l gs rest
      | None => None
      end
  | Plus cls => plus_k cls s (fun m rest => k m gs rest)
  | Alt alts => alt_k alts s (fun m rest => k m gs rest)
  | Group r' => match_k r' s gs (fun m gs' rest => k m (gs' ++ [m])%list rest)
  | Seq r1 r2 =>
      match_k r1 s gs (fun m1 gs1 rest1 =>
        match_k r2 rest1 gs1 (fun m2 gs2 rest2 => k (m1 ++ m2) gs2 rest2))
  end.
End Matcher.

(** [re.match(pattern, text)] followed by [.groups()]: [None] when no
    prefix of the text matches. *)
Definition re_match (r : regex) (s : string) : option (list string) :=
  match_k r s [] (fun _ gs _ => Some gs).

Declare Scope regex_scope.
Delimit Scope regex_scope with regex.
Notation "r1 ';;;' r2" := (Seq r1 r2)
  (at level 60, right associativity) : regex_scope.

(** [\d] *)
Definition d : ascii -> bool := is_digit.

(** [[-+e\d.]] *)
Definition float_chars (c : ascii) : bool :=
  Ascii.eqb c "-" || Ascii.eqb c "+" || Ascii.eqb c "e" || is_digit c
  || Ascii.eqb c ".".

Definition INT : regex := Group (Plus d).
Definition FLOAT : regex := Group (Plus float_chars).
Definition ONEOF (alts : list string) : regex := Group (Alt alts).

(** The [patterns] dictionary, in source order. *)
Definition patterns : list (string * regex) :=
  [ ("width",
      (Lit "box " ;;; INT ;;; Lit " has width of " ;;; FLOAT)%regex);
    ("height",
      (Lit "box " ;;; INT ;;; Lit " has height of " ;;; FLOAT)%regex);
    ("position",
      (Lit "box " ;;; INT ;;; Lit " is to the " ;;; ONEOF ["left"; "bottom"]
       ;;; Lit " of box " ;;; INT)%regex);
    ("area",
      (Lit "box " ;;; INT ;;; Lit " has area of at least " ;;; FLOAT)%regex);
    ("ratio",
      (Lit "box " ;;; INT ;;; Lit " has aspect ratio of "
       ;;; ONEOF ["at least"; "at most"] ;;; Lit " " ;;; FLOAT)%regex);
    ("horizontal_align",
      (ONEOF ["top"; "center"; "bottom"] ;;; Lit " of box " ;;; INT
       ;;; Lit " aligns horizontally with "
       ;;; ONEOF ["top"; "center"; "bottom"] ;;; Lit " of box " ;;; INT)%regex);
    ("vertical_align",
      (ONEOF ["left"; "center"; "right"] ;;; Lit " of box " ;;; INT
       ;;; Lit " aligns vertically with "
       ;;; ONEOF ["left"; "center"; "right"] ;;; Lit " of box " ;;; INT)%regex);
    ("symmetry",
      (Lit "box " ;;; INT ;;; Lit " and box " ;;; INT
       ;;; Lit " are symmetric through axis " ;;; ONEOF ["x"; "y"]
       ;;; Lit "=" ;;; FLOAT)%regex);
    ("similarity",
      (Lit "box " ;;; INT ;;; Lit " is " ;;; FLOAT
       ;;; Lit "-scaled translate of box " ;;; INT)%regex);
    ("containment",
      (Lit "box " ;;; INT ;;; Lit " contains a point (" ;;; FLOAT
       ;;; Lit "," ;;; FLOAT ;;; Lit ")")%regex) ].

(** The keys of [patterns]: the ten recognised kinds. *)
Definition kinds : list string := map fst patterns.

(** [dict[key]] *)
Fixpoint dict_get {V} (dict : list (string * V)) (key : string) : result V :=
  match dict with
  | [] => Raise (KeyError key)
  | (k, v) :: dict' => if String.eqb k key then Ok v else dict_get dict' key
  end.

(** [tuple[i]] for a non-negative literal index. *)
Definition item {V} (t : list V) (i : nat) : result V :=
  match nth_error t i with
  | Some v => Ok v
  | None => Raise (IndexError "tuple index out of range")
  end.

(* ------------------------------------------------------------------ *)
(** ** [int] and [float] on the text a group can capture *)

Definition digit_val (c : ascii) : Z := Z.of_N (N_of_ascii c) - 48.

Fixpoint int_acc (s : string) (acc : Z) : Z :=
  match s with
  | EmptyString => acc
  | String c s' => int_acc s' (10 * acc + digit_val c)
  end.

Definition is_empty (s : string) : bool :=
  match s with EmptyString => true | _ => false end.

(** [int(s)] for a string of decimal digits.  (Python also accepts a sign,
    surrounding blanks and underscores; [\d+] captures none of them.) *)
Definition int (s : string) : result Z :=
  if negb (is_empty s) && all_chars is_digit s then Ok (int_acc s 0)
  else Raise (ValueError "invalid literal for int() with base 10").

Definition float_error : exn :=
  ValueError "could not convert string to float".

(** An optional sign. *)
Definition take_sign (s : string) : bool * string :=
  match s with
  | String "-" t => (true, t)
  | String "+" t => (false, t)
  | _ => (false, s)
  end.

(** The exponent part: nothing, or [e], an optional sign and digits up to
    the end of the text. *)
Definition float_exponent (s : string) : option Z :=
  match s with
  | EmptyString => Some 0
  | String "e" t =>
      let '(neg, ds) := take_sign t in
      if negb (is_empty ds) && all_chars is_digit ds
      then Some (if neg then - int_acc ds 0 else int_acc ds 0)
      else None
  | _ => None
  end.

(** [float(s)] over the alphabet of [[-+e\d.]]: an optional sign, digits
    with at most one point and at least one digit, an optional exponent.
    The value is [mantissa * 10 ^ exponent], exactly. *)
Definition float (s : string) : result Q :=
  let '(neg, s1) := take_sign s in
  let '(ip, s2) := span is_digit s1 in
  let '(fp, s3) := match s2 with
                   | String "." t => span is_digit t
                   | _ => (EmptyString, s2)
                   end in
  if is_empty ip && is_empty fp then Raise float_error
  else
    match float_exponent s3 with
    | None => Raise float_error
    | Some e =>
        let m := int_acc (ip ++ fp) 0 in
        let m := if neg then - m else m in
        Ok (inject_Z m * Qpower (inject_Z 10) (e - Z.of_nat (String.length fp)))%Q
    end.

(* ------------------------------------------------------------------ *)
(** ** [parse_match] *)

Definition invalid_constraint : exn := Exception "Invalid constraint".

Open Scope result_scope.

Definition parse_match (constraint_type constraint : string)
  : result (list pyval) :=
  let constraint_type := lower constraint_type in
  let constraint := lower constraint in
  pattern <- dict_get patterns constraint_type ;;
  match re_match pattern constraint with
  | None => Raise invalid_constraint
  | Some match_ =>
      if String.eqb constraint_type "width" then
        g0 <- item match_ 0 ;; box <- int g0 ;;
        g1 <- item match_ 1 ;; width <- float g1 ;;
        Ok [PInt box; PFloat width]
      else if String.eqb constraint_type "height" then
        g0 <- item match_ 0 ;; box <- int g0 ;;
        g1 <- item match_ 1 ;; height <- float g1 ;;
        Ok [PInt box; PFloat height]
      else if String.eqb constraint_type "position" then
        g0 <- item match_ 0 ;; box1 <- int g0 ;;
        position <- item match_ 1 ;;
        g2 <- item match_ 2 ;; box2 <- int g2 ;;
        Ok [PInt box1; PStr position; PInt box2]
      else if String.eqb constraint_type "area" then
        g0 <- item match_ 0 ;; box <- int g0 ;;
        g1 <- item match_ 1 ;; area <- float g1 ;;
        Ok [PInt box; PFloat area]
      else if String.eqb constraint_type "ratio" then
        g0 <- item match_ 0 ;; box <- int g0 ;;
        ratio_type <- item match_ 1 ;;
        g2 <- item match_ 2 ;; ratio <- float g2 ;;
        Ok [PInt box; PStr ratio_type; PFloat ratio]
      else if String.eqb constraint_type "horizontal_align" then
        align1 <- item match_ 0 ;;
        g1 <- item match_ 1 ;; box1 <- int g1 ;;
        align2 <- item match_ 2 ;;
        g3 <- item match_ 3 ;; box2 <- int g3 ;;
        Ok [PStr align1; PInt box1; PStr align2; PInt box2]
      else if String.eqb constraint_type "vertical_align" then
        align1 <- item match_ 0 ;;
        g1 <- item match_ 1 ;; box1 <- int g1 ;;
        align2 <- item match_ 2 ;;
        g3 <- item match_ 3 ;; box2 <- int g3 ;;
        Ok [PStr align1; PInt box1; PStr align2; PInt box2]
      else if String.eqb constraint_type "symmetry" then
        g0 <- item match_ 0 ;; box1 <- int g0 ;;
        g1 <- item match_ 1 ;; box2 <- int g1 ;;
        axis <- item match_ 2 ;;
        g3 <- item match_ 3 ;; axis_value <- float g3 ;;
        Ok [PInt box1; PInt box2; PStr axis; PFloat axis_value]
      else if String.eqb constraint_type "similarity" then
        g0 <- item match_ 0 ;; box1 <- int g0 ;;
        g1 <- item match_ 1 ;; scale <- float g1 ;;
        g2 <- item match_ 2 ;; box2 <- int g2 ;;
        Ok [PInt box1; PFloat scale; PInt box2]
      else if String.eqb constraint_type "containment" then
        g0 <- item match_ 0 ;; box <- int g0 ;;
        g1 <- item match_ 1 ;; x1 <- float g1 ;;
        g2 <- item match_ 2 ;; y1 <- float g2 ;;
        Ok [PInt box; PFloat x1; PFloat y1]
      else Raise invalid_constraint
  end.

Close Scope result_scope.

(* ------------------------------------------------------------------ *)
(** ** The solver interface

    The solver library is an external collaborator.  Its objects are
    modelled as far as [solve] uses them: a model is the list of its
    variables, its objective, the constraints added so far, and what the
    last [optimize] left in it. *)

Module GRB.
(** Modelled from the spec: the domains of the variables, continuous or
    binary (section 4.2); the solver library that declares them is not
    part of the repository. *)
Inductive vtype : Type := CONTINUOUS | BINARY.

(** Modelled from the spec: the direction of the objective (section 6). *)
Inductive sense : Type := MINIMIZE | MAXIMIZE.

(** Modelled from the spec: the status the backend leaves in the model
    (section 4.4).  [LOADED] is the status before any run, [TIME_LIMIT]
    that of a run stopped at the time limit, with or without an
    incumbent. *)
Inductive status : Type :=
| LOADED | OPTIMAL | INFEASIBLE | INF_OR_UNBD | UNBOUNDED | TIME_LIMIT
| OTHER (code : Z).

Definition status_eqb (a b : status) : bool :=
  match a, b with
  | LOADED, LOADED | OPTIMAL, OPTIMAL | INFEASIBLE, INFEASIBLE
  | INF_OR_UNBD, INF_OR_UNBD | UNBOUNDED, UNBOUNDED
  | TIME_LIMIT, TIME_LIMIT => true
  | OTHER c1, OTHER c2 => Z.eqb c1 c2
  | _, _ => false
  end.
End GRB.

(** A variable handle: the position of the variable in its model. *)
Inductive Var : Type := mkVar (id : nat).

Definition var_id (v : Var) : nat := match v with mkVar n => n end.

Record var_decl : Type := { lb : Q; vtype : GRB.vtype }.

(** Expressions and constraints as the overloaded Python operators build
    them. *)
Inductive expr : Type :=
| EVar (v : Var)
| EConst (c : Q)
| EAdd (a b : expr)
| ESub (a b : expr)
| EMul (a b : expr)
| EDiv (a b : expr).

Inductive cmp : Type := Le | Ge | Eq.

Inductive tconstr : Type :=
| Rel (lhs : expr) (c : cmp) (rhs : expr)
| Implies (cond body : tconstr).       (* [cond >> body] *)

Coercion EVar : Var >-> expr.
Coercion EConst : Q >-> expr.

Declare Scope expr_scope.
Delimit Scope expr_scope with E.
Bind Scope expr_scope with expr.
Bind Scope expr_scope with tconstr.
Notation "a + b" := (EAdd a b) : expr_scope.
Notation "a - b" := (ESub a b) : expr_scope.
Notation "a * b" := (EMul a b) : expr_scope.
Notation "a / b" := (EDiv a b) : expr_scope.
Notation "a <= b" := (Rel a Le b) : expr_scope.
Notation "a >= b" := (Rel a Ge b) : expr_scope.
Notation "a == b" := (Rel a Eq b) : expr_scope.
Notation "a >> b" := (Implies a b) (at level 75, no associativity) : expr_scope.

Record Model : Type := {
  TimeLimit : option Z;
  vars : list var_decl;
  objective : option (expr * GRB.sense);
  constrs : list tconstr;
  status : GRB.status;
  solution : option (Q * (Var -> Q))   (* [objVal] and the [X] attributes *)
}.

(** [Model()] *)
Definition new_model : Model :=
  {| TimeLimit := None; vars := []; objective := None; constrs := [];
     status := GRB.LOADED; solution := None |}.

(** What the code can observe and change: the model [solve] builds, the
    text printed, the number of times the backend has been run, and the
    list object the caller of [solve] holds its constraints in (the local
    [constraints] of the self-test, the global [constraints] of
    [app_floor.py]). *)
Record world : Type := {
  model : Model;
  stdout : list string;
  optimize_calls : nat;
  caller_constraints : list (string * string)
}.

(** ** The state and exception monad *)

Definition M (A : Type) : Type := world -> result A * world.

Definition ret {A} (a : A) : M A := fun s => (Ok a, s).
Definition raise {A} (e : exn) : M A := fun s => (Raise e, s).
Definition bind {A B} (c : M A) (k : A -> M B) : M B :=
  fun s => match c s with
           | (Ok a, s') => k a s'
           | (Raise e, s') => (Raise e, s')
           end.
Definition lift {A} (r : result A) : M A := fun s => (r, s).

Declare Scope M_scope.
Delimit Scope M_scope with M.
Notation "x <- c ;; k" := (bind c (fun x => k))
  (at level 61, c at next level, right associativity) : M_scope.
Notation "c ;; k" := (bind c (fun _ => k))
  (at level 61, right associativity) : M_scope.

Definition upd_model (f : Model -> Model) (s : world) : world :=
  {| model := f (model s); stdout := stdout s;
     optimize_calls := optimize_calls s;
     caller_constraints := caller_constraints s |}.

Definition with_model (f : Model -> Model) : M unit :=
  fun s => (Ok tt, upd_model f s).

Definition set_vars (l : list var_decl) (m : Model) : Model :=
  {| TimeLimit := TimeLimit m; vars := l; objective := objective m;
     constrs := constrs m; status := status m; solution := solution m |}.
Definition set_constrs (l : list tconstr) (m : Model) : Model :=
  {| TimeLimit := TimeLimit m; vars := vars m; objective := objective m;
     constrs := l; status := status m; solution := solution m |}.
Definition set_objective (o : option (expr * GRB.sense)) (m : Model) : Model :=
  {| TimeLimit := TimeLimit m; vars := vars m; objective := o;
     constrs := constrs m; status := status m; solution := solution m |}.
Definition set_TimeLimit (t : option Z) (m : Model) : Model :=
  {| TimeLimit := t; vars := vars m; objective := objective m;
     constrs := constrs m; status := status m; solution := solution m |}.
Definition set_outcome (o : GRB.status * option (Q * (Var -> Q))) (m : Model)
  : Model :=
  {| TimeLimit := TimeLimit m; vars := vars m; objective := objective m;
     constrs := constrs m; status := fst o; solution := snd o |}.

(** [model = Model()] *)
Definition Model_ : M unit := with_model (fun _ => new_model).

(** [model.setParam('TimeLimit', t)] *)
Definition setParam_TimeLimit (t : Z) : M unit :=
  with_model (set_TimeLimit (Some t)).

(** [model.addVar(lb=0, vtype=vt)]; zero is also the default lower bound. *)
Definition addVar (vt : GRB.vtype) : M Var :=
  fun s =>
    let m := model s in
    bind (with_model (set_vars (vars m ++ [{| lb := 0; vtype := vt |}])))
         (fun _ => ret (mkVar (List.length (vars m)))) s.

(** [model.setObjective(e, sense)] *)
Definition setObjective (e : expr) (sense : GRB.sense) : M unit :=
  with_model (set_objective (Some (e, sense))).

(** [model.addConstr(c)] *)
Definition addConstr (c : tconstr) : M unit :=
  with_model (fun m => set_constrs (constrs m ++ [c]) m).

(** [print(text)] *)
Definition print (text : string) : M unit :=
  fun s => (Ok tt, {| model := model s; stdout := stdout s ++ [text];
                      optimize_calls := optimize_calls s;
                      caller_constraints := caller_constraints s |}).

(** [model.status] *)
Definition get_status : M GRB.status := fun s => (Ok (status (model s)), s).

(** [model.objVal] and [v.X]: available only when the last run left a
    solution. *)
Definition objVal : M Q :=
  fun s => match solution (model s) with
           | Some (obj, _) => (Ok obj, s)
           | None => (Raise (AttributeError "objVal"), s)
           end.
Definition X (v : Var) : M Q :=
  fun s => match solution (model s) with
           | Some (_, val) => (Ok (val v), s)
           | None => (Raise (AttributeError "X"), s)
           end.

(** ** Lists, ranges and loops *)

(** [range(a, b)] *)
Definition range (a b : Z) : list Z :=
  map (fun k => a + Z.of_nat k) (seq 0 (Z.to_nat (b - a))).

(** [l[i]], with Python's negative indices. *)
Definition getitem {V} (l : list V) (i : Z) : M V :=
  let n := Z.of_nat (List.length l) in
  let j := if i <? 0 then i + n else i in
  if (0 <=? j) && (j <? n) then
    match nth_error l (Z.to_nat j) with
    | Some v => ret v
    | None => raise (IndexError "list index out of range")
    end
  else raise (IndexError "list index out of range").

(** [for a in l: body(a)] *)
Fixpoint for_ {V} (l : list V) (body : V -> M unit) : M unit :=
  match l with
  | [] => ret tt
  | a :: l' => bind (body a) (fun _ => for_ l' body)
  end.

(** [[f(a) for a in l]] *)
Fixpoint comprehension {V R} (l : list V) (f : V -> M R) : M (list R) :=
  match l with
  | [] => ret []
  | a :: l' =>
      bind (f a) (fun r => bind (comprehension l' f) (fun rs => ret (r :: rs)))
  end.

(** ** The caller's list object

    Python passes a list by reference: [solve] works on the very object the
    caller holds.  The world keeps that object in [caller_constraints];
    these are the operations the sources apply to it. *)

(** The list without its item [i]; the list itself when it has none. *)
Fixpoint delete {V} (l : list V) (i : nat) : list V :=
  match l, i with
  | [], _ => []
  | _ :: l', O => l'
  | x :: l', S i' => x :: delete l' i'
  end.

(** [constraints.append(c)] *)
Definition constraints_append (c : string * string) : M unit :=
  fun s => (Ok tt, {| model := model s; stdout := stdout s;
                      optimize_calls := optimize_calls s;
                      caller_constraints := caller_constraints s ++ [c] |}).

(** [constraints.pop(i)] for [i >= 0] *)
Definition constraints_pop (i : nat) : M (string * string) :=
  fun s =>
    match nth_error (caller_constraints s) i with
    | Some c =>
        (Ok c, {| model := model s; stdout := stdout s;
                  optimize_calls := optimize_calls s;
                  caller_constraints := delete (caller_constraints s) i |})
    | None =>
        (Raise (IndexError match caller_constraints s with
                           | [] => "pop from empty list"
                           | _ :: _ => "pop index out of range"
                           end), s)
    end.

(** [constraints.clear()] *)
Definition constraints_clear : M unit :=
  fun s => (Ok tt, {| model := model s; stdout := stdout s;
                      optimize_calls := optimize_calls s;
                      caller_constraints := [] |}).

(** What the iterator of [for c in constraints] yields when it stands at
    position [i]: item [i] of the list as it is now, or nothing when the
    list has no item [i] (any more). *)
Definition next_constraint (i : nat) : M (option (string * string)) :=
  fun s => (Ok (nth_error (caller_constraints s) i), s).

(** [for c in constraints: body(c)] on the list object.  The iterator
    reads the list anew at every step, so the loop sees what its body does
    to the list; it ends when the position is past the end.  [fuel] bounds
    the number of steps; the result tells whether the loop came to its
    end. *)
Fixpoint for_constraints (fuel i : nat) (body : string * string -> M unit)
  : M bool :=
  match fuel with
  | O => ret false
  | S fuel' =>
      bind (next_constraint i) (fun c =>
      match c with
      | None => ret true
      | Some c => bind (body c) (fun _ => for_constraints fuel' (S i) body)
      end)
  end.

(* ------------------------------------------------------------------ *)
(** ** [solve]

    The body of [solve] is cut at the comments of the source into its
    blocks; [solve] is their sequence.  The backend is a parameter: it maps
    the assembled model to a status and, when it has one, an objective
    value and a value for every variable. *)

Open Scope M_scope.

(** The local lists [w], [h], [x], [y] and the scalars [W], [H]. *)
Record geometry : Type := {
  gW : Var; gH : Var;
  gw : list Var; gh : list Var; gx : list Var; gy : list Var
}.

(** [# add variables] *)
Definition add_variables (N : Z) : M geometry :=
  W <- addVar GRB.CONTINUOUS ;;
  H <- addVar GRB.CONTINUOUS ;;
  w <- comprehension (range 0 N) (fun _ => addVar GRB.CONTINUOUS) ;;
  h <- comprehension (range 0 N) (fun _ => addVar GRB.CONTINUOUS) ;;
  x <- comprehension (range 0 N) (fun _ => addVar GRB.CONTINUOUS) ;;
  y <- comprehension (range 0 N) (fun _ => addVar GRB.CONTINUOUS) ;;
  ret {| gW := W; gH := H; gw := w; gh := h; gx := x; gy := y |}.

(** [# boundin box constraints] *)
Definition bounding_box_constraints (N : Z) (g : geometry) : M unit :=
  for_ (range 0 N) (fun i =>
    xi <- getitem (gx g) i ;; wi <- getitem (gw g) i ;;
    addConstr (xi + wi <= gW g)%E ;;
    yi <- getitem (gy g) i ;; hi <- getitem (gh g) i ;;
    addConstr (yi + hi <= gH g)%E).

(** The body of the inner loop of [# relative positioning constraints]. *)
Definition separate (p : Q) (g : geometry) (i j : Z) : M unit :=
  l <- addVar GRB.BINARY ;;
  r <- addVar GRB.BINARY ;;
  b <- addVar GRB.BINARY ;;
  t <- addVar GRB.BINARY ;;
  xi <- getitem (gx g) i ;; wi <- getitem (gw g) i ;;
  xj <- getitem (gx g) j ;;
  addConstr ((l == 1%Q) >> (xi + wi + p <= xj))%E ;;
  xj <- getitem (gx g) j ;; wj <- getitem (gw g) j ;;
  xi <- getitem (gx g) i ;;
  addConstr ((r == 1%Q) >> (xj + wj + p <= xi))%E ;;
  yi <- getitem (gy g) i ;; hi <- getitem (gh g) i ;;
  yj <- getitem (gy g) j ;;
  addConstr ((b == 1%Q) >> (yi + hi + p <= yj))%E ;;
  yj <- getitem (gy g) j ;; hj <- getitem (gh g) j ;;
  yi <- getitem (gy g) i ;;
  addConstr ((t == 1%Q) >> (yj + hj + p <= yi))%E ;;
  addConstr (l + r <= 1%Q)%E ;;
  addConstr (b + t <= 1%Q)%E ;;
  addConstr (l + r + b + t >= 1%Q)%E.

(** [# relative positioning constraints] *)
Definition relative_positioning_constraints (N : Z) (p : Q) (g : geometry)
  : M unit :=
  for_ (range 0 N) (fun i =>
    for_ (range (i + 1) N) (fun j => separate p g i j)).

Definition unpack_error {A} : M A :=
  raise (ValueError "not enough values to unpack").

(** A local variable that a [match] statement may have left unassigned. *)
Definition local (name : string) (v : option expr) : M expr :=
  match v with
  | Some e => ret e
  | None => raise (UnboundLocalError name)
  end.

(** The nested function [parse_constraint]; [p] and the lists of [g] are
    the variables it captures from [solve]. *)
Definition parse_constraint (p : Q) (g : geometry)
           (constraint_type constraint : string) : M unit :=
  let w := gw g in let h := gh g in let x := gx g in let y := gy g in
  if String.eqb constraint_type "width" then
    fact <- lift (parse_match constraint_type constraint) ;;
    match fact with
    | [PInt box; PFloat width] =>
        wb <- getitem w box ;;
        addConstr (wb == width)%E
    | _ => unpack_error
    end
  else if String.eqb constraint_type "height" then
    fact <- lift (parse_match constraint_type constraint) ;;
    match fact with
    | [PInt box; PFloat height] =>
        hb <- getitem h box ;;
        addConstr (hb == height)%E
    | _ => unpack_error
    end
  else if String.eqb constraint_type "position" then
    fact <- lift (parse_match constraint_type constraint) ;;
    match fact with
    | [PInt box1; PStr position; PInt box2] =>
        if String.eqb position "left" then
          x1 <- getitem x box1 ;; w1 <- getitem w box1 ;;
          x2 <- getitem x box2 ;;
          addConstr (x1 + w1 + p <= x2)%E
        else
          y1 <- getitem y box1 ;; h1 <- getitem h box1 ;;
          y2 <- getitem y box2 ;;
          addConstr (y1 + h1 + p <= y2)%E
    | _ => unpack_error
    end
  else if String.eqb constraint_type "area" then
    fact <- lift (parse_match constraint_type constraint) ;;
    match fact with
    | [PInt box; PFloat area] =>
        wb <- getitem w box ;; hb <- getitem h box ;;
        addConstr (wb * hb >= area)%E
    | _ => unpack_error
    end
  else if String.eqb constraint_type "ratio" then
    fact <- lift (parse_match constraint_type constraint) ;;
    match fact with
    | [PInt box; PStr ratio_type; PFloat ratio] =>
        if String.eqb ratio_type "at least" then
          wb <- getitem w box ;; hb <- getitem h box ;;
          addConstr (wb >= ratio * hb)%E
        else
          wb <- getitem w box ;; hb <- getitem h box ;;
          addConstr (wb <= ratio * hb)%E
    | _ => unpack_error
    end
  else if String.eqb constraint_type "horizontal_align" then
    fact <- lift (parse_match constraint_type constraint) ;;
    match fact with
    | [PStr align1; PInt box1; PStr align2; PInt box2] =>
        equation1 <-
          (if String.eqb align1 "top" then
             y1 <- getitem y box1 ;; h1 <- getitem h box1 ;;
             ret (Some (y1 + h1)%E)
           else if String.eqb align1 "center" then
             y1 <- getitem y box1 ;; h1 <- getitem h box1 ;;
             ret (Some (y1 + h1 / 2%Q)%E)
           else if String.eqb align1 "bottom" then
             y1 <- getitem y box1 ;; ret (Some (EVar y1))
           else ret None) ;;
        equation2 <-
          (if String.eqb align2 "top" then
             y2 <- getitem y box2 ;; h2 <- getitem h box2 ;;
             ret (Some (y2 + h2)%E)
           else if String.eqb align2 "center" then
             y2 <- getitem y box2 ;; h2 <- getitem h box2 ;;
             ret (Some (y2 + h2 / 2%Q)%E)
           else if String.eqb align2 "bottom" then
             y2 <- getitem y box2 ;; ret (Some (EVar y2))
           else ret None) ;;
        e1 <- local "equation1" equation1 ;;
        e2 <- local "equation2" equation2 ;;
        addConstr (e1 == e2)%E
    | _ => unpack_error
    end
  else if String.eqb constraint_type "vertical_align" then
    fact <- lift (parse_match constraint_type constraint) ;;
    match fact with
    | [PStr align1; PInt box1; PStr align2; PInt box2] =>
        equation1 <-
          (if String.eqb align1 "left" then
             x1 <- getitem x box1 ;; ret (Some (EVar x1))
           else if String.eqb align1 "center" then
             x1 <- getitem x box1 ;; w1 <- getitem w box1 ;;
             ret (Some (x1 + w1 / 2%Q)%E)
           else if String.eqb align1 "right" then
             x1 <- getitem x box1 ;; w1 <- getitem w box1 ;;
             ret (Some (x1 + w1)%E)
           else ret None) ;;
        equation2 <-
          (if String.eqb align2 "left" then
             x2 <- getitem x box2 ;; ret (Some (EVar x2))
           else if String.eqb align2 "center" then
             x2 <- getitem x box2 ;; w2 <- getitem w box2 ;;
             ret (Some (x2 + w2 / 2%Q)%E)
           else if String.eqb align2 "right" then
             x2 <- getitem x box2 ;; w2 <- getitem w box2 ;;
             ret (Some (x2 + w2)%E)
           else ret None) ;;
        e1 <- local "equation1" equation1 ;;
        e2 <- local "equation2" equation2 ;;
        addConstr (e1 == e2)%E
    | _ => unpack_error
    end
  else if String.eqb constraint_type "symmetry" then
    fact <- lift (parse_match constraint_type constraint) ;;
    match fact with
    | [PInt box1; PInt box2; PStr axis; PFloat axis_value] =>
        if String.eqb axis "x" then
          x1 <- getitem x box1 ;; w1 <- getitem w box1 ;;
          x2 <- getitem x box2 ;; w2 <- getitem w box2 ;;
          addConstr (axis_value - (x1 + w1 / 2%Q) == (x2 + w2 / 2%Q) - axis_value)%E
        else
          y1 <- getitem y box1 ;; h1 <- getitem h box1 ;;
          y2 <- getitem y box2 ;; h2 <- getitem h box2 ;;
          addConstr (axis_value - (y1 + h1 / 2%Q) == (y2 + h2 / 2%Q) - axis_value)%E
    | _ => unpack_error
    end
  else if String.eqb constraint_type "similarity" then
    fact <- lift (parse_match constraint_type constraint) ;;
    match fact with
    | [PInt box1; PFloat scale; PInt box2] =>
        w1 <- getitem w box1 ;; w2 <- getitem w box2 ;;
        addConstr (w1 == scale * w2)%E ;;
        h1 <- getitem h box1 ;; h2 <- getitem h box2 ;;
        addConstr (h1 == scale * h2)%E
    | _ => unpack_error
    end
  else if String.eqb constraint_type "containment" then
    fact <- lift (parse_match constraint_type constraint) ;;
    match fact with
    | [PInt box; PFloat x1; PFloat y1] =>
        xb <- getitem x box ;;
        addConstr (xb <= x1)%E ;;
        yb <- getitem y box ;;
        addConstr (yb <= y1)%E ;;
        xb <- getitem x box ;; wb <- getitem w box ;;
        addConstr (xb + wb >= x1)%E ;;
        yb <- getitem y box ;; hb <- getitem h box ;;
        addConstr (yb + hb >= y1)%E
    | _ => unpack_error
    end
  else raise (Exception ("Invalid constraint: " ++ constraint)).

(** [# adding other constraints] *)
Definition add_other_constraints (p : Q) (g : geometry)
           (constraints : list (string * string)) : M unit :=
  for_ constraints (fun '(constraint_type, constraint) =>
    parse_constraint p g constraint_type constraint).

(** The value [solve] returns:
    [(objVal, W, H, x, y, w, h, status)]. *)
Definition bundle : Type :=
  (Q * Q * Q * list Q * list Q * list Q * list Q * GRB.status)%type.

(** From [model = Model()] to the end of the loop over the pairs of
    boxes: the part of the model that does not depend on the caller's
    constraints. *)
Definition build_model (N : Z) (p : Q) (timeout : Z) : M geometry :=
  Model_ ;;
  setParam_TimeLimit timeout ;;
  g <- add_variables N ;;
  setObjective (2%Q * (gW g + gH g))%E GRB.MINIMIZE ;;
  bounding_box_constraints N g ;;
  relative_positioning_constraints N p g ;;
  ret g.

(** Everything up to the call of the backend. *)
Definition build (N : Z) (p : Q) (constraints : list (string * string))
           (timeout : Z) : M geometry :=
  g <- build_model N p timeout ;;
  add_other_constraints p g constraints ;;
  ret g.

(** From the status check to the [return]. *)
Definition extract (g : geometry) : M bundle :=
  st <- get_status ;;
  (if GRB.status_eqb st GRB.INFEASIBLE
   then raise (Exception "Infeasible model") else ret tt) ;;
  st <- get_status ;;
  (if negb (GRB.status_eqb st GRB.OPTIMAL)
   then print "Model is not optimal" else ret tt) ;;
  obj <- objVal ;;
  Wv <- X (gW g) ;;
  Hv <- X (gH g) ;;
  xs <- comprehension (gx g) X ;;
  ys <- comprehension (gy g) X ;;
  ws <- comprehension (gw g) X ;;
  hs <- comprehension (gh g) X ;;
  st <- get_status ;;
  ret (obj, Wv, Hv, xs, ys, ws, hs, st).

Section Solve.
Variable backend : Model -> GRB.status * option (Q * (Var -> Q)).

(** [model.optimize()] *)
Definition optimize : M unit :=
  fun s => (Ok tt,
            {| model := set_outcome (backend (model s)) (model s);
               stdout := stdout s;
               optimize_calls := S (optimize_calls s);
               caller_constraints := caller_constraints s |}).

(** The world right after [model.optimize()]. *)
Definition optimized (s : world) : world := snd (optimize s).

(** [solve(N, p, constraints, timeout)] *)
Definition solve (N : Z) (p : Q) (constraints : list (string * string))
           (timeout : Z) : M bundle :=
  g <- build N p constraints timeout ;;
  optimize ;;
  extract g.

(** The same call, with the argument [constraints] as Python passes it:
    the caller's list object, which the loop of [# adding other
    constraints] iterates on in place.  [None] when [fuel] steps did not
    bring the loop to its end. *)
Definition solve_ref (fuel : nat) (N : Z) (p : Q) (timeout : Z)
  : M (option bundle) :=
  g <- build_model N p timeout ;;
  finished <- for_constraints fuel 0
                (fun '(constraint_type, constraint) =>
                   parse_constraint p g constraint_type constraint) ;;
  if finished : bool then
    optimize ;;
    b <- extract g ;;
    ret (Some b)
  else ret None.
End Solve.

Close Scope M_scope.

(** A world before the call: nothing built, nothing printed, the backend
    not yet run; [cs] is the caller's list. *)
Definition world0 (cs : list (string * string)) : world :=
  {| model := new_model; stdout := []; optimize_calls := 0;
     caller_constraints := cs |}.

(* ------------------------------------------------------------------ *)
(** ** The meaning of a model

    An assignment gives every variable a value.  It is feasible for a
    model when it respects the lower bounds and the binary domains and
    satisfies every constraint; an indicator constraint [cond >> body]
    requires [body] whenever [cond] holds. *)

Open Scope Q_scope.

Fixpoint eval (a : Var -> Q) (e : expr) : Q :=
  match e with
  | EVar v => a v
  | EConst c => c
  | EAdd e1 e2 => eval a e1 + eval a e2
  | ESub e1 e2 => eval a e1 - eval a e2
  | EMul e1 e2 => eval a e1 * eval a e2
  | EDiv e1 e2 => eval a e1 / eval a e2
  end.

Fixpoint holds (a : Var -> Q) (c : tconstr) : Prop :=
  match c with
  | Rel l Le r => eval a l <= eval a r
  | Rel l Ge r => eval a r <= eval a l
  | Rel l Eq r => eval a l == eval a r
  | Implies c1 c2 => holds a c1 -> holds a c2
  end.

Definition in_domain (a : Var -> Q) (m : Model) : Prop :=
  forall i decl, nth_error (vars m) i = Some decl ->
    lb decl <= a (mkVar i) /\
    (vtype decl = GRB.BINARY -> a (mkVar i) == 0 \/ a (mkVar i) == 1).

Definition feasible (m : Model) (a : Var -> Q) : Prop :=
  in_domain a m /\ Forall (holds a) (constrs m).

(** [a] is an optimal solution of a minimisation model with objective [e]. *)
Definition optimal (m : Model) (e : expr) (a : Var -> Q) : Prop :=
  feasible m a /\ forall a', feasible m a' -> eval a e <= eval a' e.

Close Scope Q_scope.

(** ** The layout [solve] gives its variables

    [l[i]] for an index known to be in range. *)
Definition at_ (l : list Var) (i : Z) : Var := nth (Z.to_nat i) l (mkVar 0).

(** The rectangle of box [i] under an assignment. *)
Definition box_x (a : Var -> Q) (g : geometry) (i : Z) : Q := a (at_ (gx g) i).
Definition box_y (a : Var -> Q) (g : geometry) (i : Z) : Q := a (at_ (gy g) i).
Definition box_w (a : Var -> Q) (g : geometry) (i : Z) : Q := a (at_ (gw g) i).
Definition box_h (a : Var -> Q) (g : geometry) (i : Z) : Q := a (at_ (gh g) i).

(** The point [(px, py)] lies in the interior of box [i]. *)
Definition interior (a : Var -> Q) (g : geometry) (i : Z) (px py : Q) : Prop :=
  (box_x a g i < px /\ px < box_x a g i + box_w a g i /\
   box_y a g i < py /\ py < box_y a g i + box_h a g i)%Q.

(** Box [i] lies, with clearance [p], entirely on one side of box [j]. *)
Definition separated (a : Var -> Q) (p : Q) (g : geometry) (i j : Z) : Prop :=
  (box_x a g i + box_w a g i + p <= box_x a g j \/
   box_x a g j + box_w a g j + p <= box_x a g i \/
   box_y a g i + box_h a g i + p <= box_y a g j \/
   box_y a g j + box_h a g j + p <= box_y a g i)%Q.

(** The variable handles after [# add variables] for [n] boxes: [W], [H],
    then the four blocks [w], [h], [x], [y]. *)
Definition block (start n : nat) : list Var := map mkVar (seq start n).

Definition geometry_of (n : nat) : geometry :=
  {| gW := mkVar 0; gH := mkVar 1;
     gw := block 2 n; gh := block (2 + n) n;
     gx := block (2 + 2 * n) n; gy := block (2 + 3 * n) n |}.

(** The pairs [(i, j)] in the order the nested loops visit them. *)
Definition pairs (N : Z) : list (Z * Z) :=
  flat_map (fun i => map (pair i) (range (i + 1) N)) (range 0 N).

(** The two bounding constraints of box [i] (section 4.2). *)
Definition bounding_of (g : geometry) (i : Z) : list tconstr :=
  [ (at_ (gx g) i + at_ (gw g) i <= gW g)%E;
    (at_ (gy g) i + at_ (gh g) i <= gH g)%E ].

(** The seven constraints of the pair [(i, j)] over the indicators
    [l], [r], [b], [t] (section 4.2). *)
Definition pair_constraints (p : Q) (g : geometry) (i j : Z) (l r b t : Var)
  : list tconstr :=
  [ ((l == 1%Q) >> (at_ (gx g) i + at_ (gw g) i + p <= at_ (gx g) j))%E;
    ((r == 1%Q) >> (at_ (gx g) j + at_ (gw g) j + p <= at_ (gx g) i))%E;
    ((b == 1%Q) >> (at_ (gy g) i + at_ (gh g) i + p <= at_ (gy g) j))%E;
    ((t == 1%Q) >> (at_ (gy g) j + at_ (gh g) j + p <= at_ (gy g) i))%E;
    (l + r <= 1%Q)%E;
    (b + t <= 1%Q)%E;
    (l + r + b + t >= 1%Q)%E ].

(** The position of [x] in [l] ([length l] when absent). *)
Fixpoint index_of (x : Z * Z) (l : list (Z * Z)) : nat :=
  match l with
  | [] => O
  | y :: l' =>
      if Z.eqb (fst x) (fst y) && Z.eqb (snd x) (snd y) then O
      else S (index_of x l')
  end.

(** The first of the four consecutive indicator variables of the [k]-th
    pair, for [n] boxes. *)
Definition indicator_base (n k : nat) : nat := 2 + 4 * n + 4 * k.

(** The indicators [l], [r], [b], [t] of the pair [(i, j)]. *)
Definition indicators (N : Z) (i j : Z) : Var * Var * Var * Var :=
  let k := indicator_base (Z.to_nat N) (index_of (i, j) (pairs N)) in
  (mkVar k, mkVar (k + 1), mkVar (k + 2), mkVar (k + 3)).

Definition pair_constraints_of (N : Z) (p : Q) (g : geometry) (ij : Z * Z)
  : list tconstr :=
  let '(l, r, b, t) := indicators N (fst ij) (snd ij) in
  pair_constraints p g (fst ij) (snd ij) l r b t.

Definition continuous : var_decl := {| lb := 0; vtype := GRB.CONTINUOUS |}.
Definition binary : var_decl := {| lb := 0; vtype := GRB.BINARY |}.

(** The model that sections 4.2 and 6 describe for [N] boxes, padding [p]
    and a time limit. *)
Definition spec_model (N : Z) (p : Q) (timeout : Z) : Model :=
  let n := Z.to_nat N in
  let g := geometry_of n in
  {| TimeLimit := Some timeout;
     vars := repeat continuous (2 + 4 * n)
             ++ repeat binary (4 * List.length (pairs N));
     objective := Some ((2%Q * (gW g + gH g))%E, GRB.MINIMIZE);
     constrs := flat_map (bounding_of g) (range 0 N)
                ++ flat_map (pair_constraints_of N p g) (pairs N);
     status := GRB.LOADED;
     solution := None |}.

(** State changes of the builder, as functions on the world. *)
Definition add_vars (l : list var_decl) (s : world) : world :=
  upd_model (fun m => set_vars (vars m ++ l) m) s.
Definition add_constrs (l : list tconstr) (s : world) : world :=
  upd_model (fun m => set_constrs (constrs m ++ l) m) s.

(** The constraints of the pair [snd kij] when it is the [fst kij]-th pair
    after a model of [base] variables. *)
Definition pair_constraints_at (p : Q) (g : geometry) (base : nat)
           (kij : nat * (Z * Z)) : list tconstr :=
  let k := (base + 4 * fst kij)%nat in
  pair_constraints p g (fst (snd kij)) (snd (snd kij))
    (mkVar k) (mkVar (k + 1)) (mkVar (k + 2)) (mkVar (k + 3)).

(** The four local lists hold one variable per box. *)
Definition sized (n : nat) (g : geometry) : Prop :=
  List.length (gw g) = n /\ List.length (gh g) = n /\
  List.length (gx g) = n /\ List.length (gy g) = n.

(** The four indicators of a pair, as a list. *)
Definition indicator_list (N i j : Z) : list Var :=
  let '(l, r, b, t) := indicators N i j in [l; r; b; t].

(** A computation that changes the world only by adding constraints to the
    model, whether it returns or raises. *)
Definition only_adds_constrs {A} (c : M A) : Prop :=
  forall s r s', c s = (r, s') -> exists cs, s' = add_constrs cs s.

(** A layout of two unit boxes side by side, the first one declared to be
    on the left of the second. *)
Definition layout2 (v : Var) : Q :=
  match var_id v with
  | 0%nat => 2 | 1%nat => 1
  | 2%nat | 3%nat | 4%nat | 5%nat => 1
  | 7%nat => 1
  | 10%nat => 1
  | _ => 0
  end.

(** The constraint cannot be compiled, whatever the model. *)
Definition fails_to_parse (c : string * string) : Prop :=
  ~ In (fst c) kinds \/ exists e, parse_match (fst c) (snd c) = Raise e.

(** The world after [print("Model is not optimal")], if it was printed. *)
Definition warned (s : world) : world :=
  if GRB.status_eqb (status (model s)) GRB.OPTIMAL then s
  else {| model := model s;
          stdout := (stdout s ++ ["Model is not optimal"%string])%list;
          optimize_calls := optimize_calls s;
          caller_constraints := caller_constraints s |}.

(** A backend that stops at the time limit with an incumbent. *)
Definition demo_backend (m : Model) : GRB.status * option (Q * (Var -> Q)) :=
  (GRB.TIME_LIMIT, Some (6%Q, fun v => match var_id v with
                                       | O => 2%Q | 1%nat => 1%Q | _ => 0%Q
                                       end)).

(** The assignment that gives every variable the value zero. *)
Definition all_zero (v : Var) : Q := 0%Q.

(** Two boxes of side 2 that overlap on a strip of width 1, the first one
    declared to be on the left of the second. *)
Definition layout_overlap (v : Var) : Q :=
  match var_id v with
  | 0%nat => 3 | 1%nat => 2
  | 2%nat | 3%nat | 4%nat | 5%nat => 2
  | 7%nat => 1
  | 10%nat => 1
  | _ => 0
  end.

(* ------------------------------------------------------------------ *)
(** ** The constraint language of section 6

    A sentence of the language is a kind together with the text of each of
    its fields.  [render] writes it out as section 6 does; [well_formed]
    says that every [<int>] field is [\d+], every [<float>] field is
    [[-+e\d.]+] and every keyword field is one of its alternatives. *)

Inductive sentence : Type :=
| Width (box value : string)
| Height (box value : string)
| Position (box1 side box2 : string)
| Area (box value : string)
| Ratio (box comparator value : string)
| HorizontalAlign (edge1 box1 edge2 box2 : string)
| VerticalAlign (edge1 box1 edge2 box2 : string)
| Symmetry (box1 box2 axis value : string)
| Similarity (box1 scale box2 : string)
| Containment (box px py : string).

Definition kind_of (sen : sentence) : string :=
  match sen with
  | Width _ _ => "width"
  | Height _ _ => "height"
  | Position _ _ _ => "position"
  | Area _ _ => "area"
  | Ratio _ _ _ => "ratio"
  | HorizontalAlign _ _ _ _ => "horizontal_align"
  | VerticalAlign _ _ _ _ => "vertical_align"
  | Symmetry _ _ _ _ => "symmetry"
  | Similarity _ _ _ => "similarity"
  | Containment _ _ _ => "containment"
  end.

Definition render (sen : sentence) : string :=
  match sen with
  | Width b v => "box " ++ b ++ " has width of " ++ v
  | Height b v => "box " ++ b ++ " has height of " ++ v
  | Position b1 side b2 =>
      "box " ++ b1 ++ " is to the " ++ side ++ " of box " ++ b2
  | Area b v => "box " ++ b ++ " has area of at least " ++ v
  | Ratio b c v => "box " ++ b ++ " has aspect ratio of " ++ c ++ " " ++ v
  | HorizontalAlign e1 b1 e2 b2 =>
      e1 ++ " of box " ++ b1 ++ " aligns horizontally with " ++ e2
      ++ " of box " ++ b2
  | VerticalAlign e1 b1 e2 b2 =>
      e1 ++ " of box " ++ b1 ++ " aligns vertically with " ++ e2
      ++ " of box " ++ b2
  | Symmetry b1 b2 axis v =>
      "box " ++ b1 ++ " and box " ++ b2 ++ " are symmetric through axis "
      ++ axis ++ "=" ++ v
  | Similarity b1 s b2 =>
      "box " ++ b1 ++ " is " ++ s ++ "-scaled translate of box " ++ b2
  | Containment b px py =>
      "box " ++ b ++ " contains a point (" ++ px ++ "," ++ py ++ ")"
  end.

Definition int_text (s : string) : bool :=
  negb (is_empty s) && all_chars is_digit s.
Definition float_text (s : string) : bool :=
  negb (is_empty s) && all_chars float_chars s.
Definition one_of (alts : list string) (s : string) : bool :=
  existsb (String.eqb s) alts.

Definition well_formed (sen : sentence) : bool :=
  match sen with
  | Width b v | Height b v | Area b v => int_text b && float_text v
  | Position b1 side b2 =>
      int_text b1 && one_of ["left"; "bottom"] side && int_text b2
  | Ratio b c v =>
      int_text b && one_of ["at least"; "at most"] c && float_text v
  | HorizontalAlign e1 b1 e2 b2 =>
      one_of ["top"; "center"; "bottom"] e1 && int_text b1
      && one_of ["top"; "center"; "bottom"] e2 && int_text b2
  | VerticalAlign e1 b1 e2 b2 =>
      one_of ["left"; "center"; "right"] e1 && int_text b1
      && one_of ["left"; "center"; "right"] e2 && int_text b2
  | Symmetry b1 b2 axis v =>
      int_text b1 && int_text b2 && one_of ["x"; "y"] axis && float_text v
  | Similarity b1 s b2 => int_text b1 && float_text s && int_text b2
  | Containment b px py => int_text b && float_text px && float_text py
  end.

(** The value of an [<int>] field. *)
Definition box_number (s : string) : Z := int_acc s 0.

(** The fact a sentence stands for: box fields as integers, keyword fields
    as they are, numeric fields converted by [float], which is the one
    step that can fail. *)
Definition fact_of (sen : sentence) : result (list pyval) :=
  (match sen with
   | Width b v | Height b v | Area b v =>
       q <- float v ;; Ok [PInt (box_number b); PFloat q]
   | Position b1 side b2 =>
       Ok [PInt (box_number b1); PStr side; PInt (box_number b2)]
   | Ratio b c v =>
       q <- float v ;; Ok [PInt (box_number b); PStr c; PFloat q]
   | HorizontalAlign e1 b1 e2 b2 | VerticalAlign e1 b1 e2 b2 =>
       Ok [PStr e1; PInt (box_number b1); PStr e2; PInt (box_number b2)]
   | Symmetry b1 b2 axis v =>
       q <- float v ;;
       Ok [PInt (box_number b1); PInt (box_number b2); PStr axis; PFloat q]
   | Similarity b1 s b2 =>
       q <- float s ;; Ok [PInt (box_number b1); PFloat q; PInt (box_number b2)]
   | Containment b px py =>
       qx <- float px ;; qy <- float py ;;
       Ok [PInt (box_number b); PFloat qx; PFloat qy]
   end)%result.

(** The text is, up to case, a sentence of the given kind. *)
Definition in_grammar (kind text : string) : Prop :=
  exists sen, well_formed sen = true /\ kind_of sen = lower kind /\
              render sen = lower text.

(** [re.fullmatch]: the whole text has to match. *)
Definition re_fullmatch (r : regex) (s : string) : option (list string) :=
  match_k r s [] (fun _ gs rest => if is_empty rest then Some gs else None).

(** What the regular expressions denote: [matches r m caps] when the text
    [m] belongs to the language of [r], capturing [caps]. *)
Inductive matches : regex -> string -> list string -> Prop :=
| M_Lit l : matches (Lit l) l []
| M_Plus cls m :
    is_empty m = false -> all_chars cls m = true -> matches (Plus cls) m []
| M_Alt alts a : In a alts -> matches (Alt alts) a []
| M_Group r m caps : matches r m caps -> matches (Group r) m (caps ++ [m])
| M_Seq r1 r2 m1 m2 caps1 caps2 :
    matches r1 m1 caps1 -> matches r2 m2 caps2 ->
    matches (Seq r1 r2) (m1 ++ m2)%string (caps1 ++ caps2).

(* ------------------------------------------------------------------ *)
(** ** The encoding table of section 4.3 *)

(** The horizontal edge of a box named by a keyword. *)
Definition y_edge (g : geometry) (keyword : string) (box : Z) : option expr :=
  if String.eqb keyword "top" then
    Some (at_ (gy g) box + at_ (gh g) box)%E
  else if String.eqb keyword "center" then
    Some (at_ (gy g) box + at_ (gh g) box / 2%Q)%E
  else if String.eqb keyword "bottom" then Some (EVar (at_ (gy g) box))
  else None.

(** The vertical edge of a box named by a keyword. *)
Definition x_edge (g : geometry) (keyword : string) (box : Z) : option expr :=
  if String.eqb keyword "left" then Some (EVar (at_ (gx g) box))
  else if String.eqb keyword "center" then
    Some (at_ (gx g) box + at_ (gw g) box / 2%Q)%E
  else if String.eqb keyword "right" then
    Some (at_ (gx g) box + at_ (gw g) box)%E
  else None.

(** One row of the table per kind: the constraints a fact is encoded as. *)
Definition encoding (p : Q) (g : geometry) (kind : string) (fact : list pyval)
  : option (list tconstr) :=
  let w := at_ (gw g) in let h := at_ (gh g) in
  let x := at_ (gx g) in let y := at_ (gy g) in
  match fact with
  | [PInt box; PFloat v] =>
      if String.eqb kind "width" then Some [(w box == v)%E]
      else if String.eqb kind "height" then Some [(h box == v)%E]
      else if String.eqb kind "area" then Some [(w box * h box >= v)%E]
      else None
  | [PInt b1; PStr side; PInt b2] =>
      if String.eqb kind "position" then
        if String.eqb side "left" then Some [(x b1 + w b1 + p <= x b2)%E]
        else if String.eqb side "bottom" then Some [(y b1 + h b1 + p <= y b2)%E]
        else None
      else None
  | [PInt box; PStr comparator; PFloat v] =>
      if String.eqb kind "ratio" then
        if String.eqb comparator "at least" then Some [(w box >= v * h box)%E]
        else if String.eqb comparator "at most" then Some [(w box <= v * h box)%E]
        else None
      else None
  | [PStr a1; PInt b1; PStr a2; PInt b2] =>
      if String.eqb kind "horizontal_align" then
        match y_edge g a1 b1, y_edge g a2 b2 with
        | Some e1, Some e2 => Some [(e1 == e2)%E]
        | _, _ => None
        end
      else if String.eqb kind "vertical_align" then
        match x_edge g a1 b1, x_edge g a2 b2 with
        | Some e1, Some e2 => Some [(e1 == e2)%E]
        | _, _ => None
        end
      else None
  | [PInt b1; PInt b2; PStr axis; PFloat v] =>
      if String.eqb kind "symmetry" then
        if String.eqb axis "x" then
          Some [(v - (x b1 + w b1 / 2%Q) == (x b2 + w b2 / 2%Q) - v)%E]
        else if String.eqb axis "y" then
          Some [(v - (y b1 + h b1 / 2%Q) == (y b2 + h b2 / 2%Q) - v)%E]
        else None
      else None
  | [PInt b1; PFloat s; PInt b2] =>
      if String.eqb kind "similarity" then
        Some [(w b1 == s * w b2)%E; (h b1 == s * h b2)%E]
      else None
  | [PInt box; PFloat px; PFloat py] =>
      if String.eqb kind "containment" then
        Some [(x box <= px)%E; (y box <= py)%E;
              (x box + w box >= px)%E; (y box + h box >= py)%E]
      else None
  | _ => None
  end.

(** The box indices a fact refers to. *)
Definition boxes_of (fact : list pyval) : list Z :=
  flat_map (fun v => match v with PInt b => [b] | _ => [] end) fact.


(* ------------------------------------------------------------------ *)
(** ** The constraint compiler as a function

    What [parse_constraint] does with one constraint, without the model:
    the constraints it adds, or the exception it raises.  [n] is the
    number of boxes. *)

Definition compile_one (p : Q) (g : geometry) (n : nat) (c : string * string)
  : result (list tconstr) :=
  let '(kind, text) := c in
  if existsb (String.eqb kind) kinds then
    (fact <- parse_match kind text ;;
     if forallb (fun box => box <? Z.of_nat n) (boxes_of fact) then
       match encoding p g kind fact with
       | Some cs => Ok cs
       | None => Raise (ValueError "not enough values to unpack")
       end
     else Raise (IndexError "list index out of range"))%result
  else Raise (Exception ("Invalid constraint: " ++ text)).

(** The loop over the caller's constraints: what has been added when it
    ends, and the exception that ended it, if any. *)
Fixpoint compile_all (p : Q) (g : geometry) (n : nat)
         (cs : list (string * string)) : list tconstr * option exn :=
  match cs with
  | [] => ([], None)
  | c :: cs' =>
      match compile_one p g n c with
      | Raise e => ([], Some e)
      | Ok l => let '(ls, r) := compile_all p g n cs' in ((l ++ ls)%list, r)
      end
  end.

(** The constraints one caller's constraint is encoded as (none when it
    does not compile). *)
Definition encoded (p : Q) (g : geometry) (n : nat) (c : string * string)
  : list tconstr :=
  match compile_one p g n c with Ok l => l | Raise _ => [] end.

(** The constraint compiles for [n] boxes: its kind is one of the ten, its
    text parses, and the boxes it names exist. *)
Definition compiles (n : nat) (c : string * string) : Prop :=
  In (fst c) kinds /\
  exists fact, parse_match (fst c) (snd c) = Ok fact /\
               Forall (fun box => box < Z.of_nat n) (boxes_of fact).

(** The texts the groups of a pattern capture from a sentence. *)
Definition fields (sen : sentence) : list string :=
  match sen with
  | Width b v | Height b v | Area b v => [b; v]
  | Position b1 side b2 => [b1; side; b2]
  | Ratio b c v => [b; c; v]
  | HorizontalAlign e1 b1 e2 b2 | VerticalAlign e1 b1 e2 b2 => [e1; b1; e2; b2]
  | Symmetry b1 b2 axis v => [b1; b2; axis; v]
  | Similarity b1 s b2 => [b1; s; b2]
  | Containment b px py => [b; px; py]
  end.

(** ** The call and its result *)

(** The outcome of a call on the contents of the list, seen as an outcome
    of the call on the list object. *)
Definition finished {A} (r : result A) : result (option A) :=
  match r with Ok a => Ok (Some a) | Raise e => Raise e end.

(** All the variables of the layout: [W], [H] and the four lists. *)
Definition handles (g : geometry) : list Var :=
  gW g :: gH g :: (gw g ++ gh g ++ gx g ++ gy g)%list.

(** Box [i] lies in the first quadrant, has non-negative sides and lies
    inside the bounding box. *)
Definition inside (a : Var -> Q) (g : geometry) (i : Z) : Prop :=
  (0 <= box_x a g i /\ 0 <= box_y a g i /\
   0 <= box_w a g i /\ 0 <= box_h a g i /\
   box_x a g i + box_w a g i <= a (gW g) /\
   box_y a g i + box_h a g i <= a (gH g))%Q.

(** A backend that finds every model infeasible. *)
Definition demo_infeasible (m : Model)
  : GRB.status * option (Q * (Var -> Q)) :=
  (GRB.INFEASIBLE, None).

(** What [solve] prints for a status that lets it go on. *)
Definition warning_for (st : GRB.status) : list string :=
  if GRB.status_eqb st GRB.OPTIMAL || GRB.status_eqb st GRB.INFEASIBLE
  then [] else ["Model is not optimal"].

(** Two unit boxes in a row, the second one pushed to the left by a
    negative padding [p]: box 0 at [x = 0], box 1 at [x = max(0, 1 + p)],
    box 0 declared to be on the left of box 1. *)
Definition squeezed (p : Q) (v : Var) : Q :=
  let x1 := if Qle_bool (1 + p) 0 then 0%Q else (1 + p)%Q in
  match var_id v with
  | 0%nat => (x1 + 1)%Q | 1%nat => 1%Q
  | 2%nat | 3%nat | 4%nat | 5%nat => 1%Q
  | 7%nat => x1
  | 10%nat => 1%Q
  | _ => 0%Q
  end.

(* ------------------------------------------------------------------ *)
(** ** The self-test of [floor.py]

    The block under [if __name__ == "__main__"]. *)

(** Its list [constraints]. *)
Definition main_constraints : list (string * string) :=
  [ ("area", "box 0 has area of at least 1");
    ("area", "box 1 has area of at least 1");
    ("area", "box 2 has area of at least 1");
    ("area", "box 3 has area of at least 1");
    ("area", "box 4 has area of at least 1");
    ("ratio", "box 0 has aspect ratio of at least 0.2");
    ("ratio", "box 1 has aspect ratio of at least 0.2");
    ("ratio", "box 2 has aspect ratio of at least 0.2");
    ("ratio", "box 3 has aspect ratio of at least 0.2");
    ("ratio", "box 4 has aspect ratio of at least 0.2");
    ("ratio", "box 0 has aspect ratio of at most 5");
    ("ratio", "box 1 has aspect ratio of at most 5");
    ("ratio", "box 2 has aspect ratio of at most 5");
    ("ratio", "box 3 has aspect ratio of at most 5");
    ("ratio", "box 4 has aspect ratio of at most 5") ].

(** The number of components of the tuple [solve] returns. *)
Definition bundle_size (b : bundle) : nat := 8.

(** [a1, ..., a7 = t]: unpacking into seven names. *)
Definition unpack7 (b : bundle) : M bundle :=
  if Nat.eqb (bundle_size b) 7 then ret b
  else if Nat.ltb 7 (bundle_size b)
       then raise (ValueError "too many values to unpack (expected 7)")
       else raise (ValueError "not enough values to unpack").

Section Main.
Variable backend : Model -> GRB.status * option (Q * (Var -> Q)).
(** Everything after the unpacking: the plot. *)
Variable visualize : bundle -> M unit.

(** The block under [if __name__ == "__main__"] of [floor.py]; [timeout]
    takes its default value. *)
Definition floor_main : M unit :=
  bind (solve backend 5 0.1 main_constraints 60) (fun r =>
  bind (unpack7 r) (fun t => visualize t)).
End Main.


(* ------------------------------------------------------------------ *)
(** ** [forms], and the window of [app_floor.py] *)

(** [forms]: the human-readable form of each kind of constraint. *)
Definition forms : list (string * string) :=
  [ ("width", "box [int] has width of [float]");
    ("height", "box [int] has height of [float]");
    ("position", "box [int] is to the [left|bottom] of box [int]");
    ("area", "box [int] has area of at least [float]");
    ("ratio", "box [int] has aspect ratio of [at least|at most] [float]");
    ("horizontal_align",
     "[top|center|bottom] of box [int] aligns horizontally with [top|center|bottom] of box [int]");
    ("vertical_align",
     "[left|center|right] of box [int] aligns vertically with [left|center|right] of box [int]");
    ("symmetry",
     "box [int] and box [int] are symmetric through axis [x|y]=[float]");
    ("similarity", "box [int] is [float]-scaled translate of box [int]");
    ("containment", "box [int] contains a point ([float],[float])") ].

(** [str(n)] for [n >= 0] *)
Definition str (n : nat) : string := NilZero.string_of_uint (Nat.to_uint n).

(** The handlers of the constraint list work on the module's list
    [constraints] (the list object of the world, which [solve] is later
    called on), on the option variable [type_var], on the entry
    [constraint_entry] and on the list box [constraint_list].  A list box
    is the list of its items, each with its selection flag; a popup is
    recorded by the exception whose text it shows. *)
Module App.

Record gui : Type := {
  sys : world;
  type_var : string;
  constraint_entry : string;
  constraint_list : list (string * bool);
  popups : list exn
}.

(** The module-level list of default constraints. *)
Definition constraints : list (string * string) :=
  [ ("area", "box 0 has area of at least 1");
    ("area", "box 1 has area of at least 2");
    ("area", "box 2 has area of at least 3");
    ("area", "box 3 has area of at least 4");
    ("area", "box 4 has area of at least 5");
    ("ratio", "box 0 has aspect ratio of at least 0.2");
    ("ratio", "box 1 has aspect ratio of at least 0.2");
    ("ratio", "box 2 has aspect ratio of at least 0.2");
    ("ratio", "box 3 has aspect ratio of at least 0.2");
    ("ratio", "box 4 has aspect ratio of at least 0.2");
    ("ratio", "box 0 has aspect ratio of at most 5");
    ("ratio", "box 1 has aspect ratio of at most 5");
    ("ratio", "box 2 has aspect ratio of at most 5");
    ("ratio", "box 3 has aspect ratio of at most 5");
    ("ratio", "box 4 has aspect ratio of at most 5") ].

(** [options = list(forms.keys())] *)
Definition options : list string := map fst forms.

(** ** The list box *)

(** [listbox.curselection()]: the indices of the selected items, in
    increasing order. *)
Fixpoint selected_from (k : nat) (items : list (string * bool)) : list nat :=
  match items with
  | [] => []
  | (_, true) :: items' => k :: selected_from (S k) items'
  | (_, false) :: items' => selected_from (S k) items'
  end.

Definition curselection (items : list (string * bool)) : list nat :=
  selected_from 0 items.

(** [listbox.insert(tk.END, c)] *)
Definition insert_end (items : list (string * bool)) (c : string)
  : list (string * bool) :=
  (items ++ [(c, false)])%list.

(** [listbox.select_set(i)] *)
Fixpoint select_set (items : list (string * bool)) (i : nat)
  : list (string * bool) :=
  match items, i with
  | [], _ => []
  | (c, _) :: items', O => (c, true) :: items'
  | x :: items', S i' => x :: select_set items' i'
  end.

(** The user changes the selection: item [k] is selected when [f k]. *)
Fixpoint set_selection (f : nat -> bool) (k : nat)
         (items : list (string * bool)) : list (string * bool) :=
  match items with
  | [] => []
  | (c, _) :: items' => (c, f k) :: set_selection f (S k) items'
  end.

(** ** The handlers *)

Definition set_sys (w : world) (a : gui) : gui :=
  {| sys := w; type_var := type_var a;
     constraint_entry := constraint_entry a;
     constraint_list := constraint_list a; popups := popups a |}.

Definition set_constraint_list (items : list (string * bool)) (a : gui)
  : gui :=
  {| sys := sys a; type_var := type_var a;
     constraint_entry := constraint_entry a;
     constraint_list := items; popups := popups a |}.

Definition set_constraint_entry (text : string) (a : gui) : gui :=
  {| sys := sys a; type_var := type_var a; constraint_entry := text;
     constraint_list := constraint_list a; popups := popups a |}.

Definition set_type_var (k : string) (a : gui) : gui :=
  {| sys := sys a; type_var := k; constraint_entry := constraint_entry a;
     constraint_list := constraint_list a; popups := popups a |}.

(** A statement on the module's globals and the console. *)
Definition sys_run {A} (c : M A) (a : gui) : result A * gui :=
  let '(r, w) := c (sys a) in (r, set_sys w a).

(** [create_error_popup(str(e))] *)
Definition create_error_popup (e : exn) (a : gui) : gui :=
  {| sys := sys a; type_var := type_var a;
     constraint_entry := constraint_entry a;
     constraint_list := constraint_list a;
     popups := (popups a ++ [e])%list |}.

(** [add_constraint()]: every exception of its body is caught. *)
Definition add_constraint (a : gui) : result unit * gui :=
  let constraint_type := type_var a in
  let constraint := constraint_entry a in
  match parse_match constraint_type constraint with
  | Raise e => (Ok tt, create_error_popup e a)
  | Ok _ =>
      match sys_run (constraints_append (constraint_type, constraint)) a with
      | (Raise e, a) => (Ok tt, create_error_popup e a)
      | (Ok _, a) =>
          (Ok tt,
           set_constraint_list (insert_end (constraint_list a) constraint) a)
      end
  end.

(** [remove_constraint()] *)
Definition remove_constraint (a : gui) : result unit * gui :=
  match curselection (constraint_list a) with
  | [] => (Ok tt, a)
  | i :: _ =>
      let '(_, a) := sys_run (print (str i)) a in
      match sys_run (constraints_pop i) a with
      | (Raise e, a) => (Raise e, a)
      | (Ok _, a) =>
          let a := set_constraint_list (delete (constraint_list a) i) a in
          let n := List.length (caller_constraints (sys a)) in
          if Nat.ltb 0 n
          then (Ok tt,
                set_constraint_list
                  (select_set (constraint_list a) (Nat.min i (n - 1))) a)
          else (Ok tt, a)
      end
  end.

(** [clear_constraints()] *)
Definition clear_constraints (a : gui) : result unit * gui :=
  let '(_, a) := sys_run constraints_clear a in
  (Ok tt, set_constraint_list [] a).

(** The option menu writes [type_var]; the second of the two traces on
    the variable then replaces the text of the entry by
    [forms[type_var.get()]] (the first one shows the same text in a
    read-only field). *)
Definition choose (k : string) (a : gui) : result unit * gui :=
  let a := set_type_var k a in
  match dict_get forms (type_var a) with
  | Raise e => (Raise e, a)
  | Ok form => (Ok tt, set_constraint_entry form a)
  end.

(** What the user can do to the widgets of the constraint list: pick an
    entry of the option menu, edit the text of the entry, change the
    selection of the list box, press Add, Remove or Clear All. *)
Inductive event : Type :=
| Choose (k : string)
| Edit (text : string)
| Select (f : nat -> bool)
| Add
| Remove
| Clear.

(** One turn of the main loop.  The option menu offers the [options]
    only. *)
Definition handle (ev : event) (a : gui) : result unit * gui :=
  match ev with
  | Choose k =>
      if existsb (String.eqb k) options then choose k a else (Ok tt, a)
  | Edit text => (Ok tt, set_constraint_entry text a)
  | Select f =>
      (Ok tt, set_constraint_list (set_selection f 0 (constraint_list a)) a)
  | Add => add_constraint a
  | Remove => remove_constraint a
  | Clear => clear_constraints a
  end.

(** The main loop: the events in turn; an exception that leaves a
    handler is reported, and the loop goes on. *)
Fixpoint run (evs : list event) (a : gui) : list exn * gui :=
  match evs with
  | [] => ([], a)
  | ev :: evs' =>
      let '(r, a') := handle ev a in
      let '(errs, a'') := run evs' a' in
      (match r with Ok _ => errs | Raise e => e :: errs end, a'')
  end.

(** The window as [create_main_window] leaves it when the main loop
    starts. *)
Definition initial : gui :=
  let type_var := hd "" options in
  {| sys := world0 constraints;
     type_var := type_var;
     constraint_entry :=
       match dict_get forms type_var with Ok f => f | Raise _ => "" end;
     constraint_list := map (fun c => (snd c, false)) constraints;
     popups := [] |}.

End App.

(** A constraint that [add_constraint] lets into the list. *)
Definition accepted (c : string * string) : Prop :=
  In (fst c) kinds /\ exists fact, parse_match (fst c) (snd c) = Ok fact.

(** What holds of the window between two events. *)
Definition in_sync (a : App.gui) : Prop :=
  map fst (App.constraint_list a) = map snd (caller_constraints (App.sys a)) /\
  In (App.type_var a) App.options /\
  Forall accepted (caller_constraints (App.sys a)).

(* ================================================================== *)
(** * Properties *)

(** ** Strings and the matcher *)

Lemma strip_prefix_app (l s : string) : strip_prefix l (l ++ s) = Some s.
Proof.
  induction l as [|a l IH]; simpl; [reflexivity|].
  rewrite Ascii.eqb_refl. exact IH.
Qed.

Lemma strip_prefix_sound (l s rest : string) :
  strip_prefix l s = Some rest -> s = (l ++ rest)%string.
Proof.
  revert s. induction l as [|a l IH]; simpl; intros s H.
  - congruence.
  - destruct s as [|b s]; [discriminate|].
    destruct (Ascii.eqb_spec a b) as [->|]; [|discriminate].
    f_equal. now apply IH.
Qed.

Lemma append_assoc (a b c : string) :
  ((a ++ b) ++ c = a ++ (b ++ c))%string.
Proof. induction a; simpl; congruence. Qed.

Lemma append_empty_r (a : string) : (a ++ "")%string = a.
Proof. induction a; simpl; congruence. Qed.

Section MatcherFacts.
Context {A : Type}.
Implicit Types k : string -> string -> option A.

(** A greedy repetition that can neither go further nor be refused by
    the rest of the pattern stops exactly after [run]. *)
Lemma plus_k_app cls (run rest : string) k r :
  is_empty run = false ->
  all_chars cls run = true ->
  plus_k cls rest (fun m r' => k (run ++ m)%string r') = None ->
  k run rest = Some r ->
  plus_k cls (run ++ rest) k = Some r.
Proof.
  revert k. induction run as [|c run IH]; intros k Hne Hall Hdeep Hk.
  - discriminate.
  - simpl in Hall. apply andb_prop in Hall as [Hc Hall].
    simpl. rewrite Hc.
    destruct run as [|c' run'].
    + simpl in *. rewrite Hdeep. exact Hk.
    + rewrite (IH (fun m r' => k (String c m) r')); auto.
Qed.

Lemma plus_k_all cls (run : string) k r :
  is_empty run = false ->
  all_chars cls run = true ->
  k run ""%string = Some r ->
  plus_k cls run k = Some r.
Proof.
  intros Hne Hall Hk.
  rewrite <- (append_empty_r run) at 1.
  apply plus_k_app; auto.
Qed.

(** Whatever the matcher finds is a split of the text into a member of
    the language and a rest that the continuation accepted. *)
Lemma plus_k_sound cls s k res :
  plus_k cls s k = Some res ->
  exists m rest, s = (m ++ rest)%string /\ is_empty m = false /\
                 all_chars cls m = true /\ k m rest = Some res.
Proof.
  revert k. induction s as [|c s IH]; simpl; intros k H; [discriminate|].
  destruct (cls c) eqn:Hc; [|discriminate].
  destruct (plus_k cls s (fun m rest => k (String c m) rest)) eqn:Hdeep.
  - injection H as ->.
    apply IH in Hdeep as (m & rest & -> & _ & Hall & Hk).
    exists (String c m), rest. simpl. rewrite Hc. auto.
  - exists (String c ""), s. simpl. rewrite Hc. auto.
Qed.

Lemma alt_k_sound alts s k res :
  alt_k alts s k = Some res ->
  exists a rest, s = (a ++ rest)%string /\ In a alts /\ k a rest = Some res.
Proof.
  induction alts as [|a alts IH]; simpl; intros H; [discriminate|].
  destruct (strip_prefix a s) as [rest|] eqn:Hp.
  - destruct (k a rest) eqn:Hk.
    + injection H as ->. apply strip_prefix_sound in Hp.
      exists a, rest. auto.
    + apply IH in H as (a' & rest' & ? & ? & ?). exists a', rest'. auto.
  - apply IH in H as (a' & rest' & ? & ? & ?). exists a', rest'. auto.
Qed.

Lemma match_k_sound r :
  forall s gs (k : string -> list string -> string -> option A) res,
    match_k r s gs k = Some res ->
    exists m caps rest,
      s = (m ++ rest)%string /\ matches r m caps /\
      k m (gs ++ caps)%list rest = Some res.
Proof.
  induction r as [l|cls|alts|r IH|r1 IH1 r2 IH2]; simpl; intros s gs k res H.
  - destruct (strip_prefix l s) as [rest|] eqn:Hp; [|discriminate].
    apply strip_prefix_sound in Hp.
    exists l, [], rest. rewrite app_nil_r. repeat split; auto. constructor.
  - apply plus_k_sound in H as (m & rest & ? & ? & ? & ?).
    exists m, [], rest. rewrite app_nil_r. repeat split; auto.
    now constructor.
  - apply alt_k_sound in H as (a & rest & ? & ? & ?).
    exists a, [], rest. rewrite app_nil_r. repeat split; auto.
    now constructor.
  - apply IH in H as (m & caps & rest & ? & ? & ?).
    exists m, (caps ++ [m])%list, rest. rewrite app_assoc.
    repeat split; auto. now constructor.
  - apply IH1 in H as (m1 & caps1 & rest1 & -> & ? & H).
    apply IH2 in H as (m2 & caps2 & rest2 & -> & ? & H).
    exists (m1 ++ m2)%string, (caps1 ++ caps2)%list, rest2.
    rewrite append_assoc, app_assoc. repeat split; auto. now constructor.
Qed.
End MatcherFacts.

(** [re.match] succeeds only when a prefix of the text is in the language
    of the pattern, and then returns its captures. *)
Lemma re_match_sound r s groups :
  re_match r s = Some groups ->
  exists m rest, s = (m ++ rest)%string /\ matches r m groups.
Proof.
  unfold re_match. intros H.
  apply match_k_sound in H as (m & caps & rest & ? & ? & H).
  simpl in H. injection H as <-. eauto.
Qed.

Lemma int_acc_nonneg (s : string) :
  forall acc, all_chars is_digit s = true -> 0 <= acc -> 0 <= int_acc s acc.
Proof.
  induction s as [|c s IH]; cbn [int_acc all_chars]; intros acc H Hacc;
    [exact Hacc|].
  apply andb_prop in H as [Hc H]. apply IH; [exact H|].
  unfold is_digit in Hc. apply andb_prop in Hc as [Hlo _].
  apply N.leb_le in Hlo. unfold digit_val. lia.
Qed.

Lemma int_of_text (s : string) :
  int_text s = true -> int s = Ok (box_number s).
Proof. unfold int_text, int. now intros ->. Qed.

Lemma box_number_nonneg (s : string) : int_text s = true -> 0 <= box_number s.
Proof.
  unfold int_text. intros H. apply andb_prop in H as [_ H].
  apply int_acc_nonneg; [exact H | lia].
Qed.

Lemma int_text_inv (s : string) :
  int_text s = true -> is_empty s = false /\ all_chars d s = true.
Proof.
  unfold int_text. intros H. apply andb_prop in H as [H1 H2].
  split; [now apply negb_true_iff | exact H2].
Qed.

Lemma float_text_inv (s : string) :
  float_text s = true -> is_empty s = false /\ all_chars float_chars s = true.
Proof.
  unfold float_text. intros H. apply andb_prop in H as [H1 H2].
  split; [now apply negb_true_iff | exact H2].
Qed.

Lemma one_of_inv alts (s : string) : one_of alts s = true -> In s alts.
Proof.
  unfold one_of. intros H. apply existsb_exists in H as (a & Hin & Heq).
  apply String.eqb_eq in Heq. now subst.
Qed.

Lemma int_text_intro (s : string) :
  is_empty s = false -> all_chars d s = true -> int_text s = true.
Proof. unfold int_text, d. now intros -> ->. Qed.

Lemma float_text_intro (s : string) :
  is_empty s = false -> all_chars float_chars s = true -> float_text s = true.
Proof. unfold float_text. now intros -> ->. Qed.

Lemma one_of_intro alts (s : string) : In s alts -> one_of alts s = true.
Proof.
  unfold one_of. intros H. apply existsb_exists. exists s.
  split; [exact H | apply String.eqb_refl].
Qed.

Lemma first_success {A} (x y : option A) r :
  x = Some r -> match x with Some r' => Some r' | None => y end = Some r.
Proof. now intros ->. Qed.

Lemma dict_get_missing {V} (dict : list (string * V)) (key : string) :
  ~ In key (map fst dict) -> dict_get dict key = Raise (KeyError key).
Proof.
  induction dict as [|[k v] dict IH]; simpl; intros H; [reflexivity|].
  destruct (String.eqb_spec k key) as [->|_]; [tauto|].
  apply IH. tauto.
Qed.

(** ** The parser on the sentences of the language *)

(** Splits [well_formed sen = true] into facts about the fields. *)
Ltac split_wf :=
  repeat match goal with
  | H : _ && _ = true |- _ => apply andb_prop in H as [? ?]
  end;
  repeat match goal with
  | H : int_text ?b = true |- _ =>
      pose proof (int_of_text _ H); apply int_text_inv in H as [? ?]
  | H : float_text _ = true |- _ => apply float_text_inv in H as [? ?]
  | H : one_of _ _ = true |- _ => apply one_of_inv in H; simpl in H
  end;
  repeat match goal with
  | H : _ \/ _ |- _ => destruct H as [H|H]
  | H : False |- _ => destruct H
  end;
  subst.

(** Runs the matcher on a rendered sentence: literals and keywords by
    computation, each repetition by [plus_k_app] or [plus_k_all]. *)
Ltac match_steps :=
  repeat first
    [ progress simpl
    | apply plus_k_app; [assumption | assumption | reflexivity | ]
    | apply plus_k_all; [assumption | assumption | ]
    | apply first_success ];
  reflexivity.

Ltac find_match :=
  match goal with
  | |- context [re_match ?p ?t] =>
      let g := fresh "g" in
      let H := fresh "Hmatch" in
      evar (g : list string);
      assert (H : re_match p t = Some g);
      [ subst g; unfold re_match, INT, FLOAT, ONEOF; match_steps
      | subst g; rewrite H; clear H ]
  end.

Ltac invert_matches :=
  repeat match goal with
  | H : matches (Seq _ _) _ _ |- _ => inversion H; subst; clear H
  | H : matches (Group _) _ _ |- _ => inversion H; subst; clear H
  | H : matches (Lit _) _ _ |- _ => inversion H; subst; clear H
  | H : matches (Plus _) _ _ |- _ => inversion H; subst; clear H
  | H : matches (Alt _) _ _ |- _ => inversion H; subst; clear H
  | H : matches INT _ _ |- _ => unfold INT in H
  | H : matches FLOAT _ _ |- _ => unfold FLOAT in H
  | H : matches (ONEOF _) _ _ |- _ => unfold ONEOF in H
  end.

(** Reads the shape of a fact off [fact_of sen = Ok fact]. *)
Ltac fact_shape :=
  repeat match goal with
  | H : fact_of _ = Ok _ |- _ => cbn [fact_of] in H
  | H : rbind (float ?v) _ = Ok _ |- _ =>
      destruct (float v); cbn [rbind] in H; [|discriminate H]
  | H : Ok _ = Ok _ |- _ => injection H as <-
  end.

(** Whenever [parse_match] returns a fact, a prefix of the lower-cased text
    is a well-formed sentence of the kind, and the fact is the one that
    sentence stands for. *)
Lemma parse_match_inv kind text fact :
  parse_match kind text = Ok fact ->
  exists sen tail,
    well_formed sen = true /\ kind_of sen = lower kind /\
    lower text = (render sen ++ tail)%string /\ fact_of sen = Ok fact.
Proof.
  unfold parse_match. intros H.
  destruct (dict_get patterns (lower kind)) as [pat|] eqn:Hpat; [|discriminate].
  cbn [rbind] in H.
  destruct (re_match pat (lower text)) as [groups|] eqn:Hm; [|discriminate].
  apply re_match_sound in Hm as (m & tail & Htext & Hm).
  cbn [dict_get patterns] in Hpat.
  repeat match type of Hpat with
  | (if String.eqb ?a ?b then _ else _) = _ =>
      let Hk := fresh "Hk" in
      destruct (String.eqb_spec a b) as [Hk|Hk] in Hpat;
      [ injection Hpat as <-; rewrite <- Hk in H |]
  end.
  11: discriminate.
  all: invert_matches.
  all: repeat match goal with
       | H1 : is_empty ?s = false, H2 : all_chars d ?s = true |- _ =>
           pose proof (int_of_text s (int_text_intro s H1 H2));
           pose proof (int_text_intro s H1 H2); clear H1 H2
       | H1 : is_empty ?s = false, H2 : all_chars float_chars ?s = true |- _ =>
           pose proof (float_text_intro s H1 H2); clear H1 H2
       | H1 : In _ _ |- _ => apply one_of_intro in H1
       end.
  all: cbn [app item nth_error rbind String.eqb Ascii.eqb Bool.eqb] in H.
  all: repeat match goal with
       | Hi : int _ = Ok _ |- _ => rewrite Hi in H; clear Hi
       end.
  all: cbn [rbind] in H.
  all: [> eexists (Width _ _) | eexists (Height _ _)
          | eexists (Position _ _ _) | eexists (Area _ _)
          | eexists (Ratio _ _ _) | eexists (HorizontalAlign _ _ _ _)
          | eexists (VerticalAlign _ _ _ _) | eexists (Symmetry _ _ _ _)
          | eexists (Similarity _ _ _) | eexists (Containment _ _ _) ].
  all: eexists; refine (conj _ (conj _ (conj Htext H))); [|now symmetry].
  all: cbn [well_formed];
       repeat match goal with Hi : _ = true |- _ => rewrite Hi; clear Hi end;
       reflexivity.
Qed.

(** The whole of a well-formed sentence matches the pattern of its kind. *)
Lemma fullmatch_complete sen :
  well_formed sen = true ->
  exists pat groups,
    dict_get patterns (kind_of sen) = Ok pat /\
    re_fullmatch pat (render sen) = Some groups.
Proof.
  intros Hwf.
  destruct sen; cbn [well_formed] in Hwf; split_wf;
    cbn [kind_of render dict_get patterns String.eqb Ascii.eqb Bool.eqb];
    eexists; eexists; (split; [reflexivity|]);
    unfold re_fullmatch, INT, FLOAT, ONEOF; match_steps.
Qed.

(** When no prefix of the text matches the pattern of a recognised kind,
    [parse_match] raises [Exception("Invalid constraint")]. *)
Lemma parse_match_no_match kind text pat :
  dict_get patterns (lower kind) = Ok pat ->
  re_match pat (lower text) = None ->
  parse_match kind text = Raise invalid_constraint.
Proof. unfold parse_match. intros ->. cbn [rbind]. now intros ->. Qed.

(** C4 (as amended).  For each of the ten kinds: when the text is, up to
    case, a sentence of the grammar of section 6 for that kind, [parse_match]
    returns the fact the sentence stands for, box fields as non-negative
    integers and keyword fields in lower case, provided every [<float>]
    field is a literal that [float] accepts; when one is not, the call
    raises the [ValueError] of [float] instead of returning a fact. *)
Theorem parse_match_sentence sen kind text :
  well_formed sen = true -> lower kind = kind_of sen ->
  lower text = render sen ->
  parse_match kind text = fact_of sen /\
  (forall fact, fact_of sen = Ok fact ->
                Forall (fun box => 0 <= box) (boxes_of fact)) /\
  (forall e, fact_of sen = Raise e -> e = float_error).
Proof.
  intros Hwf Hk Ht. split; [|split].
  - unfold parse_match. rewrite Hk, Ht. clear Hk Ht.
    destruct sen; cbn [well_formed] in Hwf; split_wf;
      cbn [kind_of render dict_get patterns String.eqb Ascii.eqb Bool.eqb
           rbind];
      find_match;
      cbn [item nth_error rbind fact_of];
      repeat match goal with H : int _ = Ok _ |- _ => rewrite H; clear H end;
      cbn [rbind]; reflexivity.
  - intros fact Hfact.
    destruct sen; cbn [well_formed] in Hwf; split_wf; fact_shape;
      cbn [boxes_of flat_map app];
      repeat constructor; apply box_number_nonneg; now apply int_text_intro.
  - intros e He.
    destruct sen; cbn [fact_of] in He; try discriminate He;
      repeat match type of He with
      | rbind (float ?v) _ = Raise _ =>
          let E := fresh "E" in
          destruct (float v) eqn:E; cbn [rbind] in He;
          [|unfold float in E;
            repeat match type of E with
            | context [let '(_, _) := ?x in _] => destruct x
            | context [if ?b then _ else _] => destruct b
            | context [match ?x with _ => _ end] => destruct x
            end; congruence]
      end; discriminate He.
Qed.

Lemma parse_match_sentence_witness :
  parse_match "Similarity" "Box 1 is -2.5E-3-scaled translate of BOX 30"
  = fact_of (Similarity "1" "-2.5e-3" "30")
  /\ fact_of (Similarity "1" "-2.5e-3" "30")
     = Ok [PInt 1; PFloat (-0.0025)%Q; PInt 30].
Proof.
  split.
  - apply (parse_match_sentence (Similarity "1" "-2.5e-3" "30")
             "Similarity" "Box 1 is -2.5E-3-scaled translate of BOX 30");
      reflexivity.
  - reflexivity.
Defined.

(** C4, as stated, fails: ["box 0 has width of e"] is a sentence of the
    grammar of section 6 ([e] is an instance of [[-+e\d.]+]), and
    [parse_match] raises on it. *)
Lemma parse_match_grammar_counterexample :
  well_formed (Width "0" "e") = true
  /\ render (Width "0" "e") = "box 0 has width of e"
  /\ parse_match "width" "box 0 has width of e" = Raise float_error.
Proof. repeat split. Qed.

(** C5.  [re.match] anchors only the start of the text, so a sentence
    followed by arbitrary text is accepted although the text as a whole is
    not in the grammar of its kind. *)
Theorem parse_match_accepts_trailing_text :
  ~ in_grammar "width" "box 0 has width of 5 metres"
  /\ parse_match "width" "box 0 has width of 5 metres"
     = Ok [PInt 0; PFloat 5%Q].
Proof.
  split; [|reflexivity].
  intros (sen & Hwf & Hk & Ht).
  destruct (fullmatch_complete sen Hwf) as (pat & groups & Hpat & Hfull).
  rewrite Hk in Hpat. rewrite Ht in Hfull.
  injection Hpat as <-. vm_compute in Hfull. discriminate.
Qed.

(** ** The builder *)

Lemma add_vars_app a b s : add_vars b (add_vars a s) = add_vars (a ++ b) s.
Proof.
  unfold add_vars, upd_model, set_vars. simpl. now rewrite app_assoc.
Qed.

Lemma add_constrs_app a b s :
  add_constrs b (add_constrs a s) = add_constrs (a ++ b) s.
Proof.
  unfold add_constrs, upd_model, set_constrs. simpl. now rewrite app_assoc.
Qed.

Lemma add_constrs_nil s : add_constrs [] s = s.
Proof.
  unfold add_constrs, upd_model, set_constrs. rewrite app_nil_r.
  destruct s as [[] ? ? ?]. reflexivity.
Qed.

Lemma add_vars_nil s : add_vars [] s = s.
Proof.
  unfold add_vars, upd_model, set_vars. rewrite app_nil_r.
  destruct s as [[] ? ? ?]. reflexivity.
Qed.

Lemma add_vars_constrs_comm v c s :
  add_vars v (add_constrs c s) = add_constrs c (add_vars v s).
Proof. reflexivity. Qed.

Lemma vars_add_vars v s :
  vars (model (add_vars v s)) = (vars (model s) ++ v)%list.
Proof. reflexivity. Qed.

Lemma vars_add_constrs c s : vars (model (add_constrs c s)) = vars (model s).
Proof. reflexivity. Qed.

Lemma addVar_run vt s :
  addVar vt s = (Ok (mkVar (List.length (vars (model s)))),
                 add_vars [{| lb := 0; vtype := vt |}] s).
Proof. reflexivity. Qed.

Lemma addConstr_run c s : addConstr c s = (Ok tt, add_constrs [c] s).
Proof. reflexivity. Qed.

Lemma bind_run {A B} (c : M A) (k : A -> M B) s a s' :
  c s = (Ok a, s') -> bind c k s = k a s'.
Proof. unfold bind. now intros ->. Qed.

Lemma comprehension_addVar {V} (l : list V) vt : forall s,
  comprehension l (fun _ => addVar vt) s
  = (Ok (block (List.length (vars (model s))) (List.length l)),
     add_vars (repeat {| lb := 0; vtype := vt |} (List.length l)) s).
Proof.
  induction l as [|a l IH]; intros s.
  - simpl. now rewrite add_vars_nil.
  - cbn [comprehension]. rewrite (bind_run _ _ _ _ _ (addVar_run vt s)).
    rewrite (bind_run _ _ _ _ _ (IH _)). unfold ret.
    rewrite add_vars_app, vars_add_vars, length_app. simpl.
    now rewrite Nat.add_1_r.
Qed.

Lemma range_length a b : List.length (range a b) = Z.to_nat (b - a).
Proof. unfold range. now rewrite length_map, length_seq. Qed.

Lemma in_range a b i : In i (range a b) <-> a <= i < b.
Proof.
  unfold range. rewrite in_map_iff. split.
  - intros (k & <- & Hk). apply in_seq in Hk. lia.
  - intros H. exists (Z.to_nat (i - a)). split; [lia|]. apply in_seq. lia.
Qed.

Lemma getitem_at (l : list Var) (i : Z) s :
  0 <= i < Z.of_nat (List.length l) -> getitem l i s = (Ok (at_ l i), s).
Proof.
  intros H. unfold getitem, at_.
  destruct (Z.ltb_spec i 0); [lia|].
  destruct (Z.leb_spec 0 i); [|lia].
  destruct (Z.ltb_spec i (Z.of_nat (List.length l))); [|lia]. simpl.
  rewrite (nth_error_nth' l (mkVar 0)) by lia. reflexivity.
Qed.

Lemma for_run {V} (body : V -> M unit) (f : V -> world -> world) :
  forall l s,
    (forall a s', In a l -> body a s' = (Ok tt, f a s')) ->
    for_ l body s = (Ok tt, fold_left (fun s' a => f a s') l s).
Proof.
  induction l as [|a l IH]; intros s H; [reflexivity|].
  cbn [for_ fold_left].
  rewrite (bind_run _ _ _ _ _ (H a s (or_introl eq_refl))).
  apply IH. intros a' s' Hin. apply H. now right.
Qed.

Lemma for_flat_map {U V} (f : U -> list V) (body : V -> M unit) :
  forall l s, for_ (flat_map f l) body s = for_ l (fun a => for_ (f a) body) s.
Proof.
  assert (Happ : forall l1 l2 s,
             for_ (l1 ++ l2) body s = bind (for_ l1 body) (fun _ => for_ l2 body) s).
  { induction l1 as [|a l1 IH]; intros l2 s; [reflexivity|].
    cbn [app for_]. unfold bind.
    destruct (body a s) as [[[]|e] s1]; [|reflexivity].
    rewrite IH. reflexivity. }
  induction l as [|a l IH]; intros s; [reflexivity|].
  cbn [flat_map for_]. rewrite Happ. unfold bind.
  destruct (for_ (f a) body s) as [[[]|e] s1]; [apply IH|reflexivity].
Qed.

Lemma for_map {U V} (f : U -> V) (body : V -> M unit) :
  forall l s, for_ (map f l) body s = for_ l (fun a => body (f a)) s.
Proof.
  induction l as [|a l IH]; intros s; [reflexivity|].
  cbn [map for_]. unfold bind. destruct (body (f a) s) as [[[]|e] s1]; auto.
Qed.

Lemma sized_geometry_of n : sized n (geometry_of n).
Proof.
  unfold sized, geometry_of, block. simpl.
  now rewrite !length_map, !length_seq.
Qed.

Lemma add_variables_run N s :
  vars (model s) = [] ->
  add_variables N s
  = (Ok (geometry_of (Z.to_nat N)),
     add_vars (repeat continuous (2 + 4 * Z.to_nat N)) s).
Proof.
  intros Hnil. unfold add_variables.
  rewrite (bind_run _ _ _ _ _ (addVar_run _ _)).
  rewrite (bind_run _ _ _ _ _ (addVar_run _ _)).
  rewrite (bind_run _ _ _ _ _ (comprehension_addVar _ _ _)).
  rewrite (bind_run _ _ _ _ _ (comprehension_addVar _ _ _)).
  rewrite (bind_run _ _ _ _ _ (comprehension_addVar _ _ _)).
  rewrite (bind_run _ _ _ _ _ (comprehension_addVar _ _ _)).
  unfold ret. rewrite !add_vars_app, !vars_add_vars, !length_app, Hnil.
  rewrite !repeat_length, !range_length, Z.sub_0_r.
  set (n := Z.to_nat N). cbn [List.length app].
  f_equal.
  - unfold geometry_of. do 2 f_equal; try reflexivity; f_equal; lia.
  - f_equal. fold continuous.
    change (continuous :: continuous :: ?l) with (repeat continuous 2 ++ l)%list.
    rewrite <- !repeat_app. f_equal. lia.
Qed.

Lemma fold_add_constrs {V} (F : V -> list tconstr) : forall l s,
  fold_left (fun s' a => add_constrs (F a) s') l s
  = add_constrs (flat_map F l) s.
Proof.
  induction l as [|a l IH]; intros s; simpl.
  - now rewrite add_constrs_nil.
  - now rewrite IH, add_constrs_app.
Qed.

Lemma getitems g n i :
  sized n g -> (0 <= i < Z.of_nat n)%Z ->
  forall s,
    getitem (gw g) i s = (Ok (at_ (gw g) i), s) /\
    getitem (gh g) i s = (Ok (at_ (gh g) i), s) /\
    getitem (gx g) i s = (Ok (at_ (gx g) i), s) /\
    getitem (gy g) i s = (Ok (at_ (gy g) i), s).
Proof.
  intros (Hw & Hh & Hx & Hy) Hi s.
  repeat split; apply getitem_at; lia.
Qed.

(** Runs a straight-line block of getitem, addVar and addConstr calls. *)
Ltac run_block G :=
  repeat first
    [ rewrite (bind_run _ _ _ _ _ (addVar_run _ _))
    | rewrite (bind_run _ _ _ _ _ (addConstr_run _ _))
    | rewrite (bind_run _ _ _ _ _ (proj1 (G _)))
    | rewrite (bind_run _ _ _ _ _ (proj1 (proj2 (G _))))
    | rewrite (bind_run _ _ _ _ _ (proj1 (proj2 (proj2 (G _)))))
    | rewrite (bind_run _ _ _ _ _ (proj2 (proj2 (proj2 (G _))))) ].

Lemma bounding_box_constraints_run N g s :
  sized (Z.to_nat N) g ->
  bounding_box_constraints N g s
  = (Ok tt, add_constrs (flat_map (bounding_of g) (range 0 N)) s).
Proof.
  intros Hg. unfold bounding_box_constraints.
  rewrite (for_run _ (fun i => add_constrs (bounding_of g i))).
  - now rewrite fold_add_constrs.
  - intros i s' Hi. apply in_range in Hi.
    pose proof (getitems g _ i Hg ltac:(lia)) as G.
    run_block G.
    rewrite addConstr_run, add_constrs_app. reflexivity.
Qed.

Lemma separate_run p g n i j s :
  sized n g -> (0 <= i < Z.of_nat n)%Z -> (0 <= j < Z.of_nat n)%Z ->
  separate p g i j s
  = (Ok tt,
     add_constrs (pair_constraints_at p g (List.length (vars (model s)))
                    (O, (i, j)))
       (add_vars (repeat binary 4) s)).
Proof.
  intros Hg Hi Hj. unfold separate.
  pose proof (getitems g _ i Hg Hi) as Gi.
  pose proof (getitems g _ j Hg Hj) as Gj.
  repeat first [ progress (run_block Gi) | progress (run_block Gj) ].
  rewrite addConstr_run.
  rewrite !add_constrs_app, !add_vars_app, !vars_add_vars, !length_app.
  cbn [List.length app]. unfold pair_constraints_at, pair_constraints.
  cbn [fst snd]. rewrite !Nat.add_0_r, <- !Nat.add_assoc. reflexivity.
Qed.

Lemma for_ext {V} (b1 b2 : V -> M unit) : forall l s,
  (forall a s', In a l -> b1 a s' = b2 a s') -> for_ l b1 s = for_ l b2 s.
Proof.
  induction l as [|a l IH]; intros s H; [reflexivity|].
  cbn [for_]. unfold bind. rewrite (H a s (or_introl eq_refl)).
  destruct (b2 a s) as [[[]|e] s1]; [|reflexivity].
  apply IH. intros a' s' Hin. apply H. now right.
Qed.

Lemma in_pairs N i j : In (i, j) (pairs N) <-> (0 <= i /\ i < j /\ j < N)%Z.
Proof.
  unfold pairs. rewrite in_flat_map. split.
  - intros (i' & Hi & Hin). apply in_range in Hi.
    apply in_map_iff in Hin as (j' & [= <- <-] & Hj). apply in_range in Hj. lia.
  - intros H. exists i. split; [apply in_range; lia|].
    apply in_map_iff. exists j. split; [reflexivity|apply in_range; lia].
Qed.

Lemma NoDup_range a b : NoDup (range a b).
Proof.
  unfold range. apply NoDup_map_NoDup_ForallPairs; [|apply seq_NoDup].
  intros x y _ _ H. lia.
Qed.

Lemma NoDup_pairs N : NoDup (pairs N).
Proof.
  unfold pairs. generalize (NoDup_range 0 N).
  induction (range 0 N) as [|i l IH]; intros Hnd; [constructor|].
  inversion Hnd as [|? ? Hi Hl]; subst. cbn [flat_map].
  apply NoDup_app.
  - apply NoDup_map_NoDup_ForallPairs; [|apply NoDup_range].
    intros x y _ _ [= ->]. reflexivity.
  - now apply IH.
  - intros [i' j'] Hin1 Hin2.
    apply in_map_iff in Hin1 as (? & [= <- <-] & _).
    apply in_flat_map in Hin2 as (i2 & Hi2 & Hin2).
    apply in_map_iff in Hin2 as (? & [= <- <-] & _). contradiction.
Qed.

Lemma index_of_head a l : index_of a (a :: l) = O.
Proof. simpl. now rewrite !Z.eqb_refl. Qed.

Lemma index_of_tail x a l : x <> a -> index_of x (a :: l) = S (index_of x l).
Proof.
  intros H. simpl.
  destruct (Z.eqb_spec (fst x) (fst a)); [|reflexivity].
  destruct (Z.eqb_spec (snd x) (snd a)); [|reflexivity].
  destruct x, a. simpl in *. congruence.
Qed.

Lemma relative_positioning_constraints_as_pairs N p g s :
  relative_positioning_constraints N p g s
  = for_ (pairs N) (fun ij => separate p g (fst ij) (snd ij)) s.
Proof.
  unfold relative_positioning_constraints, pairs.
  rewrite for_flat_map. apply for_ext. intros i s' _.
  now rewrite for_map.
Qed.

Lemma fold_pairs p g base : forall ps k0 s,
  List.length (vars (model s)) = (base + 4 * k0)%nat ->
  fold_left
    (fun s' ij =>
       add_constrs
         (pair_constraints_at p g (List.length (vars (model s'))) (O, ij))
         (add_vars (repeat binary 4) s')) ps s
  = add_constrs
      (flat_map (pair_constraints_at p g base)
         (combine (seq k0 (List.length ps)) ps))
      (add_vars (repeat binary (4 * List.length ps)) s).
Proof.
  induction ps as [|ij ps IH]; intros k0 s Hlen.
  - cbn. now rewrite add_vars_nil, add_constrs_nil.
  - cbn [fold_left List.length seq combine flat_map].
    rewrite (IH (S k0)).
    + rewrite add_vars_constrs_comm, add_constrs_app, add_vars_app.
      rewrite <- repeat_app. rewrite Hlen.
      replace (4 + 4 * List.length ps)%nat with (4 * S (List.length ps))%nat by lia.
      f_equal. f_equal. unfold pair_constraints_at. cbn [fst snd].
      now rewrite Nat.mul_0_r, Nat.add_0_r.
    + rewrite vars_add_constrs, vars_add_vars, length_app, repeat_length. lia.
Qed.

Lemma flat_map_ext_in {U V} (f1 f2 : U -> list V) : forall l,
  (forall a, In a l -> f1 a = f2 a) -> flat_map f1 l = flat_map f2 l.
Proof.
  induction l as [|a l IH]; intros H; [reflexivity|].
  cbn [flat_map]. rewrite (H a (or_introl eq_refl)). f_equal.
  apply IH. intros a' Hin. apply H. now right.
Qed.

Lemma enumerate_index p g base : forall ps k0,
  NoDup ps ->
  flat_map (pair_constraints_at p g base) (combine (seq k0 (List.length ps)) ps)
  = flat_map (fun ij => pair_constraints_at p g base
                          ((k0 + index_of ij ps)%nat, ij)) ps.
Proof.
  induction ps as [|a ps IH]; intros k0 Hnd; [reflexivity|].
  inversion Hnd as [|? ? Ha Hps]; subst.
  cbn [List.length seq combine flat_map].
  rewrite index_of_head, Nat.add_0_r. f_equal.
  rewrite (IH (S k0) Hps). apply flat_map_ext_in. intros ij Hin.
  rewrite index_of_tail by (intros ->; contradiction).
  now rewrite Nat.add_succ_r.
Qed.

Lemma pair_constraints_of_at N p g ij :
  pair_constraints_of N p g ij
  = pair_constraints_at p g (2 + 4 * Z.to_nat N) (index_of ij (pairs N), ij).
Proof.
  unfold pair_constraints_of, indicators, pair_constraints_at, indicator_base.
  destruct ij as [i j]. reflexivity.
Qed.

Lemma relative_positioning_constraints_run N p g s :
  sized (Z.to_nat N) g ->
  List.length (vars (model s)) = (2 + 4 * Z.to_nat N)%nat ->
  relative_positioning_constraints N p g s
  = (Ok tt,
     add_constrs (flat_map (pair_constraints_of N p g) (pairs N))
       (add_vars (repeat binary (4 * List.length (pairs N))) s)).
Proof.
  intros Hg Hlen. rewrite relative_positioning_constraints_as_pairs.
  rewrite (for_run _ (fun ij s' =>
    add_constrs
      (pair_constraints_at p g (List.length (vars (model s'))) (O, ij))
      (add_vars (repeat binary 4) s'))).
  - rewrite (fold_pairs p g (2 + 4 * Z.to_nat N) _ O) by lia.
    rewrite enumerate_index by apply NoDup_pairs.
    f_equal. f_equal. apply flat_map_ext_in. intros ij _.
    now rewrite pair_constraints_of_at.
  - intros [i j] s' Hin. apply in_pairs in Hin. cbn [fst snd].
    apply (separate_run p g (Z.to_nat N)); [exact Hg|lia|lia].
Qed.

(** The model [build_model] leaves behind is the one the specification
    describes, and the handles it returns are laid out as [geometry_of]. *)
Lemma build_model_run N p timeout s :
  build_model N p timeout s
  = (Ok (geometry_of (Z.to_nat N)),
     upd_model (fun _ => spec_model N p timeout) s).
Proof.
  unfold build_model.
  erewrite bind_run by reflexivity.
  erewrite bind_run by reflexivity.
  erewrite bind_run by (apply add_variables_run; reflexivity).
  erewrite bind_run by reflexivity.
  erewrite bind_run
    by (apply bounding_box_constraints_run, sized_geometry_of).
  erewrite bind_run.
  - reflexivity.
  - rewrite relative_positioning_constraints_run.
    + reflexivity.
    + apply sized_geometry_of.
    + cbn. now rewrite repeat_length.
Qed.

Lemma index_of_lt x : forall l, In x l -> (index_of x l < List.length l)%nat.
Proof.
  induction l as [|a l IH]; intros H; [destruct H|].
  simpl. destruct (Z.eqb (fst x) (fst a) && Z.eqb (snd x) (snd a)) eqn:E.
  - lia.
  - destruct H as [->|H].
    + rewrite !Z.eqb_refl in E. discriminate.
    + specialize (IH H). lia.
Qed.

Lemma index_of_inj x y : forall l,
  In x l -> In y l -> index_of x l = index_of y l -> x = y.
Proof.
  induction l as [|a l IH]; intros Hx Hy; [destruct Hx|].
  destruct x as [x1 x2], y as [y1 y2], a as [a1 a2]. simpl.
  destruct (Z.eqb_spec x1 a1), (Z.eqb_spec x2 a2),
           (Z.eqb_spec y1 a1), (Z.eqb_spec y2 a2);
    simpl; try congruence;
    intros [= E]; apply IH; auto;
    try (destruct Hx as [Hx|Hx]; [congruence|exact Hx]);
    try (destruct Hy as [Hy|Hy]; [congruence|exact Hy]).
Qed.

(** The indicators of a pair in the specified model: four distinct binary
    variables past the geometry, and the seven constraints over them. *)
Lemma spec_model_pair N p timeout i j :
  0 <= i /\ i < j /\ j < N ->
  let g := geometry_of (Z.to_nat N) in
  let m := spec_model N p timeout in
  let '(l, r, b, t) := indicators N i j in
  NoDup [l; r; b; t] /\
  Forall (fun v => nth_error (vars m) (var_id v) = Some binary
                   /\ (2 + 4 * Z.to_nat N <= var_id v)%nat)
         [l; r; b; t] /\
  Forall (fun c => In c (constrs m)) (pair_constraints p g i j l r b t).
Proof.
  intros Hij g m.
  assert (Hin : In (i, j) (pairs N)) by now apply in_pairs.
  pose proof (index_of_lt _ _ Hin) as Hlt.
  unfold indicators, indicator_base in *.
  set (k := index_of (i, j) (pairs N)) in *.
  split; [|split].
  - repeat constructor; cbn; intros H;
      repeat (destruct H as [[= H]|H]; [lia|]); exact H.
  - repeat (apply Forall_cons; [split|]); try apply Forall_nil;
      cbn [var_id vars m spec_model]; try lia;
      (rewrite nth_error_app2; rewrite repeat_length; [|lia]);
      apply nth_error_repeat; lia.
  - apply Forall_forall. intros c Hc. cbn [constrs m spec_model].
    apply in_or_app. right.
    apply in_flat_map. exists (i, j). split; [exact Hin|exact Hc].
Qed.

(** C2.  For every [N] and [p], the model [solve] builds before it compiles
    the caller's constraints has the objective [minimize 2*(W+H)]; contains,
    for every box [i] in [0, N), the bounding constraints
    [x_i + w_i <= W] and [y_i + h_i <= H]; and for every pair [i < j] has
    four binary variables [l], [r], [b], [t] of its own, created after the
    geometry variables and shared with no other pair, over which it
    contains the four indicator implications and [l+r <= 1], [b+t <= 1],
    [l+r+b+t >= 1].  These are exactly its constraints, and its variables
    are the [2+4N] continuous ones followed by four binary ones per pair. *)
Theorem build_model_spec N p timeout s :
  let g := geometry_of (Z.to_nat N) in
  exists s',
    build_model N p timeout s = (Ok g, s') /\
    objective (model s') = Some ((2%Q * (gW g + gH g))%E, GRB.MINIMIZE) /\
    (forall i, 0 <= i < N ->
       In (at_ (gx g) i + at_ (gw g) i <= gW g)%E (constrs (model s')) /\
       In (at_ (gy g) i + at_ (gh g) i <= gH g)%E (constrs (model s'))) /\
    (forall i j, 0 <= i /\ i < j /\ j < N ->
       let '(l, r, b, t) := indicators N i j in
       NoDup [l; r; b; t] /\
       Forall (fun v => nth_error (vars (model s')) (var_id v) = Some binary
                        /\ (2 + 4 * Z.to_nat N <= var_id v)%nat)
              [l; r; b; t] /\
       Forall (fun c => In c (constrs (model s')))
              (pair_constraints p g i j l r b t)) /\
    (forall i j i' j' v,
       In (i, j) (pairs N) -> In (i', j') (pairs N) -> (i, j) <> (i', j') ->
       In v (indicator_list N i j) -> ~ In v (indicator_list N i' j')) /\
    vars (model s')
    = (repeat continuous (2 + 4 * Z.to_nat N)
       ++ repeat binary (4 * List.length (pairs N)))%list /\
    constrs (model s')
    = (flat_map (bounding_of g) (range 0 N)
       ++ flat_map (fun '(i, j) =>
                      let '(l, r, b, t) := indicators N i j in
                      pair_constraints p g i j l r b t) (pairs N))%list.
Proof.
  intros g. eexists. split; [apply build_model_run|].
  cbn [model upd_model spec_model objective constrs vars]. fold g.
  split; [reflexivity|]. split; [|split; [|split; [|split]]].
  - intros i Hi. split; apply in_or_app; left; apply in_flat_map;
      exists i; (split; [apply in_range; lia|]); cbn; auto.
  - intros i j Hij. exact (spec_model_pair N p timeout i j Hij).
  - intros i j i' j' v Hin Hin' Hneq Hv Hv'.
    unfold indicator_list, indicators, indicator_base in Hv, Hv'.
    assert (index_of (i, j) (pairs N) <> index_of (i', j') (pairs N)).
    { intros E. apply Hneq. now apply (index_of_inj _ _ (pairs N)). }
    cbn in Hv, Hv'.
    repeat (destruct Hv as [Hv|Hv]; [subst v|]); try contradiction;
      repeat (destruct Hv' as [[= Hv']|Hv']; [lia|]); exact Hv'.
  - reflexivity.
  - f_equal. apply flat_map_ext_in. intros [i j] _. reflexivity.
Qed.

(** ** The compiler only adds constraints *)

Lemma oac_pure {A} (c : M A) :
  (forall s, snd (c s) = s) -> only_adds_constrs c.
Proof.
  intros H s r s' E. exists []. rewrite add_constrs_nil.
  specialize (H s). rewrite E in H. now symmetry.
Qed.

Lemma oac_ret {A} (a : A) : only_adds_constrs (ret a).
Proof. now apply oac_pure. Qed.

Lemma oac_raise {A} e : only_adds_constrs (@raise A e).
Proof. now apply oac_pure. Qed.

Lemma oac_lift {A} (r : result A) : only_adds_constrs (lift r).
Proof. now apply oac_pure. Qed.

Lemma oac_getitem {V} (l : list V) i : only_adds_constrs (getitem l i).
Proof.
  apply oac_pure. intros s. unfold getitem.
  destruct (_ && _); [destruct (nth_error _ _)|]; reflexivity.
Qed.

Lemma oac_addConstr c : only_adds_constrs (addConstr c).
Proof. intros s r s' [= <- <-]. now exists [c]. Qed.

Lemma oac_bind {A B} (c : M A) (k : A -> M B) :
  only_adds_constrs c -> (forall a, only_adds_constrs (k a)) ->
  only_adds_constrs (bind c k).
Proof.
  intros Hc Hk s r s' E. unfold bind in E.
  destruct (c s) as [[a|e] s1] eqn:E1.
  - apply Hc in E1 as (cs1 & ->). apply Hk in E as (cs2 & ->).
    exists (cs1 ++ cs2)%list. apply add_constrs_app.
  - injection E as <- <-. now apply Hc in E1.
Qed.

Lemma oac_for {V} (body : V -> M unit) l :
  (forall a, only_adds_constrs (body a)) -> only_adds_constrs (for_ l body).
Proof.
  intros H. induction l as [|a l IH]; cbn [for_].
  - apply oac_ret.
  - apply oac_bind; auto.
Qed.

Ltac oac :=
  repeat first
    [ apply oac_ret | apply oac_raise | apply oac_lift | apply oac_getitem
    | apply oac_addConstr
    | apply oac_bind; [|intros]
    | match goal with
      | |- only_adds_constrs (if ?b then _ else _) => destruct b
      | |- only_adds_constrs (match ?x with _ => _ end) => destruct x
      end ].

Lemma oac_parse_constraint p g kind text :
  only_adds_constrs (parse_constraint p g kind text).
Proof. unfold parse_constraint, unpack_error, local. oac. Qed.

Lemma oac_add_other_constraints p g cs :
  only_adds_constrs (add_other_constraints p g cs).
Proof.
  unfold add_other_constraints. apply oac_for. intros [kind text].
  apply oac_parse_constraint.
Qed.

(** What [build] leaves: the specified model, then the caller's
    constraints. *)
Lemma build_run N p cs timeout s r s' :
  build N p cs timeout s = (r, s') ->
  exists extra,
    s' = add_constrs extra (upd_model (fun _ => spec_model N p timeout) s) /\
    (forall g, r = Ok g -> g = geometry_of (Z.to_nat N)).
Proof.
  unfold build. rewrite (bind_run _ _ _ _ _ (build_model_run N p timeout s)).
  intros E. unfold bind in E.
  destruct (add_other_constraints _ _ _ _) as [[[]|e] s1] eqn:E1;
    apply oac_add_other_constraints in E1 as (extra & ->);
    injection E as <- <-; exists extra; split; auto; intros g [= <-]; auto.
Qed.

(** ** Non-overlap *)

Open Scope Q_scope.

Lemma pair_constraints_separate a p g i j l r b t :
  (a l == 0 \/ a l == 1) -> (a r == 0 \/ a r == 1) ->
  (a b == 0 \/ a b == 1) -> (a t == 0 \/ a t == 1) ->
  Forall (holds a) (pair_constraints p g i j l r b t) ->
  separated a p g i j.
Proof.
  intros Hl Hr Hb Ht H. unfold pair_constraints in H.
  repeat match goal with
  | H : Forall _ (_ :: _) |- _ => inversion H; subst; clear H
  end.
  cbn [holds eval] in *.
  unfold separated, box_x, box_y, box_w, box_h.
  destruct Hl as [Hl|Hl]; [|left; auto].
  destruct Hr as [Hr|Hr]; [|right; left; auto].
  destruct Hb as [Hb|Hb]; [|right; right; left; auto].
  destruct Ht as [Ht|Ht]; [|right; right; right; auto].
  lra.
Qed.

Lemma separated_interiors a p g i j :
  0 <= p -> separated a p g i j ->
  forall px py, ~ (interior a g i px py /\ interior a g j px py).
Proof.
  unfold separated, interior. intros Hp Hsep px py [Hi Hj]. lra.
Qed.

Close Scope Q_scope.

(** C1.  With a padding [p >= 0] (the domain sections 4.2 and 6 give it),
    every assignment that is feasible for the model [solve] hands to the
    backend separates every pair of boxes [i < j] along one axis by at
    least [p], so the interiors of the two rectangles have no point in
    common. *)
Theorem non_overlap N p constraints timeout s g s' a i j :
  (0 <= p)%Q ->
  build N p constraints timeout s = (Ok g, s') ->
  feasible (model s') a ->
  0 <= i /\ i < j /\ j < N ->
  separated a p g i j /\
  forall px py, ~ (interior a g i px py /\ interior a g j px py).
Proof.
  intros Hp Hbuild [Hdom Hall] Hij.
  assert (Hsep : separated a p g i j).
  { apply build_run in Hbuild as (extra & -> & Hg).
    rewrite (Hg g eq_refl). clear Hg.
    pose proof (spec_model_pair N p timeout i j Hij) as Hpair.
    cbv zeta in Hpair.
    destruct (indicators N i j) as [[[l r] b] t].
    destruct Hpair as (_ & Hbin & Hin).
    assert (Hval : forall v,
      In v [l; r; b; t] -> (a v == 0 \/ a v == 1)%Q).
    { intros v Hv. rewrite Forall_forall in Hbin.
      destruct (Hbin v Hv) as [Hnth _]. destruct v as [id].
      now apply (Hdom id binary Hnth). }
    apply (pair_constraints_separate a p _ i j l r b t);
      try (apply Hval; cbn; tauto).
    rewrite Forall_forall in *. intros c Hc. apply Hall.
    cbn. apply in_or_app. left. now apply Hin. }
  split; [exact Hsep | now apply (separated_interiors a p)].
Qed.

Lemma non_overlap_witness :
  (0 <= 0)%Q /\
  separated layout2 0 (geometry_of 2) 0 1 /\
  forall px py, ~ (interior layout2 (geometry_of 2) 0 px py
                   /\ interior layout2 (geometry_of 2) 1 px py).
Proof.
  split; [lra|].
  apply (non_overlap 2 0 [] 60 (world0 []) (geometry_of 2)
           (snd (build 2 0 [] 60 (world0 []))) layout2 0 1).
  - lra.
  - vm_compute. reflexivity.
  - split.
    + intros k decl H.
      set (vs := vars _) in H. vm_compute in vs. subst vs.
      do 14 (destruct k as [|k];
             [injection H as <-; cbn; split;
              [lra | intros Hb;
                     first [discriminate Hb | left; reflexivity
                           | right; reflexivity]]|]).
      destruct k; discriminate.
    + set (cs := constrs _). vm_compute in cs. subst cs.
      repeat constructor; cbn; try lra; intros; cbn; lra.
  - lia.
Defined.

(** ** Laws of the monad *)

Lemma lift_run {A} (a : A) s : lift (Ok a) s = (Ok a, s).
Proof. reflexivity. Qed.

Lemma bind_assoc {A B C} (c : M A) (k1 : A -> M B) (k2 : B -> M C) s :
  bind (bind c k1) k2 s = bind c (fun a => bind (k1 a) k2) s.
Proof. unfold bind. destruct (c s) as [[a|e] s1]; reflexivity. Qed.

Lemma bind_ret {A B} (a : A) (k : A -> M B) s : bind (ret a) k s = k a s.
Proof. reflexivity. Qed.

(** ** Failing constraints *)

Lemma kinds_lower kind : In kind kinds -> lower kind = kind.
Proof.
  cbn. intros H. repeat (destruct H as [<-|H]; [reflexivity|]). destruct H.
Qed.

Lemma unknown_kind_lower kind : ~ In (lower kind) kinds -> ~ In kind kinds.
Proof. intros H Hin. apply H. now rewrite kinds_lower. Qed.

Lemma parse_constraint_unknown_kind p g kind text s :
  ~ In kind kinds ->
  parse_constraint p g kind text s
  = (Raise (Exception ("Invalid constraint: " ++ text)), s).
Proof.
  intros H. unfold parse_constraint.
  repeat match goal with
  | |- context [String.eqb kind ?k] =>
      destruct (String.eqb_spec kind k) as [->|_];
      [exfalso; apply H; cbn; tauto|]
  end.
  reflexivity.
Qed.

Lemma parse_constraint_parse_error p g kind text e s :
  In kind kinds -> parse_match kind text = Raise e ->
  parse_constraint p g kind text s = (Raise e, s).
Proof.
  intros Hin Hp. cbn in Hin.
  repeat (destruct Hin as [<-|Hin]); [..|destruct Hin];
    unfold parse_constraint; cbn [String.eqb Ascii.eqb Bool.eqb];
    rewrite Hp; reflexivity.
Qed.

Lemma parse_constraint_fails p g kind text :
  fails_to_parse (kind, text) ->
  forall s, exists e, parse_constraint p g kind text s = (Raise e, s).
Proof.
  unfold fails_to_parse. cbn [fst snd]. intros [H|[e H]] s.
  - eexists. now apply parse_constraint_unknown_kind.
  - destruct (in_dec string_dec kind kinds) as [Hin|Hout].
    + exists e. now apply parse_constraint_parse_error.
    + eexists. now apply parse_constraint_unknown_kind.
Qed.

Lemma for_stops {V} (body : V -> M unit) (a : V) :
  (forall s, exists e, body a s = (Raise e, s)) ->
  forall pre post s,
    for_ (pre ++ a :: post) body s = for_ (pre ++ [a]) body s /\
    exists e s', for_ (pre ++ a :: post) body s = (Raise e, s').
Proof.
  intros Hfail. induction pre as [|b pre IH]; intros post s.
  - destruct (Hfail s) as (e & E). cbn [app for_]. unfold bind.
    rewrite E. eauto.
  - cbn [app for_]. unfold bind.
    destruct (body b s) as [[[]|e] s1]; [apply IH | eauto].
Qed.

Lemma frame_add_constrs cs s :
  stdout (add_constrs cs s) = stdout s /\
  optimize_calls (add_constrs cs s) = optimize_calls s /\
  caller_constraints (add_constrs cs s) = caller_constraints s /\
  status (model (add_constrs cs s)) = status (model s) /\
  solution (model (add_constrs cs s)) = solution (model s).
Proof. repeat split. Qed.

(** [build] neither prints, nor runs the backend, nor touches the caller's
    list, whether it returns or raises. *)
Lemma build_frame N p cs timeout s r s' :
  build N p cs timeout s = (r, s') ->
  stdout s' = stdout s /\ optimize_calls s' = optimize_calls s /\
  caller_constraints s' = caller_constraints s.
Proof.
  intros H. apply build_run in H as (extra & -> & _). repeat split.
Qed.

Lemma build_stops N p pre c post timeout s :
  fails_to_parse c ->
  build N p (pre ++ c :: post) timeout s = build N p (pre ++ [c]) timeout s /\
  exists e s', build N p (pre ++ c :: post) timeout s = (Raise e, s').
Proof.
  intros Hc. unfold build.
  rewrite !(bind_run _ _ _ _ _ (build_model_run N p timeout s)).
  unfold add_other_constraints.
  set (body := fun '(constraint_type, constraint) =>
                 parse_constraint p _ constraint_type constraint).
  assert (Hbody : forall s0, exists e, body c s0 = (Raise e, s0)).
  { destruct c as [k t]. intros s0. subst body. cbv beta iota.
    now apply parse_constraint_fails. }
  destruct (for_stops body c Hbody pre post
              (upd_model (fun _ => spec_model N p timeout) s))
    as (Heq & e & s' & Hraise).
  unfold bind. rewrite <- Heq, Hraise. eauto.
Qed.

Section SolveFacts.
Variable backend : Model -> GRB.status * option (Q * (Var -> Q)).

Lemma solve_build_raises N p cs timeout s e s' :
  build N p cs timeout s = (Raise e, s') ->
  solve backend N p cs timeout s = (Raise e, s').
Proof. unfold solve, bind. now intros ->. Qed.
End SolveFacts.

(** ** Status handling and extraction *)

Lemma comprehension_X l s obj val :
  solution (model s) = Some (obj, val) ->
  comprehension l X s = (Ok (map val l), s).
Proof.
  intros Hsol. induction l as [|v l IH]; [reflexivity|].
  cbn [comprehension map]. unfold bind at 1. unfold X at 1. rewrite Hsol.
  unfold bind at 1. now rewrite IH.
Qed.

Lemma extract_infeasible g s :
  status (model s) = GRB.INFEASIBLE ->
  extract g s = (Raise (Exception "Infeasible model"), s).
Proof. intros H. unfold extract, bind, get_status. now rewrite H. Qed.

Lemma extract_solution g s obj val :
  status (model s) <> GRB.INFEASIBLE ->
  solution (model s) = Some (obj, val) ->
  extract g s
  = (Ok (obj, val (gW g), val (gH g), map val (gx g), map val (gy g),
         map val (gw g), map val (gh g), status (model s)),
     warned s).
Proof.
  intros Hst Hsol. unfold extract, warned.
  assert (Hinf : GRB.status_eqb (status (model s)) GRB.INFEASIBLE = false).
  { destruct (status (model s)); try reflexivity. congruence. }
  unfold bind at 1. unfold get_status at 1. unfold bind at 1. rewrite Hinf.
  unfold ret at 1. unfold bind at 1. unfold get_status at 1.
  unfold bind at 1.
  destruct (GRB.status_eqb (status (model s)) GRB.OPTIMAL); cbn [negb];
    unfold print, ret at 1;
    (unfold bind at 1; unfold objVal at 1; cbn [model]; rewrite Hsol;
     unfold bind at 1; unfold X at 1; cbn [model]; rewrite Hsol;
     unfold bind at 1; unfold X at 1; cbn [model]; rewrite Hsol;
     erewrite bind_run by (apply (comprehension_X _ _ obj val); exact Hsol);
     erewrite bind_run by (apply (comprehension_X _ _ obj val); exact Hsol);
     erewrite bind_run by (apply (comprehension_X _ _ obj val); exact Hsol);
     erewrite bind_run by (apply (comprehension_X _ _ obj val); exact Hsol);
     reflexivity).
Qed.

Lemma extract_no_solution g s :
  solution (model s) = None -> exists e s', extract g s = (Raise e, s').
Proof.
  intros Hsol. unfold extract.
  unfold bind at 1. unfold get_status at 1. unfold bind at 1.
  destruct (GRB.status_eqb (status (model s)) GRB.INFEASIBLE);
    [unfold raise; eauto|].
  unfold ret at 1. unfold bind at 1. unfold get_status at 1.
  unfold bind at 1.
  destruct (negb _); unfold print, ret at 1;
    unfold bind at 1; unfold objVal at 1; cbn [model]; rewrite Hsol; eauto.
Qed.

Lemma status_eqb_eq a b : GRB.status_eqb a b = true <-> a = b.
Proof.
  destruct a, b; cbn; split; intros H; try congruence; try reflexivity.
  - apply Z.eqb_eq in H. now subst.
  - injection H as ->. apply Z.eqb_refl.
Qed.

(** When [extract] returns, the model has a solution, is not infeasible,
    and the bundle is read off that solution. *)
Lemma extract_inv g s b s' :
  extract g s = (Ok b, s') ->
  exists obj val,
    solution (model s) = Some (obj, val) /\
    status (model s) <> GRB.INFEASIBLE /\
    b = (obj, val (gW g), val (gH g), map val (gx g), map val (gy g),
         map val (gw g), map val (gh g), status (model s)) /\
    s' = warned s.
Proof.
  intros H.
  destruct (solution (model s)) as [[obj val]|] eqn:Hsol.
  - destruct (GRB.status_eqb (status (model s)) GRB.INFEASIBLE) eqn:Hst.
    + apply status_eqb_eq in Hst. rewrite extract_infeasible in H by auto.
      discriminate.
    + assert (Hne : status (model s) <> GRB.INFEASIBLE).
      { intros E. apply status_eqb_eq in E. congruence. }
      rewrite (extract_solution g s obj val Hne Hsol) in H.
      injection H as <- <-. exists obj, val. auto.
  - destruct (extract_no_solution g s Hsol) as (e & s1 & E). congruence.
Qed.

Section SolveRuns.
Variable backend : Model -> GRB.status * option (Q * (Var -> Q)).

Lemma solve_run N p cs timeout s g s1 :
  build N p cs timeout s = (Ok g, s1) ->
  solve backend N p cs timeout s = extract g (optimized backend s1).
Proof. intros H. unfold solve, bind. now rewrite H. Qed.
End SolveRuns.

(** ** The compiler, constraint by constraint *)

Lemma bind_raise {A B} (c : M A) (k : A -> M B) s e s' :
  c s = (Raise e, s') -> bind c k s = (Raise e, s').
Proof. unfold bind. now intros ->. Qed.

Lemma getitem_out (l : list Var) (i : Z) s :
  Z.of_nat (List.length l) <= i ->
  getitem l i s = (Raise (IndexError "list index out of range"), s).
Proof.
  intros H. unfold getitem.
  destruct (Z.ltb_spec i 0); [lia|].
  destruct (Z.ltb_spec i (Z.of_nat (List.length l))); [lia|].
  now rewrite andb_false_r.
Qed.

Lemma getitems_out g n i :
  sized n g -> Z.of_nat n <= i ->
  forall s,
    getitem (gw g) i s = (Raise (IndexError "list index out of range"), s) /\
    getitem (gh g) i s = (Raise (IndexError "list index out of range"), s) /\
    getitem (gx g) i s = (Raise (IndexError "list index out of range"), s) /\
    getitem (gy g) i s = (Raise (IndexError "list index out of range"), s).
Proof.
  intros (Hw & Hh & Hx & Hy) Hi s.
  repeat split; apply getitem_out; lia.
Qed.

Ltac run_raise O :=
  first
    [ rewrite (bind_raise _ _ _ _ _ (proj1 (O _)))
    | rewrite (bind_raise _ _ _ _ _ (proj1 (proj2 (O _))))
    | rewrite (bind_raise _ _ _ _ _ (proj1 (proj2 (proj2 (O _)))))
    | rewrite (bind_raise _ _ _ _ _ (proj2 (proj2 (proj2 (O _))))) ].

Lemma kinds_mem kind : existsb (String.eqb kind) kinds = true <-> In kind kinds.
Proof.
  rewrite existsb_exists. split.
  - intros (k & Hin & E). apply String.eqb_eq in E. now subst.
  - intros H. exists kind. split; [exact H|apply String.eqb_refl].
Qed.

Lemma parse_constraint_outcome p g n kind text s :
  sized n g ->
  parse_constraint p g kind text s
  = match compile_one p g n (kind, text) with
    | Ok cs => (Ok tt, add_constrs cs s)
    | Raise e => (Raise e, s)
    end.
Proof.
  intros Hg. unfold compile_one.
  destruct (existsb (String.eqb kind) kinds) eqn:Hmem.
  2: { apply parse_constraint_unknown_kind. intros Hin.
       apply kinds_mem in Hin. congruence. }
  apply kinds_mem in Hmem.
  destruct (parse_match kind text) as [fact|e] eqn:Hparse.
  2: { cbn [rbind]. now apply parse_constraint_parse_error. }
  cbn [rbind].
  destruct (parse_match_inv _ _ _ Hparse) as (sen & tail & Hwf & Hk & _ & Hfact).
  cbn in Hmem.
  repeat (destruct Hmem as [<-|Hmem]); [..|destruct Hmem];
    cbn in Hk; destruct sen; try discriminate Hk; clear Hk;
    cbn [well_formed] in Hwf; split_wf; fact_shape.
  all: cbn [boxes_of flat_map app forallb].
  all: repeat match goal with
       | H : int ?b = Ok _, H1 : is_empty ?b = false,
         H2 : all_chars d ?b = true |- _ =>
           let Hnn := fresh "Hnn" in
           let Hlt := fresh "Hlt" in
           pose proof (box_number_nonneg b (int_text_intro b H1 H2)) as Hnn;
           clear H H1 H2;
           destruct (Z.ltb_spec (box_number b) (Z.of_nat n)) as [Hlt|Hlt];
           [ pose proof (getitems g n (box_number b) Hg (conj Hnn Hlt))
           | pose proof (getitems_out g n (box_number b) Hg Hlt) ];
           clear Hlt Hnn
       end.
  all: cbn [andb].
  all: unfold parse_constraint;
       cbn [String.eqb Ascii.eqb Bool.eqb];
       rewrite Hparse;
       rewrite (bind_run _ _ _ _ _ (lift_run _ _));
       cbn [String.eqb Ascii.eqb Bool.eqb].
  all: unfold local;
       repeat first
         [ rewrite bind_assoc
         | rewrite bind_ret
         | match goal with
           | G : forall s, _ = (Ok _, _) /\ _ |- _ => progress (run_block G)
           | O : forall s, _ = (Raise _, _) /\ _ |- _ => run_raise O
           end ].
  all: rewrite ?addConstr_run, ?add_constrs_app; reflexivity.
Qed.

Lemma add_other_constraints_outcome p g n : forall cs s,
  sized n g ->
  add_other_constraints p g cs s
  = (match snd (compile_all p g n cs) with
     | None => Ok tt
     | Some e => Raise e
     end,
     add_constrs (fst (compile_all p g n cs)) s).
Proof.
  intros cs s Hg. revert s. unfold add_other_constraints.
  induction cs as [|[kind text] cs IH]; intros s.
  - cbn. now rewrite add_constrs_nil.
  - cbn [for_ compile_all]. unfold bind.
    rewrite (parse_constraint_outcome p g n kind text s Hg).
    destruct (compile_one p g n (kind, text)) as [l|e].
    + rewrite IH. destruct (compile_all p g n cs) as [ls r]. cbn [fst snd].
      now rewrite add_constrs_app.
    + cbn [fst snd]. now rewrite add_constrs_nil.
Qed.

(** [build]: the specified model, then what the loop over the caller's
    constraints adds, with the exception that ended the loop, if any. *)
Lemma build_outcome N p cs timeout s :
  let n := Z.to_nat N in
  let g := geometry_of n in
  build N p cs timeout s
  = (match snd (compile_all p g n cs) with
     | None => Ok g
     | Some e => Raise e
     end,
     add_constrs (fst (compile_all p g n cs))
       (upd_model (fun _ => spec_model N p timeout) s)).
Proof.
  intros n g. unfold build.
  rewrite (bind_run _ _ _ _ _ (build_model_run N p timeout s)).
  unfold bind.
  rewrite (add_other_constraints_outcome p g n cs _ (sized_geometry_of n)).
  destruct (snd (compile_all p g n cs)); reflexivity.
Qed.

Lemma compile_all_ok p g n : forall cs,
  snd (compile_all p g n cs) = None <->
  Forall (fun c => exists l, compile_one p g n c = Ok l) cs.
Proof.
  induction cs as [|c cs IH]; cbn [compile_all].
  - split; [constructor|reflexivity].
  - destruct (compile_one p g n c) as [l|e] eqn:E.
    + destruct (compile_all p g n cs) as [ls r]. cbn [snd] in *.
      rewrite IH. split.
      * intros H. constructor; eauto.
      * intros H. now inversion H.
    + cbn [snd]. split; [discriminate|].
      intros H. inversion H as [|? ? [l El] _]; congruence.
Qed.

Lemma compile_all_encoded p g n : forall cs,
  snd (compile_all p g n cs) = None ->
  fst (compile_all p g n cs) = flat_map (encoded p g n) cs.
Proof.
  induction cs as [|c cs IH]; cbn [compile_all flat_map]; [reflexivity|].
  unfold encoded at 1.
  destruct (compile_one p g n c) as [l|e]; [|discriminate].
  destruct (compile_all p g n cs) as [ls r]. cbn [fst snd] in *.
  intros Hr. now rewrite (IH Hr).
Qed.

Lemma encoding_defined p g kind text fact :
  In kind kinds -> parse_match kind text = Ok fact ->
  exists cs, encoding p g kind fact = Some cs.
Proof.
  intros Hmem Hparse.
  destruct (parse_match_inv _ _ _ Hparse) as (sen & tail & Hwf & Hk & _ & Hfact).
  cbn in Hmem.
  repeat (destruct Hmem as [<-|Hmem]); [..|destruct Hmem];
    cbn in Hk; destruct sen; try discriminate Hk; clear Hk Hparse;
    cbn [well_formed] in Hwf; split_wf; fact_shape;
    eexists; reflexivity.
Qed.

Lemma forallb_lt n l :
  forallb (fun box => box <? Z.of_nat n) l = true
  <-> Forall (fun box => box < Z.of_nat n) l.
Proof.
  rewrite forallb_forall, Forall_forall.
  split; intros H x Hx; specialize (H x Hx); now apply Z.ltb_lt.
Qed.

Lemma compile_one_ok_iff p g n c :
  (exists l, compile_one p g n c = Ok l) <-> compiles n c.
Proof.
  destruct c as [kind text]. unfold compiles, compile_one. cbn [fst snd].
  destruct (existsb (String.eqb kind) kinds) eqn:Hmem.
  - apply kinds_mem in Hmem.
    destruct (parse_match kind text) as [fact|e] eqn:Hparse; cbn [rbind].
    + destruct (forallb _ (boxes_of fact)) eqn:Hb.
      * apply forallb_lt in Hb.
        destruct (encoding_defined p g _ _ _ Hmem Hparse) as (cs & ->).
        split; eauto.
      * split; [intros (l & E); discriminate E|].
        intros (_ & fact' & [= <-] & Hall). apply forallb_lt in Hall.
        congruence.
    + split; [intros (l & E); discriminate E|].
      intros (_ & fact' & E & _). discriminate E.
  - split; [intros (l & E); discriminate E|].
    intros (Hin & _). apply kinds_mem in Hin. congruence.
Qed.

Lemma compile_one_encoding p g n kind text l :
  compile_one p g n (kind, text) = Ok l ->
  exists fact, parse_match kind text = Ok fact /\
               encoding p g kind fact = Some l.
Proof.
  unfold compile_one.
  destruct (existsb _ kinds); [|discriminate].
  destruct (parse_match kind text) as [fact|e]; cbn [rbind]; [|discriminate].
  destruct (forallb _ _); [|discriminate].
  destruct (encoding p g kind fact) as [cs|] eqn:E; [|discriminate].
  intros [= <-]. eauto.
Qed.

Lemma parse_match_kind kind text fact :
  parse_match kind text = Ok fact -> In (lower kind) kinds.
Proof.
  intros H.
  destruct (parse_match_inv _ _ _ H) as (sen & tail & _ & Hk & _).
  rewrite <- Hk. destruct sen; cbn; tauto.
Qed.

(** C3 (as amended).  Let the text parse to a fact.  When the kind is
    spelled as one of the ten and every box index of the fact is below the
    number of boxes, [parse_constraint] returns normally and adds to the
    model exactly the constraints the table of section 4.3 gives for that
    kind and fact, in the order of the table, and changes nothing else.
    When the kind is spelled as one of the ten and some box index is the
    number of boxes or more, the lookup in the list of variables raises
    [IndexError] and nothing is added.  When the kind is one of the ten
    only up to letter case, which [parse_match] accepts,
    [parse_constraint] raises [Exception("Invalid constraint: ...")] and
    nothing is added. *)
Theorem parse_constraint_encoding p g n kind text fact s :
  sized n g ->
  parse_match kind text = Ok fact ->
  (In kind kinds ->
   (Forall (fun box => box < Z.of_nat n) (boxes_of fact) ->
    exists cs,
      encoding p g kind fact = Some cs /\
      parse_constraint p g kind text s = (Ok tt, add_constrs cs s)) /\
   (Exists (fun box => Z.of_nat n <= box) (boxes_of fact) ->
    parse_constraint p g kind text s
    = (Raise (IndexError "list index out of range"), s))) /\
  (~ In kind kinds ->
   In (lower kind) kinds /\
   parse_constraint p g kind text s
   = (Raise (Exception ("Invalid constraint: " ++ text)), s)).
Proof.
  intros Hg Hparse.
  rewrite (parse_constraint_outcome p g n kind text s Hg).
  unfold compile_one. split.
  - intros Hin. rewrite (proj2 (kinds_mem kind) Hin), Hparse. cbn [rbind].
    destruct (encoding_defined p g _ _ _ Hin Hparse) as (cs & Hcs).
    split.
    + intros Hall. rewrite (proj2 (forallb_lt n _) Hall), Hcs. eauto.
    + intros Hex.
      destruct (forallb _ (boxes_of fact)) eqn:Hb; [|reflexivity].
      exfalso. apply forallb_lt in Hb.
      apply Exists_exists in Hex as (box & Hbox & Hge).
      rewrite Forall_forall in Hb. specialize (Hb box Hbox). lia.
  - intros Hout. split; [exact (parse_match_kind _ _ _ Hparse)|].
    destruct (existsb (String.eqb kind) kinds) eqn:Hmem; [|reflexivity].
    apply kinds_mem in Hmem. contradiction.
Qed.

Lemma parse_constraint_encoding_witness :
  parse_match "containment" "box 1 contains a point (1.5,-2)"
  = Ok [PInt 1; PFloat 1.5%Q; PFloat (-2)%Q] /\
  exists cs,
    encoding 0 (geometry_of 2) "containment"
      [PInt 1; PFloat 1.5%Q; PFloat (-2)%Q] = Some cs /\
    parse_constraint 0 (geometry_of 2) "containment"
      "box 1 contains a point (1.5,-2)" (world0 [])
    = (Ok tt, add_constrs cs (world0 [])).
Proof.
  split; [reflexivity|].
  refine (proj1 (proj1 (parse_constraint_encoding 0 (geometry_of 2) 2
                          "containment" "box 1 contains a point (1.5,-2)"
                          [PInt 1; PFloat 1.5%Q; PFloat (-2)%Q] (world0 [])
                          (sized_geometry_of 2) eq_refl) _) _).
  - cbn; tauto.
  - repeat constructor.
Defined.

(** C3, as stated, fails: a text can parse to a fact about a box that does
    not exist.  With one box, ["box 5 has width of 3"] parses, and the
    lookup [w[5]] raises [IndexError]; the model is left as it was built,
    with no constraint for the fact. *)
Lemma parse_constraint_index_counterexample :
  In "width" kinds /\
  parse_match "width" "box 5 has width of 3" = Ok [PInt 5; PFloat 3%Q] /\
  build 1 0 [("width", "box 5 has width of 3")] 60 (world0 [])
  = (Raise (IndexError "list index out of range"),
     snd (build_model 1 0 60 (world0 []))).
Proof. split; [cbn; tauto|]. split; reflexivity. Qed.

(** ** The call on the list object, and the variables of the result *)

Lemma extract_frame g s r s' :
  extract g s = (r, s') ->
  model s' = model s /\ optimize_calls s' = optimize_calls s /\
  caller_constraints s' = caller_constraints s /\
  stdout s' = (stdout s ++ warning_for (status (model s)))%list.
Proof.
  intros H. unfold warning_for.
  destruct (GRB.status_eqb (status (model s)) GRB.INFEASIBLE) eqn:Hinf.
  - apply status_eqb_eq in Hinf.
    rewrite (extract_infeasible g s Hinf) in H. injection H as <- <-.
    rewrite orb_true_r, app_nil_r. auto.
  - rewrite orb_false_r.
    assert (Hne : status (model s) <> GRB.INFEASIBLE).
    { intros E. apply status_eqb_eq in E. congruence. }
    destruct (solution (model s)) as [[obj val]|] eqn:Hsol.
    + rewrite (extract_solution g s obj val Hne Hsol) in H.
      injection H as <- <-. unfold warned.
      destruct (GRB.status_eqb (status (model s)) GRB.OPTIMAL);
        cbn; rewrite ?app_nil_r; auto.
    + unfold extract in H.
      unfold bind at 1 in H. unfold get_status at 1 in H.
      unfold bind at 1 in H. rewrite Hinf in H.
      unfold ret at 1 in H. unfold bind at 1 in H.
      unfold get_status at 1 in H. unfold bind at 1 in H.
      destruct (GRB.status_eqb (status (model s)) GRB.OPTIMAL);
        cbn [negb] in H; unfold print, ret at 1 in H;
        unfold bind at 1 in H; unfold objVal at 1 in H; cbn [model] in H;
        rewrite Hsol in H; injection H as <- <-; cbn;
        rewrite ?app_nil_r; auto.
Qed.

Lemma extract_outcome g s r s' :
  extract g s = (r, s') ->
  (status (model s) = GRB.INFEASIBLE /\
   r = Raise (Exception "Infeasible model")) \/
  (status (model s) <> GRB.INFEASIBLE /\ solution (model s) = None /\
   r = Raise (AttributeError "objVal")) \/
  (status (model s) <> GRB.INFEASIBLE /\
   exists obj val,
     solution (model s) = Some (obj, val) /\
     r = Ok (obj, val (gW g), val (gH g), map val (gx g), map val (gy g),
             map val (gw g), map val (gh g), status (model s))).
Proof.
  intros H.
  destruct (GRB.status_eqb (status (model s)) GRB.INFEASIBLE) eqn:Hinf.
  - apply status_eqb_eq in Hinf.
    rewrite (extract_infeasible g s Hinf) in H. injection H as <- <-. auto.
  - assert (Hne : status (model s) <> GRB.INFEASIBLE).
    { intros E. apply status_eqb_eq in E. congruence. }
    right.
    destruct (solution (model s)) as [[obj val]|] eqn:Hsol.
    + right. rewrite (extract_solution g s obj val Hne Hsol) in H.
      injection H as <- <-. split; [exact Hne|]. eauto.
    + left. split; [exact Hne|]. split; [reflexivity|].
      unfold extract in H.
      unfold bind at 1 in H. unfold get_status at 1 in H.
      unfold bind at 1 in H. rewrite Hinf in H.
      unfold ret at 1 in H. unfold bind at 1 in H.
      unfold get_status at 1 in H. unfold bind at 1 in H.
      destruct (GRB.status_eqb (status (model s)) GRB.OPTIMAL);
        cbn [negb] in H; unfold print, ret at 1 in H;
        unfold bind at 1 in H; unfold objVal at 1 in H; cbn [model] in H;
        rewrite Hsol in H; now injection H as <- <-.
Qed.

Lemma for_constraints_run (body : string * string -> M unit) :
  (forall c s r s', body c s = (r, s') ->
                    caller_constraints s' = caller_constraints s) ->
  forall l pre fuel s,
    caller_constraints s = (pre ++ l)%list ->
    (List.length l < fuel)%nat ->
    for_constraints fuel (List.length pre) body s
    = (match fst (for_ l body s) with
       | Ok _ => Ok true
       | Raise e => Raise e
       end, snd (for_ l body s)).
Proof.
  intros Hbody.
  induction l as [|c l IH]; intros pre fuel s Hs Hfuel;
    (destruct fuel as [|fuel]; [cbn in Hfuel; lia|]);
    cbn [for_constraints for_]; unfold bind at 1; unfold next_constraint;
    rewrite Hs.
  - rewrite app_nil_r, (proj2 (nth_error_None _ _)) by lia. reflexivity.
  - rewrite nth_error_app2, Nat.sub_diag by lia. cbn [nth_error].
    unfold bind.
    destruct (body c s) as [[[]|e] s1] eqn:E; [|reflexivity].
    apply Hbody in E.
    replace (S (List.length pre)) with (List.length (pre ++ [c]))
      by (rewrite length_app; cbn; lia).
    apply IH.
    + rewrite E, Hs, <- app_assoc. reflexivity.
    + cbn in Hfuel. lia.
Qed.

Lemma parse_constraint_keeps_list p g kind text s r s' :
  parse_constraint p g kind text s = (r, s') ->
  caller_constraints s' = caller_constraints s.
Proof.
  intros H. apply oac_parse_constraint in H as (cs & ->). reflexivity.
Qed.

Section SolveRefFacts.
Variable backend : Model -> GRB.status * option (Q * (Var -> Q)).

Lemma solve_ref_run fuel N p timeout s :
  (List.length (caller_constraints s) < fuel)%nat ->
  solve_ref backend fuel N p timeout s
  = (finished (fst (solve backend N p (caller_constraints s) timeout s)),
     snd (solve backend N p (caller_constraints s) timeout s)).
Proof.
  intros Hfuel.
  unfold solve_ref, solve, build, add_other_constraints, bind.
  rewrite (build_model_run N p timeout s).
  set (g := geometry_of (Z.to_nat N)).
  set (s0 := upd_model (fun _ => spec_model N p timeout) s).
  set (body := fun '(constraint_type, constraint) =>
                 parse_constraint p g constraint_type constraint).
  assert (Hbody : forall c t r t', body c t = (r, t') ->
                    caller_constraints t' = caller_constraints t).
  { intros [k x] t r t'. apply parse_constraint_keeps_list. }
  pose proof (for_constraints_run body Hbody (caller_constraints s) [] fuel s0
                eq_refl Hfuel) as Hrun.
  cbn [List.length] in Hrun. rewrite Hrun.
  destruct (for_ (caller_constraints s) body s0) as [[[]|e] s1];
    cbn [fst snd ret]; [|reflexivity].
  destruct (optimize backend s1) as [[[]|e] s2]; [|reflexivity].
  destruct (extract g s2) as [[b|e] s3]; reflexivity.
Qed.
End SolveRefFacts.

Lemma handles_block n : handles (geometry_of n) = block 0 (2 + 4 * n).
Proof.
  unfold handles, geometry_of, block. cbn [gW gH gw gh gx gy].
  replace (2 + 4 * n)%nat with (2 + (n + (n + (n + n))))%nat by lia.
  rewrite (seq_app 2), !seq_app, !map_app.
  replace (0 + 2)%nat with 2%nat by lia.
  replace (2 + n + n)%nat with (2 + 2 * n)%nat by lia.
  replace (2 + 2 * n + n)%nat with (2 + 3 * n)%nat by lia.
  reflexivity.
Qed.

Lemma handles_NoDup n : NoDup (handles (geometry_of n)).
Proof.
  rewrite handles_block. unfold block.
  apply NoDup_map_NoDup_ForallPairs; [|apply seq_NoDup].
  intros a b _ _ [= ->]. reflexivity.
Qed.

Lemma handles_declared N p timeout :
  Forall (fun v => nth_error (vars (spec_model N p timeout)) (var_id v)
                   = Some continuous)
         (handles (geometry_of (Z.to_nat N))).
Proof.
  rewrite handles_block. unfold block. apply Forall_forall.
  intros v Hv. apply in_map_iff in Hv as (k & <- & Hk).
  apply in_seq in Hk. cbn [var_id spec_model vars].
  rewrite nth_error_app1 by (rewrite repeat_length; lia).
  apply nth_error_repeat. lia.
Qed.

Lemma bounding_in_model N p timeout i :
  0 <= i < N ->
  Forall (fun c => In c (constrs (spec_model N p timeout)))
         (bounding_of (geometry_of (Z.to_nat N)) i).
Proof.
  intros Hi. apply Forall_forall. intros c Hc.
  cbn [spec_model constrs]. apply in_or_app. left.
  apply in_flat_map. exists i. split; [|exact Hc].
  apply in_range. lia.
Qed.

Lemma at_nth_error (l : list Var) n i :
  List.length l = n -> 0 <= i < Z.of_nat n ->
  nth_error l (Z.to_nat i) = Some (at_ l i).
Proof.
  intros Hl Hi. unfold at_. apply nth_error_nth'. lia.
Qed.

Lemma feasible_inside N p timeout extra a i s :
  0 <= i < N ->
  feasible (model (add_constrs extra
                     (upd_model (fun _ => spec_model N p timeout) s))) a ->
  inside a (geometry_of (Z.to_nat N)) i.
Proof.
  intros Hi [Hdom Hall].
  set (g := geometry_of (Z.to_nat N)).
  assert (Hi' : 0 <= i < Z.of_nat (Z.to_nat N)) by lia.
  destruct (sized_geometry_of (Z.to_nat N)) as (Hw & Hh & Hx & Hy).
  assert (Hlb : forall v, In v (handles g) -> (0 <= a v)%Q).
  { intros v Hv.
    pose proof (handles_declared N p timeout) as Hd.
    rewrite Forall_forall in Hd. specialize (Hd v Hv).
    destruct (Hdom (var_id v) continuous Hd) as [H0 _].
    destruct v. exact H0. }
  assert (Hmem : forall l, (l = gw g \/ l = gh g \/ l = gx g \/ l = gy g) ->
                           List.length l = Z.to_nat N ->
                           In (at_ l i) (handles g)).
  { intros l Hl Hlen. unfold handles. right. right.
    assert (In (at_ l i) l).
    { eapply nth_error_In. apply (at_nth_error l (Z.to_nat N)); assumption. }
    rewrite !in_app_iff.
    destruct Hl as [<-|[<-|[<-|<-]]]; auto. }
  assert (Hb : Forall (holds a) (bounding_of g i)).
  { apply Forall_forall. intros c Hc.
    rewrite Forall_forall in Hall. apply Hall.
    cbn [model add_constrs upd_model set_constrs constrs].
    apply in_or_app. left.
    pose proof (bounding_in_model N p timeout i Hi) as Hin.
    rewrite Forall_forall in Hin. now apply Hin. }
  unfold bounding_of in Hb.
  inversion Hb as [|? ? H1 Hb1]; subst. inversion Hb1 as [|? ? H2 _]; subst.
  cbn [holds eval] in H1, H2.
  unfold inside, box_x, box_y, box_w, box_h. fold g.
  repeat split; try (apply Hlb, Hmem; auto; tauto); assumption.
Qed.

Section Claims.
Variable backend : Model -> GRB.status * option (Q * (Var -> Q)).

(** C6.  For a kind that is, even up to case, none of the ten recognised
    kinds and for any text: [parse_match] raises the [KeyError] of the
    lookup in [patterns]; [parse_constraint] raises and leaves the model as
    it was; and [solve], given a sequence that holds a constraint of that
    kind, raises without the backend having been run. *)
Theorem unknown_kind_rejected kind text :
  ~ In (lower kind) kinds ->
  parse_match kind text = Raise (KeyError (lower kind)) /\
  (forall p g s,
     parse_constraint p g kind text s
     = (Raise (Exception ("Invalid constraint: " ++ text)), s)) /\
  (forall N p pre post timeout s,
     exists e s',
       solve backend N p (pre ++ (kind, text) :: post) timeout s
       = (Raise e, s') /\
       optimize_calls s' = optimize_calls s).
Proof.
  intros Hk. split; [|split].
  - unfold parse_match. now rewrite dict_get_missing.
  - intros p g s. apply parse_constraint_unknown_kind.
    now apply unknown_kind_lower.
  - intros N p pre post timeout s.
    destruct (build_stops N p pre (kind, text) post timeout s)
      as (_ & e & s' & Hb).
    + left. now apply unknown_kind_lower.
    + exists e, s'. split; [now apply solve_build_raises|].
      now destruct (build_frame _ _ _ _ _ _ _ Hb) as (_ & Hcalls & _).
Qed.

(** C8.  When a constraint of the sequence does not parse (its kind is
    not recognised, or [parse_match] raises on its text), [solve] raises
    during compilation: the constraints after it make no difference, the
    backend has not been run, and the model is still unsolved. *)
Theorem solve_fails_fast N p pre kind text post timeout s :
  ~ In kind kinds \/ (exists e, parse_match kind text = Raise e) ->
  solve backend N p (pre ++ (kind, text) :: post) timeout s
  = solve backend N p (pre ++ [(kind, text)]) timeout s /\
  exists e s',
    solve backend N p (pre ++ (kind, text) :: post) timeout s
    = (Raise e, s') /\
    optimize_calls s' = optimize_calls s /\
    status (model s') = GRB.LOADED /\
    solution (model s') = None.
Proof.
  intros Hc.
  destruct (build_stops N p pre (kind, text) post timeout s Hc)
    as (Heq & e & s' & Hb).
  split.
  - unfold solve, bind. now rewrite Heq.
  - exists e, s'. split; [now apply solve_build_raises|].
    destruct (build_frame _ _ _ _ _ _ _ Hb) as (_ & Hcalls & _).
    split; [exact Hcalls|].
    apply build_run in Hb as (extra & -> & _). split; reflexivity.
Qed.

(** C7.  After the backend has run on the model [solve] built: on the
    status [INFEASIBLE], [solve] raises [Exception("Infeasible model")] and
    returns nothing; on [TIME_LIMIT] with an incumbent it prints the
    warning and returns the bundle read from the incumbent, with that
    status; on [OPTIMAL] it returns the bundle and prints nothing. *)
Theorem solve_status_handling N p cs timeout s g s1 :
  build N p cs timeout s = (Ok g, s1) ->
  let st := fst (backend (model s1)) in
  let sol := snd (backend (model s1)) in
  (st = GRB.INFEASIBLE ->
     solve backend N p cs timeout s
     = (Raise (Exception "Infeasible model"), optimized backend s1)) /\
  (forall obj val, st = GRB.TIME_LIMIT -> sol = Some (obj, val) ->
     exists s',
       solve backend N p cs timeout s
       = (Ok (obj, val (gW g), val (gH g), map val (gx g), map val (gy g),
              map val (gw g), map val (gh g), GRB.TIME_LIMIT), s') /\
       stdout s' = (stdout s ++ ["Model is not optimal"%string])%list) /\
  (forall obj val, st = GRB.OPTIMAL -> sol = Some (obj, val) ->
     exists s',
       solve backend N p cs timeout s
       = (Ok (obj, val (gW g), val (gH g), map val (gx g), map val (gy g),
              map val (gw g), map val (gh g), GRB.OPTIMAL), s') /\
       stdout s' = stdout s).
Proof.
  intros Hb st sol. rewrite (solve_run backend _ _ _ _ _ _ _ Hb).
  destruct (build_frame _ _ _ _ _ _ _ Hb) as (Hout & _ & _).
  assert (Hst : status (model (optimized backend s1)) = st) by reflexivity.
  assert (Hsol : solution (model (optimized backend s1)) = sol)
    by reflexivity.
  split; [|split].
  - intros E. apply extract_infeasible. congruence.
  - intros obj val E1 E2. eexists. split.
    + rewrite (extract_solution g _ obj val); [|congruence|congruence].
      rewrite Hst, E1. reflexivity.
    + unfold warned. rewrite Hst, E1. cbn. now rewrite Hout.
  - intros obj val E1 E2. eexists. split.
    + rewrite (extract_solution g _ obj val); [|congruence|congruence].
      rewrite Hst, E1. reflexivity.
    + unfold warned. rewrite Hst, E1. cbn. exact Hout.
Qed.

(** C10.  A call of [solve] that returns gives the tuple
    [(objVal, W, H, x, y, w, h, status)] of what the backend answered on
    the model [build] assembled: the four lists have [N] entries (none when
    [N] is negative), and entry [i] is the value of the variable that this
    model declares for box [i] and bounds by the two bounding constraints
    of box [i]; the variables are pairwise distinct, and when the
    backend's assignment is feasible for the model every returned
    rectangle lies inside the returned bounding box.  Whatever the outcome,
    the call on the caller's list object has the same outcome and leaves
    the list as it was. *)
Theorem solve_returns_bundle N p cs timeout s r s' :
  solve backend N p cs timeout s = (r, s') ->
  (forall perimeter W H x y w h st,
     r = Ok (perimeter, W, H, x, y, w, h, st) ->
     exists g s1 val,
       build N p cs timeout s = (Ok g, s1) /\
       backend (model s1) = (st, Some (perimeter, val)) /\
       W = val (gW g) /\ H = val (gH g) /\
       x = map val (gx g) /\ y = map val (gy g) /\
       w = map val (gw g) /\ h = map val (gh g) /\
       List.length x = Z.to_nat N /\ List.length y = Z.to_nat N /\
       List.length w = Z.to_nat N /\ List.length h = Z.to_nat N /\
       (0 <= N ->
        Z.of_nat (List.length x) = N /\ Z.of_nat (List.length y) = N /\
        Z.of_nat (List.length w) = N /\ Z.of_nat (List.length h) = N) /\
       NoDup (handles g) /\
       Forall (fun v => nth_error (vars (model s1)) (var_id v)
                        = Some continuous) (handles g) /\
       (forall i, 0 <= i < N ->
          nth_error x (Z.to_nat i) = Some (box_x val g i) /\
          nth_error y (Z.to_nat i) = Some (box_y val g i) /\
          nth_error w (Z.to_nat i) = Some (box_w val g i) /\
          nth_error h (Z.to_nat i) = Some (box_h val g i) /\
          Forall (fun c => In c (constrs (model s1))) (bounding_of g i)) /\
       (feasible (model s1) val -> forall i, 0 <= i < N -> inside val g i)) /\
  (caller_constraints s = cs ->
   forall fuel, (List.length cs < fuel)%nat ->
     solve_ref backend fuel N p timeout s = (finished r, s') /\
     caller_constraints s' = cs).
Proof.
  intros Hsolve. split.
  - intros perimeter W H x y w h st ->.
    destruct (build N p cs timeout s) as [[g|e] s1] eqn:Hb.
    2: { apply (solve_build_raises backend) in Hb. congruence. }
    rewrite (solve_run backend _ _ _ _ _ _ _ Hb) in Hsolve.
    apply extract_inv in Hsolve as (obj & val & Hsol & _ & Hbundle & _).
    injection Hbundle as -> -> -> -> -> -> -> ->.
    exists g, s1, val.
    pose proof Hb as Hb'.
    apply build_run in Hb' as (extra & -> & Hg). rewrite (Hg g eq_refl) in *.
    clear Hg. set (n := Z.to_nat N). set (g0 := geometry_of n).
    destruct (sized_geometry_of n) as (Hw & Hh & Hx & Hy). fold g0 in Hw, Hh, Hx, Hy.
    split; [reflexivity|]. split.
    { change (solution (model (optimized backend ?t)))
        with (snd (backend (model t))) in Hsol.
      change (status (model (optimized backend ?t)))
        with (fst (backend (model t))).
      rewrite <- Hsol. now destruct (backend _). }
    do 6 (split; [reflexivity|]).
    rewrite !length_map.
    do 4 (split; [assumption|]).
    split; [intros HN; rewrite Hx, Hy, Hw, Hh; subst n; repeat split; lia|].
    split; [apply handles_NoDup|].
    split; [apply handles_declared|].
    split.
    + intros i Hi.
      assert (Hi' : 0 <= i < Z.of_nat n) by (subst n; lia).
      unfold box_x, box_y, box_w, box_h.
      rewrite !nth_error_map.
      rewrite (at_nth_error (gx g0) n i Hx Hi'), (at_nth_error (gy g0) n i Hy Hi'),
        (at_nth_error (gw g0) n i Hw Hi'), (at_nth_error (gh g0) n i Hh Hi').
      do 4 (split; [reflexivity|]).
      apply Forall_forall. intros c Hc.
      cbn [model add_constrs upd_model set_constrs constrs].
      apply in_or_app. left.
      pose proof (bounding_in_model N p timeout i Hi) as Hin.
      rewrite Forall_forall in Hin. now apply Hin.
    + intros Hfeas i Hi. exact (feasible_inside N p timeout extra val i s Hi Hfeas).
  - intros Hcs fuel Hfuel. subst cs.
    rewrite (solve_ref_run backend fuel N p timeout s Hfuel), Hsolve.
    split; [reflexivity|].
    destruct (build N p (caller_constraints s) timeout s) as [[g|e] s1] eqn:Hb.
    + rewrite (solve_run backend _ _ _ _ _ _ _ Hb) in Hsolve.
      destruct (build_frame _ _ _ _ _ _ _ Hb) as (_ & _ & Hcaller).
      apply extract_frame in Hsolve as (_ & _ & Hc & _).
      rewrite Hc. exact Hcaller.
    + rewrite (solve_build_raises backend _ _ _ _ _ _ _ Hb) in Hsolve.
      injection Hsolve as _ <-.
      now destruct (build_frame _ _ _ _ _ _ _ Hb) as (_ & _ & Hcaller).
Qed.
End Claims.

Lemma unknown_kind_rejected_witness :
  parse_match "perimeter" "box 0 has perimeter of 4"
  = Raise (KeyError "perimeter") /\
  exists e s',
    solve demo_backend 1 0
      [("width", "box 0 has width of 2");
       ("perimeter", "box 0 has perimeter of 4")] 60 (world0 [])
    = (Raise e, s') /\
    optimize_calls s' = 0%nat.
Proof.
  assert (H : ~ In (lower "perimeter") kinds).
  { cbn. intros H. repeat (destruct H as [H|H]; [discriminate H|]). exact H. }
  destruct (unknown_kind_rejected demo_backend "perimeter"
              "box 0 has perimeter of 4" H) as (H1 & _ & H3).
  split; [exact H1|].
  exact (H3 1 0%Q [("width", "box 0 has width of 2")] [] 60 (world0 [])).
Defined.

Lemma solve_fails_fast_witness :
  exists e s',
    solve demo_backend 2 0
      [("width", "box 0 has width of 2"); ("width", "box 1 is wide");
       ("height", "box 0 has height of 1")] 60 (world0 [])
    = (Raise e, s') /\
    optimize_calls s' = 0%nat /\
    status (model s') = GRB.LOADED /\
    solution (model s') = None.
Proof.
  apply (solve_fails_fast demo_backend 2 0%Q
           [("width", "box 0 has width of 2")] "width" "box 1 is wide"
           [("height", "box 0 has height of 1")] 60 (world0 [])).
  right. exists invalid_constraint. reflexivity.
Defined.

Lemma solve_status_handling_witness :
  exists s',
    solve demo_backend 1 0 [("width", "box 0 has width of 2")] 60 (world0 [])
    = (Ok (6%Q, 2%Q, 1%Q, [0%Q], [0%Q], [0%Q], [0%Q], GRB.TIME_LIMIT), s') /\
    stdout s' = ["Model is not optimal"].
Proof.
  refine (proj1 (proj2
    (solve_status_handling demo_backend 1 0%Q
       [("width", "box 0 has width of 2")] 60 (world0 []) (geometry_of 1)
       (snd (build 1 0 [("width", "box 0 has width of 2")] 60 (world0 [])))
       _)) _ _ eq_refl eq_refl).
  vm_compute. reflexivity.
Defined.

Lemma solve_returns_bundle_witness :
  (exists g s1 val,
     build 1 0 [("width", "box 0 has width of 2")] 60
       (world0 [("width", "box 0 has width of 2")]) = (Ok g, s1) /\
     demo_backend (model s1) = (GRB.TIME_LIMIT, Some (6%Q, val)) /\
     [0%Q] = map val (gx g) /\
     nth_error [0%Q] (Z.to_nat 0) = Some (box_x val g 0)) /\
  solve_ref demo_backend 2 1 0 60 (world0 [("width", "box 0 has width of 2")])
  = (Ok (Some (6%Q, 2%Q, 1%Q, [0%Q], [0%Q], [0%Q], [0%Q], GRB.TIME_LIMIT)),
     snd (solve demo_backend 1 0 [("width", "box 0 has width of 2")] 60
            (world0 [("width", "box 0 has width of 2")]))) /\
  caller_constraints
    (snd (solve demo_backend 1 0 [("width", "box 0 has width of 2")] 60
            (world0 [("width", "box 0 has width of 2")])))
  = [("width", "box 0 has width of 2")].
Proof.
  pose proof (solve_returns_bundle demo_backend 1 0%Q
                [("width", "box 0 has width of 2")] 60
                (world0 [("width", "box 0 has width of 2")])
                (Ok (6%Q, 2%Q, 1%Q, [0%Q], [0%Q], [0%Q], [0%Q],
                     GRB.TIME_LIMIT))
                (snd (solve demo_backend 1 0
                        [("width", "box 0 has width of 2")] 60
                        (world0 [("width", "box 0 has width of 2")])))
                ltac:(vm_compute; reflexivity)) as [H1 H2].
  split.
  - destruct (H1 _ _ _ _ _ _ _ _ eq_refl)
      as (g & s1 & val & Hb & Hback & _ & _ & Hx & _ & _ & _ & _ & _ & _ & _
          & _ & _ & _ & Hi & _).
    exists g, s1, val. repeat split; try assumption.
    apply (Hi 0). lia.
  - exact (H2 eq_refl 2%nat ltac:(cbn; lia)).
Defined.

(** C9.  With no box and no constraint, the model [solve] builds has the
    optimal value 0, reached exactly where [W = H = 0]; and when the
    backend returns an optimal solution of that model, [solve] returns
    perimeter 0, [W = 0], [H = 0] and four empty lists. *)
Theorem zero_boxes p timeout s :
  let g := geometry_of 0 in
  let obj := (2%Q * (gW g + gH g))%E in
  exists s1,
    build 0 p [] timeout s = (Ok g, s1) /\
    objective (model s1) = Some (obj, GRB.MINIMIZE) /\
    (exists a, optimal (model s1) obj a /\ (eval a obj == 0)%Q) /\
    (forall a, optimal (model s1) obj a ->
       (a (gW g) == 0 /\ a (gH g) == 0 /\ eval a obj == 0)%Q) /\
    (forall backend perimeter val,
       backend (model s1) = (GRB.OPTIMAL, Some (perimeter, val)) ->
       optimal (model s1) obj val ->
       (perimeter == eval val obj)%Q ->
       exists s',
         solve backend 0 p [] timeout s
         = (Ok (perimeter, val (gW g), val (gH g), [], [], [], [],
                GRB.OPTIMAL), s') /\
         (perimeter == 0 /\ val (gW g) == 0 /\ val (gH g) == 0)%Q).
Proof.
  intros g obj.
  assert (Hb : build 0 p [] timeout s
               = (Ok g, upd_model (fun _ => spec_model 0 p timeout) s)).
  { unfold build. rewrite (bind_run _ _ _ _ _ (build_model_run 0 p timeout s)).
    reflexivity. }
  exists (upd_model (fun _ => spec_model 0 p timeout) s).
  set (m := model (upd_model (fun _ => spec_model 0 p timeout) s)).
  assert (Hdom : forall a, feasible m a -> (0 <= a (gW g) /\ 0 <= a (gH g))%Q).
  { intros a [Hd _]. split.
    - apply (Hd 0%nat continuous eq_refl).
    - apply (Hd 1%nat continuous eq_refl). }
  assert (Hzero : optimal m obj all_zero).
  { split; [split|].
    - intros k decl H. subst m. cbn in H.
      destruct k as [|[|k]];
        [injection H as <-; unfold all_zero; cbn; split; [lra|discriminate] ..|].
      destruct k; discriminate.
    - constructor.
    - intros a' Ha'. destruct (Hdom a' Ha'). cbn in *. unfold all_zero. lra. }
  assert (Hopt : forall a, optimal m obj a ->
            (a (gW g) == 0 /\ a (gH g) == 0 /\ eval a obj == 0)%Q).
  { intros a [Hfeas Hmin]. destruct (Hdom a Hfeas).
    specialize (Hmin all_zero (proj1 Hzero)). cbn in *. unfold all_zero in Hmin.
    repeat split; lra. }
  split; [exact Hb|]. split; [reflexivity|]. split; [|split].
  - exists all_zero. split; [exact Hzero|]. cbn. unfold all_zero. lra.
  - exact Hopt.
  - intros backend perimeter val Hback Hval Hper.
    rewrite (solve_run backend _ _ _ _ _ _ _ Hb).
    set (s1 := upd_model (fun _ => spec_model 0 p timeout) s) in *.
    assert (Hst : status (model (optimized backend s1)) = GRB.OPTIMAL).
    { change (fst (backend m) = GRB.OPTIMAL). now rewrite Hback. }
    assert (Hsol : solution (model (optimized backend s1))
                   = Some (perimeter, val)).
    { change (snd (backend m) = Some (perimeter, val)). now rewrite Hback. }
    eexists. split.
    + rewrite (extract_solution g _ perimeter val); [|congruence|exact Hsol].
      rewrite Hst. reflexivity.
    + destruct (Hopt val Hval) as (HW & HH & Hobj). repeat split; auto.
      now rewrite Hper.
Qed.

(** ** Further properties *)

(** The padding has to be non-negative for the encoding to separate the
    boxes: with [p = -1] the model for two boxes has a feasible assignment
    under which the point [(1.5, 1)] is interior to both. *)
Theorem negative_padding_allows_overlap :
  feasible (model (snd (build 2 (-1) [] 60 (world0 [])))) layout_overlap /\
  interior layout_overlap (geometry_of 2) 0 1.5 1 /\
  interior layout_overlap (geometry_of 2) 1 1.5 1.
Proof.
  split; [split|].
  - intros k decl H.
    set (vs := vars _) in H. vm_compute in vs. subst vs.
    do 14 (destruct k as [|k];
           [injection H as <-; cbn; split;
            [lra | intros Hb;
                   first [discriminate Hb | left; reflexivity
                         | right; reflexivity]]|]).
    destruct k; discriminate.
  - set (cs := constrs _). vm_compute in cs. subst cs.
    repeat constructor; cbn; try lra; intros; cbn; lra.
  - unfold interior, box_x, box_y, box_w, box_h. cbn. split; repeat split; lra.
Qed.

(** Whatever [parse_match] returns is the fact of a well-formed sentence
    of the kind that the lower-cased text starts with; in particular every
    box index it returns is a non-negative integer. *)
Theorem parse_match_sound kind text fact :
  parse_match kind text = Ok fact ->
  (exists sen tail,
     well_formed sen = true /\ kind_of sen = lower kind /\
     lower text = (render sen ++ tail)%string /\ fact_of sen = Ok fact) /\
  Forall (fun box => 0 <= box) (boxes_of fact).
Proof.
  intros H. split; [now apply parse_match_inv|].
  destruct (parse_match_inv _ _ _ H) as (sen & _ & Hwf & _ & _ & Hfact).
  destruct sen; cbn [well_formed] in Hwf; split_wf; fact_shape;
    cbn [boxes_of flat_map app];
    repeat constructor; apply box_number_nonneg; now apply int_text_intro.
Qed.

Lemma parse_match_sound_witness :
  (exists sen tail,
     well_formed sen = true /\ kind_of sen = lower "RATIO" /\
     lower "Box 3 has aspect ratio of AT MOST 5 or so"
     = (render sen ++ tail)%string /\
     fact_of sen = Ok [PInt 3; PStr "at most"; PFloat 5%Q]) /\
  Forall (fun box => 0 <= box)
         (boxes_of [PInt 3; PStr "at most"; PFloat 5%Q]).
Proof.
  apply (parse_match_sound "RATIO" "Box 3 has aspect ratio of AT MOST 5 or so").
  reflexivity.
Defined.

(** ** Completeness of the matcher *)

Section MatcherComplete.
Context {A : Type}.

Lemma plus_k_complete cls (m : string) :
  forall (k : string -> string -> option A) rest,
    is_empty m = false -> all_chars cls m = true ->
    k m rest <> None ->
    plus_k cls (m ++ rest) k <> None.
Proof.
  induction m as [|c m IH]; intros k rest Hne Hall Hk; [discriminate|].
  cbn [all_chars] in Hall. apply andb_prop in Hall as [Hc Hall].
  cbn [append plus_k]. rewrite Hc.
  destruct m as [|c' m'].
  - cbn [append].
    destruct (plus_k cls rest (fun m0 rest0 => k (String c m0) rest0));
      [discriminate | exact Hk].
  - specialize (IH (fun m0 rest0 => k (String c m0) rest0) rest eq_refl Hall Hk).
    destruct (plus_k cls (String c' m' ++ rest) _); [discriminate|].
    now contradiction IH.
Qed.

Lemma alt_k_complete alts (a : string) :
  forall (k : string -> string -> option A) rest,
    In a alts -> k a rest <> None -> alt_k alts (a ++ rest) k <> None.
Proof.
  induction alts as [|b alts IH]; intros k rest Hin Hk; [destruct Hin|].
  cbn [alt_k].
  destruct Hin as [->|Hin].
  - rewrite strip_prefix_app. destruct (k a rest); [discriminate|].
    now contradiction Hk.
  - destruct (strip_prefix b (a ++ rest)) as [r|];
      [destruct (k b r); [discriminate|]|]; now apply IH.
Qed.

Lemma match_k_complete r m caps :
  matches r m caps ->
  forall gs (k : string -> list string -> string -> option A) rest,
    k m (gs ++ caps)%list rest <> None ->
    match_k r (m ++ rest) gs k <> None.
Proof.
  induction 1 as [l|cls m Hne Hall|alts a Hin|r m caps Hm IH
                 |r1 r2 m1 m2 caps1 caps2 H1 IH1 H2 IH2];
    intros gs k rest Hk; cbn [match_k].
  - rewrite strip_prefix_app. now rewrite app_nil_r in Hk.
  - rewrite app_nil_r in Hk. now apply plus_k_complete.
  - rewrite app_nil_r in Hk. now apply alt_k_complete.
  - apply IH. now rewrite <- app_assoc.
  - rewrite append_assoc. apply IH1. apply IH2. now rewrite <- app_assoc.
Qed.
End MatcherComplete.

Lemma re_match_complete r m caps rest :
  matches r m caps -> re_match r (m ++ rest) <> None.
Proof.
  intros H. unfold re_match. apply (match_k_complete r m caps H). discriminate.
Qed.

(** [re.match] fails exactly when no prefix of the text is in the language
    of the pattern. *)
Lemma re_match_none_iff r s :
  re_match r s = None <->
  forall m rest caps, s = (m ++ rest)%string -> ~ matches r m caps.
Proof.
  split.
  - intros Hnone m rest caps -> Hm.
    now apply (re_match_complete r m caps rest Hm).
  - intros H. destruct (re_match r s) as [groups|] eqn:E; [|reflexivity].
    apply re_match_sound in E as (m & rest & Hs & Hm).
    now contradiction (H m rest groups Hs).
Qed.

Lemma float_raise s e : float s = Raise e -> e = float_error.
Proof.
  unfold float. intros E.
  repeat match type of E with
  | context [let '(_, _) := ?x in _] => destruct x
  | context [if ?b then _ else _] => destruct b
  | context [match ?x with _ => _ end] => destruct x
  end; congruence.
Qed.

Lemma fact_of_raise sen e : fact_of sen = Raise e -> e = float_error.
Proof.
  intros He.
  destruct sen; cbn [fact_of] in He; try discriminate He;
    repeat match type of He with
    | rbind (float ?v) _ = Raise _ =>
        let E := fresh "E" in
        destruct (float v) eqn:E; cbn [rbind] in He;
        [|apply float_raise in E; congruence]
    end; discriminate He.
Qed.

Lemma dict_get_raise {V} (dict : list (string * V)) key e :
  dict_get dict key = Raise e ->
  e = KeyError key /\ ~ In key (map fst dict).
Proof.
  induction dict as [|[k v] dict IH]; cbn [dict_get map fst].
  - intros [= <-]. split; [reflexivity|intros []].
  - destruct (String.eqb_spec k key) as [->|Hne]; [discriminate|].
    intros H. destruct (IH H) as [-> Hout]. split; [reflexivity|].
    intros [E|Hin]; [now apply Hne | now apply Hout].
Qed.

Lemma dict_get_ok {V} (dict : list (string * V)) key v :
  dict_get dict key = Ok v -> In key (map fst dict).
Proof.
  induction dict as [|[k w] dict IH]; cbn [dict_get map fst]; [discriminate|].
  destruct (String.eqb_spec k key) as [->|Hne]; [now left|].
  intros H. right. now apply IH.
Qed.

(** A match of the pattern of a kind splits the text into a well-formed
    sentence of that kind and a rest, and captures the sentence's fields. *)
Lemma re_match_fields kind pat text groups :
  dict_get patterns kind = Ok pat ->
  re_match pat text = Some groups ->
  exists sen tail,
    well_formed sen = true /\ kind_of sen = kind /\
    text = (render sen ++ tail)%string /\ groups = fields sen.
Proof.
  intros Hpat Hm.
  apply re_match_sound in Hm as (m & tail & Htext & Hm).
  cbn [dict_get patterns] in Hpat.
  repeat match type of Hpat with
  | (if String.eqb ?a ?b then _ else _) = _ =>
      let Hk := fresh "Hk" in
      destruct (String.eqb_spec a b) as [Hk|Hk] in Hpat;
      [ injection Hpat as <- |]
  end.
  11: discriminate.
  all: invert_matches.
  all: repeat match goal with
       | H1 : is_empty ?s = false, H2 : all_chars d ?s = true |- _ =>
           pose proof (int_text_intro s H1 H2); clear H1 H2
       | H1 : is_empty ?s = false, H2 : all_chars float_chars ?s = true |- _ =>
           pose proof (float_text_intro s H1 H2); clear H1 H2
       | H1 : In _ _ |- _ => apply one_of_intro in H1
       end.
  all: [> eexists (Width _ _) | eexists (Height _ _)
          | eexists (Position _ _ _) | eexists (Area _ _)
          | eexists (Ratio _ _ _) | eexists (HorizontalAlign _ _ _ _)
          | eexists (VerticalAlign _ _ _ _) | eexists (Symmetry _ _ _ _)
          | eexists (Similarity _ _ _) | eexists (Containment _ _ _) ].
  all: eexists; refine (conj _ (conj _ (conj eq_refl eq_refl))); [|try assumption; try reflexivity].
  all: cbn [well_formed];
       repeat match goal with Hi : _ = true |- _ => rewrite Hi; clear Hi end;
       reflexivity.
Qed.

(** When the pattern of the kind matches, [parse_match] returns what the
    matched sentence stands for. *)
Lemma parse_match_matched kind text pat groups :
  dict_get patterns (lower kind) = Ok pat ->
  re_match pat (lower text) = Some groups ->
  exists sen tail,
    well_formed sen = true /\ kind_of sen = lower kind /\
    lower text = (render sen ++ tail)%string /\
    parse_match kind text = fact_of sen.
Proof.
  intros Hpat Hm.
  destruct (re_match_fields _ _ _ _ Hpat Hm)
    as (sen & tail & Hwf & Hk & Ht & ->).
  exists sen, tail. repeat split; auto.
  unfold parse_match. rewrite Hpat. cbn [rbind]. rewrite Hm. rewrite <- Hk.
  clear Hpat Hm Hk Ht.
  destruct sen; cbn [well_formed] in Hwf;
    repeat match goal with
    | H : _ && _ = true |- _ => apply andb_prop in H as [? ?]
    end;
    repeat match goal with
    | H : int_text ?b = true |- _ => apply int_of_text in H
    end;
    cbn [kind_of fields item nth_error rbind String.eqb Ascii.eqb Bool.eqb
         fact_of];
    repeat match goal with H : int _ = Ok _ |- _ => rewrite H; clear H end;
    cbn [rbind]; reflexivity.
Qed.

(** ** The errors of [parse_match] *)

Lemma is_empty_true s : is_empty s = true -> s = "".
Proof. destruct s; [reflexivity|discriminate]. Qed.

(** A well-formed sentence is in the language of the pattern of its
    kind. *)
Lemma sentence_matches sen :
  well_formed sen = true ->
  exists pat caps,
    dict_get patterns (kind_of sen) = Ok pat /\ matches pat (render sen) caps.
Proof.
  intros Hwf.
  destruct (fullmatch_complete sen Hwf) as (pat & groups & Hpat & Hm).
  exists pat. unfold re_fullmatch in Hm.
  apply match_k_sound in Hm as (m & caps & rest & Hs & Hmatch & Hk).
  destruct (is_empty rest) eqn:E; [|discriminate Hk].
  apply is_empty_true in E. subst rest. rewrite append_empty_r in Hs.
  exists caps. split; [exact Hpat|]. now rewrite Hs.
Qed.

(** [parse_match] raises [Exception("Invalid constraint")] exactly when
    the kind is, up to letter case, one of the ten and the lower-cased text
    does not start with a well-formed sentence of that kind. *)
Theorem parse_match_invalid_iff kind text :
  parse_match kind text = Raise (Exception "Invalid constraint") <->
  In (lower kind) kinds /\
  forall sen tail,
    well_formed sen = true -> kind_of sen = lower kind ->
    lower text <> (render sen ++ tail)%string.
Proof.
  split.
  - intros H.
    destruct (dict_get patterns (lower kind)) as [pat|e0] eqn:Hpat.
    + split; [exact (dict_get_ok _ _ _ Hpat)|].
      destruct (re_match pat (lower text)) as [groups|] eqn:Hm.
      * destruct (parse_match_matched _ _ _ _ Hpat Hm)
          as (sen & tail & _ & _ & _ & Hp).
        rewrite Hp in H. apply fact_of_raise in H. discriminate H.
      * intros sen tail Hwf Hk Ht.
        destruct (sentence_matches sen Hwf) as (pat' & caps & Hpat' & Hmatch).
        rewrite Hk, Hpat in Hpat'. injection Hpat' as <-.
        rewrite Ht in Hm.
        exact (re_match_complete _ _ _ tail Hmatch Hm).
    + destruct (dict_get_raise _ _ _ Hpat) as [-> _].
      unfold parse_match in H. rewrite Hpat in H. discriminate H.
  - intros (Hin & Hno).
    destruct (dict_get patterns (lower kind)) as [pat|e0] eqn:Hpat.
    + apply (parse_match_no_match _ _ pat Hpat).
      destruct (re_match pat (lower text)) as [groups|] eqn:Hm; [|reflexivity].
      destruct (parse_match_matched _ _ _ _ Hpat Hm)
        as (sen & tail & Hwf & Hk & Ht & _).
      now contradiction (Hno sen tail Hwf Hk Ht).
    + destruct (dict_get_raise _ _ _ Hpat) as [_ Hout]. contradiction.
Qed.



(** ** A negative padding *)

(** [solve] does not check the padding.  For every [p < 0] the model for
    two boxes has a feasible assignment under which the two rectangles
    have an interior point in common. *)
Theorem negative_padding_overlap p :
  (p < 0)%Q ->
  exists px py,
    feasible (model (snd (build 2 p [] 60 (world0 [])))) (squeezed p) /\
    interior (squeezed p) (geometry_of 2) 0 px py /\
    interior (squeezed p) (geometry_of 2) 1 px py.
Proof.
  intros Hp.
  set (x1 := if Qle_bool (1 + p) 0 then 0%Q else (1 + p)%Q).
  assert (Hx1 : (0 <= x1 /\ x1 < 1 /\ 1 + p <= x1)%Q).
  { subst x1. destruct (Qle_bool (1 + p) 0) eqn:E.
    - apply Qle_bool_iff in E. lra.
    - assert (~ (1 + p <= 0)%Q) by (intros H; apply Qle_bool_iff in H; congruence).
      lra. }
  exists ((x1 + 1) * (1 # 2))%Q, (1 # 2)%Q.
  split; [split|].
  - intros k decl H.
    set (vs := vars _) in H. vm_compute in vs. subst vs.
    do 14 (destruct k as [|k];
           [injection H as <-; unfold squeezed; cbn [var_id lb vtype];
            fold x1; split;
            [lra | intros Hb;
                   first [discriminate Hb | left; reflexivity
                         | right; reflexivity]]|]).
    destruct k; discriminate.
  - set (cs := constrs _). vm_compute in cs. subst cs.
    repeat constructor; cbn [holds eval]; unfold squeezed;
      cbn [var_id]; fold x1; try lra; intros; try lra.
  - unfold interior, box_x, box_y, box_w, box_h, at_.
    change (Z.to_nat 1) with 1%nat. change (Z.to_nat 0) with 0%nat.
    unfold squeezed. cbn. fold x1. clearbody x1. repeat split; lra.
Qed.

Lemma negative_padding_overlap_witness :
  exists px py,
    feasible (model (snd (build 2 (-1 # 2) [] 60 (world0 []))))
             (squeezed (-1 # 2)) /\
    interior (squeezed (-1 # 2)) (geometry_of 2) 0 px py /\
    interior (squeezed (-1 # 2)) (geometry_of 2) 1 px py.
Proof. apply (negative_padding_overlap (-1 # 2)). reflexivity. Defined.

(** ** The model [build] returns *)


(** When [build] returns, the model is the specified one followed, in
    the caller's order, by the encoding of each of the caller's
    constraints; variables, objective and time limit are those of the
    specified model. *)
Theorem build_constraints N p cs timeout s g s' :
  build N p cs timeout s = (Ok g, s') ->
  exists blocks,
    Forall2 (fun c block =>
               exists fact, parse_match (fst c) (snd c) = Ok fact /\
                            encoding p g (fst c) fact = Some block)
            cs blocks /\
    constrs (model s')
    = (constrs (spec_model N p timeout) ++ concat blocks)%list /\
    vars (model s') = vars (spec_model N p timeout) /\
    objective (model s') = objective (spec_model N p timeout) /\
    TimeLimit (model s') = Some timeout.
Proof.
  pose proof (build_outcome N p cs timeout s) as H. cbv zeta in H.
  rewrite H. clear H.
  set (n := Z.to_nat N). set (g0 := geometry_of n).
  destruct (snd (compile_all p g0 n cs)) as [e|] eqn:Hr; [discriminate|].
  intros [= <- <-].
  rewrite (compile_all_encoded p g0 n cs Hr).
  apply compile_all_ok in Hr.
  exists (map (encoded p g0 n) cs).
  split; [|split; [|repeat split; reflexivity]].
  - induction Hr as [|[kind text] cs' (l & Hl) _ IH]; cbn [map]; constructor.
    + unfold encoded. rewrite Hl. cbn [fst snd].
      now apply compile_one_encoding in Hl.
    + exact IH.
  - rewrite <- flat_map_concat_map. reflexivity.
Qed.

Lemma build_constraints_witness :
  exists blocks,
    Forall2 (fun c block =>
               exists fact, parse_match (fst c) (snd c) = Ok fact /\
                            encoding 0 (geometry_of 2) (fst c) fact
                            = Some block)
            [("position", "box 0 is to the left of box 1");
             ("width", "box 1 has width of 2")] blocks /\
    constrs (model (snd (build 2 0
                           [("position", "box 0 is to the left of box 1");
                            ("width", "box 1 has width of 2")] 60
                           (world0 []))))
    = (constrs (spec_model 2 0 60) ++ concat blocks)%list /\
    vars (model (snd (build 2 0
                        [("position", "box 0 is to the left of box 1");
                         ("width", "box 1 has width of 2")] 60
                        (world0 []))))
    = vars (spec_model 2 0 60) /\
    objective (model (snd (build 2 0
                             [("position", "box 0 is to the left of box 1");
                              ("width", "box 1 has width of 2")] 60
                             (world0 []))))
    = objective (spec_model 2 0 60) /\
    TimeLimit (model (snd (build 2 0
                             [("position", "box 0 is to the left of box 1");
                              ("width", "box 1 has width of 2")] 60
                             (world0 []))))
    = Some 60.
Proof.
  apply (build_constraints 2 0%Q
           [("position", "box 0 is to the left of box 1");
            ("width", "box 1 has width of 2")] 60 (world0 [])).
  vm_compute. reflexivity.
Defined.

(** When the first constraint that does not compile comes after [pre],
    [build] raises and leaves the model it would have returned for [pre]
    alone. *)
Theorem build_first_failure N p pre c post timeout s :
  Forall (compiles (Z.to_nat N)) pre -> ~ compiles (Z.to_nat N) c ->
  exists e g s',
    build N p (pre ++ c :: post) timeout s = (Raise e, s') /\
    build N p pre timeout s = (Ok g, s').
Proof.
  intros Hpre Hc.
  pose proof (build_outcome N p (pre ++ c :: post) timeout s) as H1.
  pose proof (build_outcome N p pre timeout s) as H2.
  cbv zeta in H1, H2. rewrite H1, H2. clear H1 H2.
  set (n := Z.to_nat N) in *. set (g := geometry_of n).
  assert (Hc' : exists e, compile_one p g n c = Raise e).
  { destruct (compile_one p g n c) as [l|e] eqn:E; [|eauto].
    exfalso. apply Hc. apply (compile_one_ok_iff p g n c). eauto. }
  destruct Hc' as (e & He).
  assert (H : forall pre',
             Forall (compiles n) pre' ->
             compile_all p g n (pre' ++ c :: post)
             = (fst (compile_all p g n pre'), Some e)
             /\ snd (compile_all p g n pre') = None).
  { induction pre' as [|c0 pre' IH]; intros HF; cbn [app compile_all].
    - rewrite He. auto.
    - inversion HF as [|? ? Hc0 HF']; subst.
      apply (compile_one_ok_iff p g n c0) in Hc0 as (l & ->).
      destruct (IH HF') as (-> & Hs).
      destruct (compile_all p g n pre') as [ls r]. cbn [fst snd] in *.
      subst r. auto. }
  destruct (H pre Hpre) as (-> & ->). cbn [fst snd]. eauto.
Qed.

Lemma build_first_failure_witness :
  exists e g s',
    build 2 0 ([("width", "box 0 has width of 2")]
               ++ ("width", "box 9 has width of 1")
               :: [("height", "box 1 has height of 1")]) 60 (world0 [])
    = (Raise e, s') /\
    build 2 0 [("width", "box 0 has width of 2")] 60 (world0 [])
    = (Ok g, s').
Proof.
  apply (build_first_failure 2 0%Q [("width", "box 0 has width of 2")]
           ("width", "box 9 has width of 1")
           [("height", "box 1 has height of 1")] 60 (world0 [])).
  - constructor; [|constructor]. split; [cbn; tauto|].
    exists [PInt 0; PFloat 2%Q]. split; [reflexivity|].
    constructor; [reflexivity|constructor].
  - intros (_ & fact & Hp & Hall).
    vm_compute in Hp. injection Hp as <-.
    inversion Hall as [|? ? Hlt _]. discriminate Hlt.
Defined.

(** The three ways [parse_constraint] fails, each leaving the model as
    it was: a kind not spelled as one of the ten; an exception of
    [parse_match]; a fact that names a box that does not exist. *)
Theorem parse_constraint_failure p g n kind text s e s' :
  sized n g ->
  parse_constraint p g kind text s = (Raise e, s') ->
  s' = s /\
  ((~ In kind kinds /\ e = Exception ("Invalid constraint: " ++ text)) \/
   (In kind kinds /\ parse_match kind text = Raise e) \/
   (In kind kinds /\ e = IndexError "list index out of range" /\
    exists fact, parse_match kind text = Ok fact /\
                 Exists (fun box => Z.of_nat n <= box) (boxes_of fact))).
Proof.
  intros Hg H. rewrite (parse_constraint_outcome p g n kind text s Hg) in H.
  unfold compile_one in H.
  destruct (existsb (String.eqb kind) kinds) eqn:Hmem.
  - apply kinds_mem in Hmem.
    destruct (parse_match kind text) as [fact|e0] eqn:Hparse; cbn [rbind] in H.
    + destruct (forallb _ (boxes_of fact)) eqn:Hb.
      * destruct (encoding_defined p g _ _ _ Hmem Hparse) as (cs & Hcs).
        rewrite Hcs in H. discriminate H.
      * injection H as <- <-. split; [reflexivity|]. right. right.
        split; [exact Hmem|]. split; [reflexivity|]. exists fact.
        split; [reflexivity|].
        apply Exists_exists.
        assert (Hn : ~ Forall (fun box => box < Z.of_nat n) (boxes_of fact)).
        { intros HF. apply forallb_lt in HF. congruence. }
        apply neg_Forall_Exists_neg in Hn; [|intros x; apply Z_lt_dec].
        apply Exists_exists in Hn as (x & Hx & Hge). exists x. split; [exact Hx|lia].
    + injection H as <- <-. auto.
  - injection H as <- <-. split; [reflexivity|]. left. split; [|reflexivity].
    intros Hin. apply kinds_mem in Hin. congruence.
Qed.

Lemma parse_constraint_failure_witness :
  world0 [] = world0 [] /\
  ((~ In "similarity" kinds /\
    IndexError "list index out of range"
    = Exception ("Invalid constraint: "
                 ++ "box 0 is 2-scaled translate of box 3")) \/
   (In "similarity" kinds /\
    parse_match "similarity" "box 0 is 2-scaled translate of box 3"
    = Raise (IndexError "list index out of range")) \/
   (In "similarity" kinds /\
    IndexError "list index out of range"
    = IndexError "list index out of range" /\
    exists fact,
      parse_match "similarity" "box 0 is 2-scaled translate of box 3"
      = Ok fact /\
      Exists (fun box => Z.of_nat 2 <= box) (boxes_of fact))).
Proof.
  apply (parse_constraint_failure 0 (geometry_of 2) 2 "similarity"
           "box 0 is 2-scaled translate of box 3" (world0 [])).
  - apply sized_geometry_of.
  - vm_compute. reflexivity.
Defined.

(** The order of the caller's constraints does not matter to the
    layouts the model admits. *)
Theorem build_order_irrelevant N p cs cs' timeout s g s1 :
  Permutation cs cs' ->
  build N p cs timeout s = (Ok g, s1) ->
  exists s1',
    build N p cs' timeout s = (Ok g, s1') /\
    forall a, feasible (model s1) a <-> feasible (model s1') a.
Proof.
  intros Hperm.
  pose proof (build_outcome N p cs timeout s) as H1.
  pose proof (build_outcome N p cs' timeout s) as H2.
  cbv zeta in H1, H2. rewrite H1, H2. clear H1 H2.
  set (n := Z.to_nat N). set (g0 := geometry_of n).
  destruct (snd (compile_all p g0 n cs)) as [e|] eqn:Hr; [discriminate|].
  intros [= <- <-].
  assert (Hr' : snd (compile_all p g0 n cs') = None).
  { apply compile_all_ok. apply compile_all_ok in Hr.
    now apply (Permutation_Forall Hperm). }
  rewrite Hr'. eexists. split; [reflexivity|].
  rewrite (compile_all_encoded _ _ _ _ Hr), (compile_all_encoded _ _ _ _ Hr').
  assert (Hp : Permutation (flat_map (encoded p g0 n) cs)
                           (flat_map (encoded p g0 n) cs'))
    by now apply Permutation_flat_map.
  intros a. unfold feasible. cbn [model add_constrs upd_model set_constrs constrs].
  split; intros [Hd Hall]; (split; [exact Hd|]);
    apply Forall_app in Hall as [Ha Hb]; apply Forall_app; (split; [exact Ha|]).
  - now apply (Permutation_Forall Hp).
  - now apply (Permutation_Forall (Permutation_sym Hp)).
Qed.

Lemma build_order_irrelevant_witness :
  exists s1',
    build 2 0 [("width", "box 1 has width of 2");
               ("position", "box 0 is to the left of box 1")] 60 (world0 [])
    = (Ok (geometry_of 2), s1') /\
    forall a,
      feasible (model (snd (build 2 0
                              [("position", "box 0 is to the left of box 1");
                               ("width", "box 1 has width of 2")] 60
                              (world0 [])))) a
      <-> feasible (model s1') a.
Proof.
  apply (build_order_irrelevant 2 0%Q
           [("position", "box 0 is to the left of box 1");
            ("width", "box 1 has width of 2")]
           [("width", "box 1 has width of 2");
            ("position", "box 0 is to the left of box 1")]
           60 (world0 [])).
  - apply perm_swap.
  - vm_compute. reflexivity.
Defined.
(** ** The size of the model *)

Lemma list_sum_gauss : forall m a,
  (2 * list_sum (map (fun i => a + m - 1 - i) (seq a m)) = m * (m - 1))%nat.
Proof.
  induction m as [|m IH]; intros a; [reflexivity|].
  change (seq a (S m)) with (a :: seq (S a) m).
  rewrite map_cons.
  change (list_sum (?x :: ?l)) with (x + list_sum l)%nat.
  rewrite (map_ext_in _ (fun i => S a + m - 1 - i)%nat).
  - specialize (IH (S a)).
    replace (a + S m - 1 - a)%nat with m by lia. nia.
  - intros i Hi. apply in_seq in Hi. lia.
Qed.

Lemma list_sum_const {V} (c : nat) (l : list V) :
  list_sum (map (fun _ => c) l) = (c * List.length l)%nat.
Proof.
  induction l as [|a l IH]; [now rewrite Nat.mul_0_r|].
  change (list_sum (map (fun _ => c) (a :: l)))
    with (c + list_sum (map (fun _ => c) l))%nat.
  rewrite IH. cbn [List.length]. lia.
Qed.

Lemma pairs_length N :
  (2 * List.length (pairs N) = Z.to_nat N * (Z.to_nat N - 1))%nat.
Proof.
  unfold pairs. rewrite length_flat_map.
  rewrite <- (list_sum_gauss (Z.to_nat N) 0).
  f_equal.
  change (range 0 N)
    with (map (fun k => 0 + Z.of_nat k) (seq 0 (Z.to_nat (N - 0)))).
  rewrite Z.sub_0_r, map_map.
  f_equal. apply map_ext_in. intros k Hk. apply in_seq in Hk.
  rewrite length_map, range_length. lia.
Qed.

(** Before the caller's constraints, the model for [n] boxes has
    [2 + 4n + 2n(n-1)] variables and [2n + 7n(n-1)/2] constraints. *)
Theorem model_size N p timeout s :
  let n := Z.to_nat N in
  exists g s',
    build_model N p timeout s = (Ok g, s') /\
    (List.length (vars (model s')) = 2 + 4 * n + 2 * (n * (n - 1)))%nat /\
    (2 * List.length (constrs (model s')) = 4 * n + 7 * (n * (n - 1)))%nat.
Proof.
  intros n. eexists. eexists. split; [apply build_model_run|].
  cbn [model upd_model spec_model vars constrs].
  pose proof (pairs_length N) as Hp. fold n in Hp.
  rewrite !length_app, !repeat_length, !length_flat_map.
  split; [lia|].
  assert (H1 : list_sum (map (fun i => List.length (bounding_of (geometry_of n) i))
                             (range 0 N)) = (2 * n)%nat).
  { rewrite (map_ext _ (fun _ => 2%nat)) by reflexivity.
    rewrite list_sum_const, range_length, Z.sub_0_r. reflexivity. }
  assert (H2 : list_sum (map (fun ij => List.length
                                          (pair_constraints_of N p (geometry_of n) ij))
                             (pairs N)) = (7 * List.length (pairs N))%nat).
  { rewrite (map_ext _ (fun _ => 7%nat)); [apply list_sum_const|].
    intros [i j]. reflexivity. }
  fold n. rewrite H1, H2. lia.
Qed.

(** ** What a call of [solve] does *)

Lemma main_constraints_build s :
  exists s1, build 5 0.1 main_constraints 60 s = (Ok (geometry_of 5), s1) /\
             optimize_calls s1 = optimize_calls s.
Proof.
  pose proof (build_outcome 5 0.1 main_constraints 60 s) as H. cbv zeta in H.
  rewrite H. clear H.
  change (Z.to_nat 5) with 5%nat.
  set (c := compile_all 0.1 (geometry_of 5) 5 main_constraints).
  assert (Hc : snd c = None) by (vm_compute; reflexivity).
  rewrite Hc. eexists. split; reflexivity.
Qed.

Section SolveEffects.
Variable backend : Model -> GRB.status * option (Q * (Var -> Q)).

(** A call of [solve] either raises what [build] raised, without having
    run the backend or printed anything, or runs the backend exactly once
    on the model [build] returned, leaves the backend's answer in the
    model, and prints the warning when the status is neither optimal nor
    infeasible, and nothing otherwise. *)
Theorem solve_effects N p cs timeout s r s' :
  solve backend N p cs timeout s = (r, s') ->
  (exists e, build N p cs timeout s = (Raise e, s') /\ r = Raise e /\
             optimize_calls s' = optimize_calls s /\
             stdout s' = stdout s) \/
  (exists g s1, build N p cs timeout s = (Ok g, s1) /\
                optimize_calls s' = S (optimize_calls s) /\
                model s' = set_outcome (backend (model s1)) (model s1) /\
                stdout s'
                = (stdout s ++ warning_for (fst (backend (model s1))))%list).
Proof.
  intros H.
  destruct (build N p cs timeout s) as [[g|e] s1] eqn:Hb.
  - rewrite (solve_run backend _ _ _ _ _ _ _ Hb) in H.
    destruct (build_frame _ _ _ _ _ _ _ Hb) as (Hout & Hcalls & _).
    apply extract_frame in H as (Hm & Hc & _ & Hso).
    right. exists g, s1. split; [reflexivity|].
    split; [rewrite Hc; cbn; now rewrite Hcalls|].
    split; [exact Hm|]. rewrite Hso. cbn. now rewrite Hout.
  - rewrite (solve_build_raises backend _ _ _ _ _ _ _ Hb) in H.
    injection H as <- <-.
    destruct (build_frame _ _ _ _ _ _ _ Hb) as (Hout & Hcalls & _).
    left. exists e. auto.
Qed.

(** [solve] returns exactly when [build] returns and the backend answers
    with a status other than infeasible and with a solution. *)
Theorem solve_returns_iff N p cs timeout s :
  (exists b s', solve backend N p cs timeout s = (Ok b, s')) <->
  (exists g s1, build N p cs timeout s = (Ok g, s1) /\
                fst (backend (model s1)) <> GRB.INFEASIBLE /\
                snd (backend (model s1)) <> None).
Proof.
  split.
  - intros (b & s' & H).
    destruct (build N p cs timeout s) as [[g|e] s1] eqn:Hb.
    + rewrite (solve_run backend _ _ _ _ _ _ _ Hb) in H.
      apply extract_inv in H as (obj & val & Hsol & Hst & _ & _).
      exists g, s1. split; [reflexivity|]. split; [exact Hst|].
      change (snd (backend (model s1)))
        with (solution (model (optimized backend s1))).
      now rewrite Hsol.
    + rewrite (solve_build_raises backend _ _ _ _ _ _ _ Hb) in H.
      discriminate H.
  - intros (g & s1 & Hb & Hst & Hsol).
    rewrite (solve_run backend _ _ _ _ _ _ _ Hb).
    destruct (snd (backend (model s1))) as [[obj val]|] eqn:E;
      [|now contradiction Hsol].
    eexists. eexists. apply (extract_solution g _ obj val); [exact Hst|exact E].
Qed.

(** The three exceptions [solve] can raise after the compilation. *)
Theorem solve_raises_after_build N p cs timeout s g s1 e s' :
  build N p cs timeout s = (Ok g, s1) ->
  solve backend N p cs timeout s = (Raise e, s') ->
  (fst (backend (model s1)) = GRB.INFEASIBLE /\
   e = Exception "Infeasible model") \/
  (fst (backend (model s1)) <> GRB.INFEASIBLE /\
   snd (backend (model s1)) = None /\ e = AttributeError "objVal").
Proof.
  intros Hb H. rewrite (solve_run backend _ _ _ _ _ _ _ Hb) in H.
  destruct (extract_outcome _ _ _ _ H)
    as [(Hst & [= ->]) | [(Hst & Hsol & [= ->]) | (_ & obj & val & _ & E)]];
    [left|right|discriminate E]; auto.
Qed.

(** The self-test of [floor.py] unpacks the eight components [solve]
    returns into seven names: whatever the backend answers, the block
    runs the backend once and then raises, before it has plotted
    anything. *)
Theorem floor_main_never_plots s :
  exists e s',
    (forall visualize, floor_main backend visualize s = (Raise e, s')) /\
    optimize_calls s' = S (optimize_calls s) /\
    (e = Exception "Infeasible model" \/
     e = AttributeError "objVal" \/
     e = ValueError "too many values to unpack (expected 7)").
Proof.
  destruct (main_constraints_build s) as (s1 & Hb & Hcalls).
  destruct (extract (geometry_of 5) (optimized backend s1)) as [r s2] eqn:He.
  pose proof (extract_frame _ _ _ _ He) as (_ & Hc2 & _).
  assert (Hn : optimize_calls s2 = S (optimize_calls s)).
  { rewrite Hc2. cbn. now rewrite Hcalls. }
  destruct (extract_outcome _ _ _ _ He)
    as [(_ & ->) | [(_ & _ & ->) | (_ & obj & val & _ & ->)]].
  - exists (Exception "Infeasible model"), s2. split; [|auto].
    intros visualize. unfold floor_main.
    apply bind_raise. now rewrite (solve_run backend _ _ _ _ _ _ _ Hb).
  - exists (AttributeError "objVal"), s2. split; [|auto].
    intros visualize. unfold floor_main.
    apply bind_raise. now rewrite (solve_run backend _ _ _ _ _ _ _ Hb).
  - exists (ValueError "too many values to unpack (expected 7)"), s2.
    split; [|auto].
    intros visualize. unfold floor_main.
    erewrite bind_run
      by (rewrite (solve_run backend _ _ _ _ _ _ _ Hb); exact He).
    reflexivity.
Qed.
End SolveEffects.

Lemma solve_effects_witness :
  (exists e,
     build 1 0 [("width", "box 0 has width of 2")] 60 (world0 [])
     = (Raise e,
        snd (solve demo_backend 1 0 [("width", "box 0 has width of 2")] 60
               (world0 []))) /\
     fst (solve demo_backend 1 0 [("width", "box 0 has width of 2")] 60
            (world0 [])) = Raise e /\
     optimize_calls
       (snd (solve demo_backend 1 0 [("width", "box 0 has width of 2")] 60
               (world0 []))) = optimize_calls (world0 []) /\
     stdout
       (snd (solve demo_backend 1 0 [("width", "box 0 has width of 2")] 60
               (world0 []))) = stdout (world0 [])) \/
  (exists g s1,
     build 1 0 [("width", "box 0 has width of 2")] 60 (world0 [])
     = (Ok g, s1) /\
     optimize_calls
       (snd (solve demo_backend 1 0 [("width", "box 0 has width of 2")] 60
               (world0 []))) = S (optimize_calls (world0 [])) /\
     model
       (snd (solve demo_backend 1 0 [("width", "box 0 has width of 2")] 60
               (world0 [])))
     = set_outcome (demo_backend (model s1)) (model s1) /\
     stdout
       (snd (solve demo_backend 1 0 [("width", "box 0 has width of 2")] 60
               (world0 [])))
     = (stdout (world0 [])
        ++ warning_for (fst (demo_backend (model s1))))%list).
Proof.
  apply (solve_effects demo_backend 1 0%Q
           [("width", "box 0 has width of 2")] 60 (world0 [])).
  apply surjective_pairing.
Defined.

Lemma solve_raises_after_build_witness :
  (fst (demo_infeasible
          (model (snd (build 1 0 [("width", "box 0 has width of 2")] 60
                         (world0 []))))) = GRB.INFEASIBLE /\
   Exception "Infeasible model" = Exception "Infeasible model") \/
  (fst (demo_infeasible
          (model (snd (build 1 0 [("width", "box 0 has width of 2")] 60
                         (world0 []))))) <> GRB.INFEASIBLE /\
   snd (demo_infeasible
          (model (snd (build 1 0 [("width", "box 0 has width of 2")] 60
                         (world0 []))))) = None /\
   Exception "Infeasible model" = AttributeError "objVal").
Proof.
  apply (solve_raises_after_build demo_infeasible 1 0%Q
           [("width", "box 0 has width of 2")] 60 (world0 [])
           (geometry_of 1)
           (snd (build 1 0 [("width", "box 0 has width of 2")] 60
                   (world0 [])))
           (Exception "Infeasible model")
           (snd (solve demo_infeasible 1 0
                   [("width", "box 0 has width of 2")] 60 (world0 []))));
    vm_compute; reflexivity.
Defined.

(** ** The window *)

Lemma options_kinds : App.options = kinds.
Proof. reflexivity. Qed.

Lemma delete_map {U V} (f : U -> V) : forall l i,
  map f (delete l i) = delete (map f l) i.
Proof.
  induction l as [|x l IH]; intros [|i]; cbn; try reflexivity.
  now rewrite IH.
Qed.

Lemma delete_Forall {V} (P : V -> Prop) : forall l i,
  Forall P l -> Forall P (delete l i).
Proof.
  induction l as [|x l IH]; intros [|i] H; cbn; try exact H.
  - now inversion H.
  - inversion H; subst. constructor; auto.
Qed.

Lemma select_set_items : forall items i,
  map fst (App.select_set items i) = map fst items.
Proof.
  induction items as [|[c b] items IH]; intros [|i]; cbn; try reflexivity.
  now rewrite IH.
Qed.

Lemma set_selection_items f : forall items k,
  map fst (App.set_selection f k items) = map fst items.
Proof.
  induction items as [|[c b] items IH]; intros k; cbn; [reflexivity|].
  now rewrite IH.
Qed.

Lemma selected_from_bound : forall items k i,
  In i (App.selected_from k items) -> (k <= i < k + List.length items)%nat.
Proof.
  induction items as [|[c [|]] items IH]; intros k i H; cbn in *.
  - destruct H.
  - destruct H as [<-|H]; [lia|]. apply IH in H. lia.
  - apply IH in H. lia.
Qed.

Lemma handle_in_sync ev a :
  in_sync a ->
  exists a', App.handle ev a = (Ok tt, a') /\ in_sync a'.
Proof.
  intros (Hsync & Htype & Hacc).
  destruct ev as [k|text|f| | |]; cbn [App.handle].
  - destruct (existsb (String.eqb k) App.options) eqn:Hk.
    + rewrite options_kinds in Hk. apply kinds_mem in Hk.
      unfold App.choose. cbn [App.set_type_var App.type_var].
      destruct (dict_get forms k) as [form|e] eqn:Hf.
      * eexists. split; [reflexivity|].
        split; [exact Hsync|]. split; [|exact Hacc].
        cbn [App.set_constraint_entry App.type_var].
        now rewrite options_kinds.
      * exfalso. cbn in Hk.
        repeat (destruct Hk as [<-|Hk]; [discriminate Hf|]). destruct Hk.
    + eexists. split; [reflexivity|]. repeat split; auto.
  - eexists. split; [reflexivity|]. repeat split; auto.
  - eexists. split; [reflexivity|].
    split; [|split; [exact Htype|exact Hacc]].
    cbn [App.set_constraint_list App.constraint_list App.sys].
    now rewrite set_selection_items.
  - unfold App.add_constraint.
    destruct (parse_match (App.type_var a) (App.constraint_entry a))
      as [fact|e] eqn:Hparse.
    + eexists. split; [reflexivity|].
      split; [|split]; cbn [App.set_constraint_list App.set_sys App.sys
                            App.type_var App.constraint_list
                            caller_constraints].
      * unfold App.insert_end. rewrite !map_app, Hsync. reflexivity.
      * exact Htype.
      * apply Forall_app. split; [exact Hacc|]. constructor; [|constructor].
        split; cbn [fst snd]; [now rewrite <- options_kinds|eauto].
    + eexists. split; [reflexivity|]. repeat split; auto.
  - unfold App.remove_constraint.
    destruct (App.curselection (App.constraint_list a)) as [|i sel] eqn:Hsel.
    + eexists. split; [reflexivity|]. repeat split; auto.
    + assert (Hi : (i < List.length (caller_constraints (App.sys a)))%nat).
      { assert (Hin : In i (App.selected_from 0 (App.constraint_list a))).
        { unfold App.curselection in Hsel. rewrite Hsel. now left. }
        apply selected_from_bound in Hin.
        rewrite <- (length_map snd (caller_constraints (App.sys a))),
          <- Hsync, length_map.
        lia. }
      unfold App.sys_run, print, constraints_pop.
      cbn [App.set_sys App.sys caller_constraints].
      destruct (nth_error (caller_constraints (App.sys a)) i) as [c|] eqn:Hc.
      2: { apply nth_error_None in Hc. lia. }
      cbn [App.set_sys App.set_constraint_list App.sys App.constraint_list
           caller_constraints].
      match goal with
      | |- context [if ?b then _ else _] => destruct b
      end.
      all: eexists; (split; [reflexivity|]).
      all: split; [|split];
        cbn [App.set_sys App.set_constraint_list App.sys App.constraint_list
             App.type_var caller_constraints];
        rewrite ?select_set_items;
        [ now rewrite !delete_map, Hsync
        | exact Htype
        | now apply delete_Forall ].
  - eexists. split; [reflexivity|]. repeat split; cbn; auto.
Qed.

Lemma initial_in_sync : in_sync App.initial.
Proof.
  split; [reflexivity|]. split; [cbn; tauto|].
  unfold App.initial, App.constraints, world0.
  cbn [App.sys caller_constraints].
  repeat (apply Forall_cons;
          [split; [cbn; tauto | eexists; vm_compute; reflexivity]|]).
  apply Forall_nil.
Qed.

Lemma run_in_sync : forall evs a,
  in_sync a -> fst (App.run evs a) = [] /\ in_sync (snd (App.run evs a)).
Proof.
  induction evs as [|ev evs IH]; intros a Ha; cbn [App.run].
  - auto.
  - destruct (handle_in_sync ev a Ha) as (a' & -> & Ha').
    specialize (IH a' Ha'). destruct (App.run evs a') as [errs a''].
    exact IH.
Qed.

(** Whatever the user does to the widgets of the constraint list, no
    exception leaves a handler, the list box shows the texts of the
    constraints in the list [constraints], item by item, and every
    constraint of the list has a kind spelled as one of the ten and a text
    that parses. *)
Theorem gui_lists_in_sync evs :
  fst (App.run evs App.initial) = [] /\
  map fst (App.constraint_list (snd (App.run evs App.initial)))
  = map snd (caller_constraints (App.sys (snd (App.run evs App.initial)))) /\
  Forall accepted
    (caller_constraints (App.sys (snd (App.run evs App.initial)))).
Proof.
  destruct (run_in_sync evs App.initial initial_in_sync) as (H1 & H2 & _ & H3).
  auto.
Qed.



Section AppFacts.
Variable backend : Model -> GRB.status * option (Q * (Var -> Q)).

End AppFacts.



